(** * UTXO engine state: address discovery and reconciliation

    A shallow embedding of the synchronisation core of the UTXO wallet
    engine (look-ahead generation, fresh-index search, per-address
    reconciliation against a Blockbook indexer) and of the server pool's
    [broadcastTx], together with the properties the design document
    states about them.

    The engine is asynchronous JavaScript.  The embedding is the
    sequential reading of each function: every [await] is taken in
    program order and [Promise.all] runs its members left to right.
    Store and emitter effects are threaded through a small state and
    exception monad over [World]. *)

From Stdlib Require Import ZArith Ascii.
From stdpp Require Import gmap strings list fin_maps pretty.

Set Warnings "-clear-no-such-hyp".

Open Scope string_scope.
Open Scope nat_scope.
Open Scope list_scope.

(* ===================================================================== *)
(** * Part I: definitions                                                 *)
(* ===================================================================== *)

(** ** Path algebra *)

Inductive CurrencyFormat := bip32 | bip44 | bip49 | bip84.

Inductive BIP43PurposeTypeEnum := Airbitz | Legacy | WrappedSegwit | Segwit.

Inductive ScriptTypeEnum := p2pkh | p2wpkhp2sh | p2wpkh.

Inductive NetworkEnum := Mainnet | Testnet.

#[global] Instance CurrencyFormat_eq_dec : EqDecision CurrencyFormat.
Proof. solve_decision. Defined.

#[global] Instance BIP43PurposeTypeEnum_eq_dec : EqDecision BIP43PurposeTypeEnum.
Proof. solve_decision. Defined.

Definition CurrencyFormat_code (f : CurrencyFormat) : nat :=
  match f with bip32 => 0 | bip44 => 1 | bip49 => 2 | bip84 => 3 end.

Definition CurrencyFormat_of_code (n : nat) : CurrencyFormat :=
  match n with 0 => bip32 | 1 => bip44 | 2 => bip49 | _ => bip84 end.

#[global] Instance CurrencyFormat_countable : Countable CurrencyFormat.
Proof.
  refine (inj_countable' CurrencyFormat_code CurrencyFormat_of_code _).
  by intros [].
Defined.

Record AddressPath := mkPath {
  format : CurrencyFormat;
  changeIndex : nat;
  addressIndex : nat
}.

#[global] Instance AddressPath_eq_dec : EqDecision AddressPath.
Proof. solve_decision. Defined.

#[global] Instance AddressPath_countable : Countable AddressPath.
Proof.
  refine (inj_countable'
            (λ p, (format p, changeIndex p, addressIndex p))
            (λ t, mkPath t.1.1 t.1.2 t.2) _).
  by intros [].
Defined.

(** Modelled from the spec: [currencyFormatToPurposeType] lives in the
    engine's [utils] module.  The data model lists the formats as
    bip32-legacy, bip44-legacy (the Airbitz one), bip49-wrapped-segwit and
    bip84-segwit. *)
Definition currencyFormatToPurposeType (f : CurrencyFormat) : BIP43PurposeTypeEnum :=
  match f with
  | bip32 => Legacy
  | bip44 => Airbitz
  | bip49 => WrappedSegwit
  | bip84 => Segwit
  end.

(** Modelled from the spec: [getCurrencyFormatFromPurposeType] of [utils],
    the inverse of the table above. *)
Definition getCurrencyFormatFromPurposeType (p : BIP43PurposeTypeEnum) : CurrencyFormat :=
  match p with
  | Legacy => bip32
  | Airbitz => bip44
  | WrappedSegwit => bip49
  | Segwit => bip84
  end.

(** Modelled from the spec: [getFormatSupportedBranches] of [utils]:
    branch 0 only when the purpose type is legacy or Airbitz, branches 0
    and 1 otherwise. *)
Definition getFormatSupportedBranches (f : CurrencyFormat) : list nat :=
  match currencyFormatToPurposeType f with
  | Legacy | Airbitz => [0]
  | WrappedSegwit | Segwit => [0; 1]
  end.

(** ** Store records *)

Record IAddress := mkAddress {
  scriptPubkey : string;
  path : option AddressPath;
  networkQueryVal : nat;
  lastQuery : nat;
  lastTouched : nat;
  used : bool;
  balance : option string
}.

Record IUTXO := mkUtxo {
  id : string;
  utxo_txid : string;
  utxo_vout : nat;
  utxo_value : string;
  utxo_scriptPubkey : string;
  script : string;
  redeemScript : option string;
  scriptType : ScriptTypeEnum;
  blockHeight : nat
}.

Record TxInput := mkTxInput {
  in_txId : string;
  in_outputIndex : option nat;
  in_scriptPubkey : string;
  in_amount : string
}.

Record TxOutput := mkTxOutput {
  out_index : nat;
  out_scriptPubkey : string;
  out_amount : string
}.

Record ProcessorTransaction := mkProcessorTransaction {
  txid : string;
  hex : string;
  tx_blockHeight : nat;
  date : nat;
  fees : string;
  inputs : list TxInput;
  outputs : list TxOutput;
  ourIns : list string;
  ourOuts : list string;
  ourAmount : string
}.

(** ** The processor (persistent store)

    Modelled from the spec: the [Processor] class is not part of these
    sources.  Address records are keyed by [scriptPubkey]; a second index
    maps each path to its [scriptPubkey], and the address count of a
    branch is the current maximum [addressIndex + 1] of that branch.
    UTXO records are keyed by [id], transactions by [txid]. *)
Record Processor := mkProcessor {
  addressByScriptPubkey : gmap string IAddress;
  scriptPubkeyByPath : gmap AddressPath string;
  txById : gmap string ProcessorTransaction;
  utxoById : gmap string IUTXO
}.

Definition emptyProcessor : Processor := mkProcessor ∅ ∅ ∅ ∅.

(** Modelled from the spec: the address count of the partition
    [(fmt, ch)], the largest stored [addressIndex + 1]. *)
Definition addressCount (p : Processor) (fmt : CurrencyFormat) (ch : nat) : nat :=
  map_fold (λ (k : AddressPath) (_ : string) (acc : nat),
              if decide (format k = fmt ∧ changeIndex k = ch)
              then Nat.max (S (addressIndex k)) acc else acc)
           0 (scriptPubkeyByPath p).

(** Partial update accepted by [updateAddressByScriptPubkey]. *)
Record AddressPatch := mkPatch {
  patch_balance : option string;
  patch_used : option bool
}.

Definition applyPatch (d : AddressPatch) (a : IAddress) : IAddress :=
  mkAddress (scriptPubkey a) (path a) (networkQueryVal a) (lastQuery a)
            (lastTouched a)
            (default (used a) (patch_used d))
            (match patch_balance d with Some b => Some b | None => balance a end).

(** ** Emitter events and calls observed from outside *)

Inductive Event :=
| Emit_BALANCE_CHANGED (currencyCode : string) (newBalance : string)
| Emit_TXIDS_CHANGED (changeTxidMap : gmap string nat)
| Call_watchAddresses (addresses : list string)
| Call_onAddressChecked
| Call_setLookAhead (fmt : CurrencyFormat) (processNewAddresses : bool).

(** ** The world threaded through the engine

    [events] is the log of emitter events and outgoing calls, newest
    first.  [probes] counts address-record reads of the store.
    [mutexQueue] holds the addresses whose [processAddress] was handed to
    [mutex.runExclusive] while the mutex was held; they run after the
    holder releases it. *)
Record World := mkWorld {
  processor : Processor;
  addressesToWatch : list string;
  events : list Event;
  probes : nat;
  mutexQueue : list string
}.

Definition emptyWorld : World := mkWorld emptyProcessor [] [] 0 [].

Definition setProcessor (p : Processor) (w : World) : World :=
  mkWorld p (addressesToWatch w) (events w) (probes w) (mutexQueue w).

Definition tick (n : nat) (w : World) : World :=
  mkWorld (processor w) (addressesToWatch w) (events w) (n + probes w) (mutexQueue w).

Definition logEvent (e : Event) (w : World) : World :=
  mkWorld (processor w) (addressesToWatch w) (e :: events w) (probes w) (mutexQueue w).

(** ** State and exception monad *)

Inductive result (A : Type) : Type :=
| Ok (a : A) (w : World)
| Throw (e : string) (w : World)
| OutOfFuel.
Arguments Ok {A} a w.
Arguments Throw {A} e w.
Arguments OutOfFuel {A}.

Definition M (A : Type) : Type := World → result A.

Definition ret {A} (a : A) : M A := λ w, Ok a w.

Definition bind {A B} (m : M A) (k : A → M B) : M B :=
  λ w, match m w with
       | Ok a w' => k a w'
       | Throw e w' => Throw e w'
       | OutOfFuel => OutOfFuel
       end.

Definition throw {A} (e : string) : M A := λ w, Throw e w.

Definition outOfFuel {A} : M A := λ _, OutOfFuel.

Definition modify (f : World → World) : M unit := λ w, Ok tt (f w).

Notation "x <- m ;; k" := (bind m (λ x, k))
  (at level 100, m at next level, right associativity).
Notation "m ;;; k" := (bind m (λ _, k))
  (at level 100, right associativity).

Fixpoint forEach {A} (l : list A) (body : A → M unit) : M unit :=
  match l with
  | [] => ret tt
  | x :: rest => body x ;;; forEach rest body
  end.

(** What a finished run leaves behind, whichever way it finished. *)
Definition finalWorld {A} (r : result A) : option World :=
  match r with
  | Ok _ w => Some w
  | Throw _ w => Some w
  | OutOfFuel => None
  end.

(** The value or the exception of a run, without the world. *)
Definition outcome {A} (r : result A) : option (A + string) :=
  match r with
  | Ok a _ => Some (inl a)
  | Throw e _ => Some (inr e)
  | OutOfFuel => None
  end.

(** ** Processor operations

    The operations of the store that the engine calls.  Reads return
    what the maps hold; [fetchAddressByScriptPubkey] also counts one
    address-record read in [probes]. *)

(** Modelled from the spec: [fetchAddressByScriptPubkey(sp)], the record
    stored under [sp], if any. *)
Definition fetchAddressByScriptPubkey (sp : string) : M (option IAddress) :=
  λ w, Ok (addressByScriptPubkey (processor w) !! sp) (tick 1 w).

(** Modelled from the spec: [fetchAddressCountFromPathPartition], the
    address count of a branch. *)
Definition fetchAddressCountFromPathPartition (fmt : CurrencyFormat) (ch : nat) : M nat :=
  λ w, Ok (addressCount (processor w) fmt ch) w.

(** Modelled from the spec: [fetchScriptPubkeyByPath(path)], the script
    listed under [path], if any. *)
Definition fetchScriptPubkeyByPath (pth : AddressPath) : M (option string) :=
  λ w, Ok (scriptPubkeyByPath (processor w) !! pth) w.

(** Modelled from the spec: [saveAddress] writes the record under its
    [scriptPubkey] and, when the record has a path, lists it under that
    path. *)
Definition saveAddress_store (a : IAddress) (p : Processor) : Processor :=
  mkProcessor (<[scriptPubkey a := a]> (addressByScriptPubkey p))
              (match path a with
               | Some pth => <[pth := scriptPubkey a]> (scriptPubkeyByPath p)
               | None => scriptPubkeyByPath p
               end)
              (txById p) (utxoById p).

Definition saveAddress (a : IAddress) : M unit :=
  modify (λ w, setProcessor (saveAddress_store a (processor w)) w).

(** Modelled from the spec: [updateAddressByScriptPubkey(sp, partial)]
    overwrites the given fields of the record under [sp].  The design
    document does not say what an update without a record does; here it
    changes nothing, and the statements below use the update only where
    the record exists. *)
Definition updateAddressByScriptPubkey (sp : string) (d : AddressPatch) : M unit :=
  modify (λ w, setProcessor
    (mkProcessor (alter (applyPatch d) sp (addressByScriptPubkey (processor w)))
                 (scriptPubkeyByPath (processor w))
                 (txById (processor w)) (utxoById (processor w))) w).

(** Modelled from the spec: [processor.fetchTransaction(txid)]. *)
Definition processor_fetchTransaction (t : string) : M (option ProcessorTransaction) :=
  λ w, Ok (txById (processor w) !! t) w.

(** Modelled from the spec: [saveTransaction], keyed by [txid]. *)
Definition saveTransaction (tx : ProcessorTransaction) : M unit :=
  modify (λ w, setProcessor
    (mkProcessor (addressByScriptPubkey (processor w))
                 (scriptPubkeyByPath (processor w))
                 (<[txid tx := tx]> (txById (processor w)))
                 (utxoById (processor w))) w).

Definition setUtxos (u : gmap string IUTXO) (p : Processor) : Processor :=
  mkProcessor (addressByScriptPubkey p) (scriptPubkeyByPath p) (txById p) u.

(** Modelled from the spec: [fetchUtxosByScriptPubkey(sp)], the stored
    UTXO records whose [scriptPubkey] is [sp]. *)
Definition fetchUtxosByScriptPubkey (sp : string) : M (list IUTXO) :=
  λ w, Ok (filter (λ u, utxo_scriptPubkey u = sp)
                  (map_to_list (utxoById (processor w))).*2) w.

(** Modelled from the spec: [saveUtxo] and [removeUtxo], keyed by the
    [id] of the record. *)
Definition saveUtxo (u : IUTXO) : M unit :=
  modify (λ w, setProcessor
    (setUtxos (<[id u := u]> (utxoById (processor w))) (processor w)) w).

Definition removeUtxo (u : IUTXO) : M unit :=
  modify (λ w, setProcessor
    (setUtxos (delete (id u) (utxoById (processor w))) (processor w)) w).

(** ** Indexer and key manager interfaces *)

Record ScriptPubkeyInfo := mkScriptPubkeyInfo {
  info_scriptPubkey : string;
  info_redeemScript : option string
}.

Record AddressInfo := mkAddressInfo {
  address : string;
  legacyAddress : string
}.

Record UTXOPluginWalletTools := mkWalletTools {
  getScriptPubkey : AddressPath → ScriptPubkeyInfo;
  scriptPubkeyToAddress : string → CurrencyFormat → AddressInfo;
  addressToScriptPubkey : string → string
}.

Record Vin := mkVin {
  vin_txid : string;
  vin_vout : option nat;
  vin_addresses : list string;
  vin_value : string
}.

Record Vout := mkVout {
  vout_n : nat;
  vout_hex : option string;
  vout_addresses : list string;
  vout_value : string
}.

Record ITransaction := mkITransaction {
  raw_txid : string;
  raw_hex : string;
  raw_blockHeight : nat;
  raw_blockTime : nat;
  raw_fees : string;
  vin : list Vin;
  vout : list Vout
}.

Record FetchAddressOpts := mkFetchAddressOpts {
  opt_details : option string;
  opt_from : option nat;
  opt_perPage : option nat;
  opt_page : option nat
}.

Record AddressResponse := mkAddressResponse {
  resp_balance : string;
  resp_unconfirmedBalance : string;
  resp_txs : nat;
  resp_unconfirmedTxs : nat;
  resp_transactions : option (list ITransaction);
  resp_totalPages : option nat
}.

Record AccountUtxo := mkAccountUtxo {
  au_txid : string;
  au_vout : nat;
  au_value : string;
  au_height : option nat
}.

(** The indexer as the answers it gives during one reconciliation; [None]
    is a failed request, which rejects the awaiting caller. *)
Record BlockBook := mkBlockBook {
  bb_fetchAddress : string → option FetchAddressOpts → option AddressResponse;
  bb_fetchAddressUtxos : string → option (list AccountUtxo);
  bb_fetchTransaction : string → option ITransaction
}.

Record EngineCurrencyInfo := mkCurrencyInfo {
  gapLimit : nat;
  coinNetwork : string;
  currencyCode : string
}.

(** Modelled from the spec: the wallet descriptor, from which the purpose
    type and the declared formats are read. *)
Record EdgeWalletInfo := mkWalletInfo {
  purposeType : BIP43PurposeTypeEnum;
  walletFormats : list CurrencyFormat
}.

(** Modelled from the spec: [getPurposeTypeFromKeys] of [utils] reads the
    purpose type from the wallet descriptor. *)
Definition getPurposeTypeFromKeys (wi : EdgeWalletInfo) : BIP43PurposeTypeEnum :=
  purposeType wi.

(** The arguments every engine function receives.  [bs_add] is
    biggystring's decimal addition and [validScriptPubkeyFromAddress] the
    [utils] helper of that name; [onAddressChecked] tells whether the
    optional progress callback was supplied. *)
Record EngineConfig := mkConfig {
  network : NetworkEnum;
  currencyInfo : EngineCurrencyInfo;
  walletInfo : EdgeWalletInfo;
  walletTools : UTXOPluginWalletTools;
  blockBook : BlockBook;
  bs_add : string → string → string;
  validScriptPubkeyFromAddress : option string → string → NetworkEnum → string;
  onAddressChecked : bool
}.

Definition emit (e : Event) : M unit := modify (logEvent e).

Definition awaitBlockBook {A} (r : option A) : M A :=
  match r with
  | Some a => ret a
  | None => throw "blockbook request failed"
  end.

(** ** Fresh-index finder *)

Definition fetchAddressDataByPath (pth : AddressPath) : M IAddress :=
  scriptPubkey_ <- fetchScriptPubkeyByPath pth ;;
  match scriptPubkey_ with
  | None => throw "Address path unknown"
  | Some scriptPubkey_ =>
      addressData <- fetchAddressByScriptPubkey scriptPubkey_ ;;
      match addressData with
      | None => throw "Address data unknown"
      | Some addressData => ret addressData
      end
  end.

Definition withIndex (pth : AddressPath) (i : nat) : AddressPath :=
  mkPath (format pth) (changeIndex pth) i.

(** [findFreshIndex] recurses on a path whose [addressIndex] moves both
    ways; [fuel] bounds the number of calls. *)
Fixpoint findFreshIndex (fuel : nat) (pth : AddressPath) : M nat :=
  match fuel with
  | 0 => outOfFuel
  | S fuel' =>
      addressCount <- fetchAddressCountFromPathPartition (format pth) (changeIndex pth) ;;
      if addressCount <=? addressIndex pth then ret (addressIndex pth) else
      addressData <- fetchAddressDataByPath pth ;;
      if negb (used addressData) && (0 <? addressIndex pth) then
        prevAddressData <- fetchAddressDataByPath (withIndex pth (addressIndex pth - 1)) ;;
        if used prevAddressData then ret (addressIndex pth)
        else if 1 <? addressIndex pth
             then findFreshIndex fuel' (withIndex pth (addressIndex pth - 2))
             else ret (addressIndex pth)
      else if used addressData
           then findFreshIndex fuel' (withIndex pth (addressIndex pth + 1))
           else ret (addressIndex pth)
  end.

Definition getFreshIndex (fuel : nat) (cfg : EngineConfig)
    (fmt : CurrencyFormat) (ch : nat) (find : bool) : M nat :=
  addressCount <- fetchAddressCountFromPathPartition fmt ch ;;
  let idx := (Z.of_nat addressCount - Z.of_nat (gapLimit (currencyInfo cfg)))%Z in
  if (idx <? 0)%Z then ret 0 else
  let pth := mkPath fmt ch (Z.to_nat idx) in
  if find then findFreshIndex fuel pth else ret (addressIndex pth).

(** The helper [getFreshAddress]. *)
Definition getFreshAddress (fuel : nat) (cfg : EngineConfig)
    (fmt : CurrencyFormat) (ch : nat) (find : bool) : M AddressInfo :=
  idx <- getFreshIndex fuel cfg fmt ch find ;;
  let pth := mkPath fmt ch idx in
  stored <- fetchScriptPubkeyByPath pth ;;
  let scriptPubkey_ :=
    match stored with
    | Some sp => sp
    | None => info_scriptPubkey (getScriptPubkey (walletTools cfg) pth)
    end in
  if decide (scriptPubkey_ = "") then throw "Unknown address path"
  else ret (scriptPubkeyToAddress (walletTools cfg) scriptPubkey_ fmt).

(** ** Look-ahead generator *)

Definition saveNewOrUpdateAddressPathIfNeeded (cfg : EngineConfig)
    (pth : option AddressPath) (scriptPubkeyArg : option string) : M bool :=
  let derive : M string :=
    match pth with
    | None => throw "Cannot save/update address without scriptPubkey or path"
    | Some p => ret (info_scriptPubkey (getScriptPubkey (walletTools cfg) p))
    end in
  scriptPubkey_ <-
    (match scriptPubkeyArg with
     | Some s => if decide (s = "") then derive else ret s
     | None => derive
     end) ;;
  addressData <- fetchAddressByScriptPubkey scriptPubkey_ ;;
  match addressData with
  | None =>
      saveAddress (mkAddress scriptPubkey_ pth 0 0 0 false (Some "0")) ;;;
      ret true
  | Some addressData =>
      match path addressData with
      | None =>
          saveAddress (mkAddress (scriptPubkey addressData) pth
                         (networkQueryVal addressData) (lastQuery addressData)
                         (lastTouched addressData) (used addressData)
                         (balance addressData)) ;;;
          ret false
      | Some _ => ret false
      end
  end.

(** [mutex.runExclusive] called while the caller holds the mutex: the
    callback, a [processAddress] nobody awaits, starts after release.
    The call is entered in [mutexQueue]; running it is the scheduler's
    work and not part of the caller's run, so what is stated of a run
    below holds of that run, not of the calls it has handed over. *)
Definition runExclusive_processAddress (addr : string) : M unit :=
  modify (λ w, mkWorld (processor w) (addressesToWatch w) (events w) (probes w)
                       (mutexQueue w ++ [addr])).

(** The inner [for] loop of [setLookAhead]; [n] bounds its iterations. *)
Fixpoint lookAheadLoop (n fuel : nat) (cfg : EngineConfig) (fmt : CurrencyFormat)
    (branch : nat) (processNewAddresses : bool) (i freshIndex : nat) : M unit :=
  match n with
  | 0 => outOfFuel
  | S n' =>
      if i <? freshIndex + gapLimit (currencyInfo cfg) then
        let pth := mkPath fmt branch i in
        isNew <- saveNewOrUpdateAddressPathIfNeeded cfg (Some pth) None ;;
        (if isNew && processNewAddresses then
           scriptPubkey_ <- fetchScriptPubkeyByPath pth ;;
           match scriptPubkey_ with
           | None => throw "TypeError: scriptPubkey is undefined"
           | Some scriptPubkey_ =>
               runExclusive_processAddress
                 (address (scriptPubkeyToAddress (walletTools cfg) scriptPubkey_ fmt))
           end
         else ret tt) ;;;
        freshIndex' <- getFreshIndex fuel cfg fmt branch true ;;
        lookAheadLoop n' fuel cfg fmt branch processNewAddresses (S i) freshIndex'
      else ret tt
  end.

(** [setLookAhead] holds the engine mutex from its first line to its
    [finally]; in the sequential reading nothing else runs while it holds
    it, so acquiring and releasing leave no trace in the world.  The
    first step enters the call in the event log. *)
Definition setLookAhead (fuel : nat) (cfg : EngineConfig) (fmt : CurrencyFormat)
    (processNewAddresses : bool) : M unit :=
  emit (Call_setLookAhead fmt processNewAddresses) ;;;
  forEach (getFormatSupportedBranches fmt) (λ branch,
    freshIndex <- getFreshIndex fuel cfg fmt branch true ;;
    addressCount <- fetchAddressCountFromPathPartition fmt branch ;;
    lookAheadLoop fuel fuel cfg fmt branch processNewAddresses addressCount freshIndex).

(** ** Transaction and UTXO normalisers *)

Definition processRawTx (cfg : EngineConfig) (tx : ITransaction) : ProcessorTransaction :=
  mkProcessorTransaction
    (raw_txid tx) (raw_hex tx) (raw_blockHeight tx) (raw_blockTime tx) (raw_fees tx)
    (map (λ input, mkTxInput (vin_txid input) (vin_vout input)
            (validScriptPubkeyFromAddress cfg (head (vin_addresses input))
               (coinNetwork (currencyInfo cfg)) (network cfg))
            (vin_value input)) (vin tx))
    (map (λ output, mkTxOutput (vout_n output)
            (match vout_hex output with
             | Some h => h
             | None => validScriptPubkeyFromAddress cfg (head (vout_addresses output))
                         (coinNetwork (currencyInfo cfg)) (network cfg)
             end)
            (vout_value output)) (vout tx))
    [] [] "0".

Definition fetchTransaction (cfg : EngineConfig) (t : string) : M ProcessorTransaction :=
  tx <- processor_fetchTransaction t ;;
  match tx with
  | Some tx => ret tx
  | None =>
      rawTx <- awaitBlockBook (bb_fetchTransaction (blockBook cfg) t) ;;
      ret (processRawTx cfg rawTx)
  end.

(** The JavaScript values met by the guard of the [TXIDS_CHANGED]
    emission, with the nullish coalescing operator and the truthiness
    test of [if]. *)
Inductive JsValue :=
| JsNumber (n : nat)
| JsBoolean (b : bool)
| JsUndefined.

Definition nullishCoalesce (a b : JsValue) : JsValue :=
  match a with
  | JsUndefined => b
  | _ => a
  end.

Definition ToBoolean (v : JsValue) : bool :=
  match v with
  | JsNumber n => negb (n =? 0)
  | JsBoolean b => b
  | JsUndefined => false
  end.

(** The [for ... of transactions] loop: each transaction is normalised,
    saved, and entered in [changeTxidMap]. *)
Fixpoint saveTransactions (cfg : EngineConfig) (transactions : list ITransaction)
    (changeTxidMap : gmap string nat) : M (gmap string nat) :=
  match transactions with
  | [] => ret changeTxidMap
  | rawTx :: rest =>
      let tx := processRawTx cfg rawTx in
      saveTransaction tx ;;;
      saveTransactions cfg rest (<[txid tx := date tx]> changeTxidMap)
  end.

Definition txPageOpts (addressData : option IAddress) (page : nat) : FetchAddressOpts :=
  mkFetchAddressOpts (Some "txs") (networkQueryVal <$> addressData) (Some 10) (Some page).

(** [processAddressTransactions (args, page)]; [fuel] bounds the number
    of pages.  The guard [transactions.length ?? 0 > 0] parses as
    [transactions.length ?? (0 > 0)]. *)
Fixpoint processAddressTransactions (fuel : nat) (cfg : EngineConfig)
    (addr : string) (page : nat) : M unit :=
  match fuel with
  | 0 => outOfFuel
  | S fuel' =>
      let scriptPubkey_ := addressToScriptPubkey (walletTools cfg) addr in
      addressData <- fetchAddressByScriptPubkey scriptPubkey_ ;;
      resp <- awaitBlockBook
                (bb_fetchAddress (blockBook cfg) addr (Some (txPageOpts addressData page))) ;;
      let transactions := default [] (resp_transactions resp) in
      changeTxidMap <- saveTransactions cfg transactions ∅ ;;
      (if ToBoolean (nullishCoalesce (JsNumber (length transactions))
                                     (JsBoolean (0 <? 0)))
       then emit (Emit_TXIDS_CHANGED changeTxidMap)
       else ret tt) ;;;
      match resp_totalPages resp with
      | Some totalPages =>
          if page <? totalPages
          then processAddressTransactions fuel' cfg addr (S page)
          else ret tt
      | None => ret tt
      end
  end.

Definition utxoId (u : AccountUtxo) : string :=
  (au_txid u ++ "_" ++ pretty (au_vout u))%string.

(** The [for ... of accountUtxos] loop of [processAddressUtxos], with the
    local [oldUtxoMap] it mutates. *)
Fixpoint reconcileUtxos (cfg : EngineConfig) (pth : AddressPath)
    (scriptPubkey_ : string) (accountUtxos : list AccountUtxo)
    (oldUtxoMap : gmap string IUTXO) : M (gmap string IUTXO) :=
  match accountUtxos with
  | [] => ret oldUtxoMap
  | utxo :: rest =>
      let id_ := utxoId utxo in
      match oldUtxoMap !! id_ with
      | Some _ => reconcileUtxos cfg pth scriptPubkey_ rest (delete id_ oldUtxoMap)
      | None =>
          scripts <-
            (match currencyFormatToPurposeType (format pth) with
             | Airbitz | Legacy =>
                 tx <- fetchTransaction cfg (au_txid utxo) ;;
                 ret (hex tx, p2pkh, None)
             | WrappedSegwit =>
                 ret (scriptPubkey_, p2wpkhp2sh,
                      info_redeemScript (getScriptPubkey (walletTools cfg) pth))
             | Segwit => ret (scriptPubkey_, p2wpkh, None)
             end) ;;
          saveUtxo (mkUtxo id_ (au_txid utxo) (au_vout utxo) (au_value utxo)
                      scriptPubkey_ scripts.1.1 scripts.2 scripts.1.2
                      (default 0 (au_height utxo))) ;;;
          reconcileUtxos cfg pth scriptPubkey_ rest oldUtxoMap
      end
  end.

Definition processAddressUtxos (cfg : EngineConfig) (addr : string) : M unit :=
  let scriptPubkey_ := addressToScriptPubkey (walletTools cfg) addr in
  addressData <- fetchAddressByScriptPubkey scriptPubkey_ ;;
  match addressData with
  | None => ret tt
  | Some addressData =>
      match path addressData with
      | None => ret tt
      | Some pth =>
          oldUtxos <- fetchUtxosByScriptPubkey scriptPubkey_ ;;
          let oldUtxoMap :=
            foldl (λ (obj : gmap string IUTXO) utxo, <[id utxo := utxo]> obj) ∅ oldUtxos in
          accountUtxos <- awaitBlockBook (bb_fetchAddressUtxos (blockBook cfg) addr) ;;
          oldUtxoMap' <- reconcileUtxos cfg pth scriptPubkey_ accountUtxos oldUtxoMap ;;
          forEach (map_to_list oldUtxoMap').*2 removeUtxo
      end
  end.

(** ** Address processor *)

Definition watch (addr : string) : M unit :=
  modify (λ w, mkWorld (processor w) (addressesToWatch w ++ [addr])
                       (Call_watchAddresses (addressesToWatch w ++ [addr]) :: events w)
                       (probes w) (mutexQueue w)).

Definition hasWatch (addr : string) : M bool :=
  λ w, Ok (bool_decide (addr ∈ addressesToWatch w)) w.

Definition processAddress (fuel : nat) (cfg : EngineConfig) (addr : string) : M unit :=
  let scriptPubkey_ := addressToScriptPubkey (walletTools cfg) addr in
  addressData <- fetchAddressByScriptPubkey scriptPubkey_ ;;
  match addressData with
  | None => throw "TypeError: Cannot read property 'used' of undefined"
  | Some addressData =>
      let previouslyUsed := used addressData in
      watched <- hasWatch addr ;;
      let firstProcess := negb watched in
      (if firstProcess then watch addr else ret tt) ;;;
      accountDetails <- awaitBlockBook (bb_fetchAddress (blockBook cfg) addr None) ;;
      let oldBalance := default "0" (balance addressData) in
      let balance_ := bs_add cfg (resp_balance accountDetails)
                                 (resp_unconfirmedBalance accountDetails) in
      (if decide (oldBalance ≠ balance_)
       then emit (Emit_BALANCE_CHANGED (currencyCode (currencyInfo cfg)) balance_)
       else ret tt) ;;;
      let used_ := (0 <? resp_txs accountDetails) || (0 <? resp_unconfirmedTxs accountDetails) in
      processAddressTransactions fuel cfg addr 1 ;;;
      processAddressUtxos cfg addr ;;;
      updateAddressByScriptPubkey scriptPubkey_ (mkPatch (Some balance_) (Some used_)) ;;;
      (if firstProcess && onAddressChecked cfg then emit Call_onAddressChecked else ret tt) ;;;
      match path addressData with
      | Some pth =>
          if negb previouslyUsed && used_
          then setLookAhead fuel cfg (format pth) true
          else ret tt
      | None => ret tt
      end
  end.

(** ** Engine facade *)

Record EdgeFreshAddress := mkFreshAddress {
  publicAddress : string;
  segwitAddress : option string;
  fresh_legacyAddress : option string
}.

Definition UtxoEngineState_getFreshAddress (fuel : nat) (cfg : EngineConfig)
    (change : bool) : M EdgeFreshAddress :=
  let walletPurpose := getPurposeTypeFromKeys (walletInfo cfg) in
  let changeIndex_ :=
    if change && bool_decide (walletPurpose ≠ Airbitz) then 1 else 0 in
  if decide (walletPurpose = Segwit) then
    wrapped <- getFreshAddress fuel cfg
                 (getCurrencyFormatFromPurposeType WrappedSegwit) changeIndex_ false ;;
    native <- getFreshAddress fuel cfg
                (getCurrencyFormatFromPurposeType Segwit) changeIndex_ false ;;
    ret (mkFreshAddress (address wrapped) (Some (address native)) None)
  else
    r <- getFreshAddress fuel cfg
           (getCurrencyFormatFromPurposeType walletPurpose) changeIndex_ false ;;
    ret (mkFreshAddress (address r) None
           (if decide (legacyAddress r ≠ address r) then Some (legacyAddress r) else None)).

Definition addGapLimitAddresses (cfg : EngineConfig) (addresses : list string) : M unit :=
  forEach addresses (λ addr,
    let scriptPubkey_ := addressToScriptPubkey (walletTools cfg) addr in
    saveNewOrUpdateAddressPathIfNeeded cfg None (Some scriptPubkey_) ;;; ret tt).

Definition markAddressUsed (cfg : EngineConfig) (addr : string) : M unit :=
  updateAddressByScriptPubkey (addressToScriptPubkey (walletTools cfg) addr)
                              (mkPatch None (Some true)).

(** ** Progress counts *)

(** The loop of [getFormatAddressCount] over the branches of the format. *)
Fixpoint formatAddressCountLoop (cfg : EngineConfig) (fmt : CurrencyFormat)
    (branches : list nat) (count : nat) : M nat :=
  match branches with
  | [] => ret count
  | branch :: rest =>
      branchCount <- fetchAddressCountFromPathPartition fmt branch ;;
      let branchCount :=
        if branchCount <? gapLimit (currencyInfo cfg)
        then gapLimit (currencyInfo cfg) else branchCount in
      formatAddressCountLoop cfg fmt rest (count + branchCount)
  end.

Definition getFormatAddressCount (cfg : EngineConfig) (fmt : CurrencyFormat) : M nat :=
  formatAddressCountLoop cfg fmt (getFormatSupportedBranches fmt) 0.

(** ** Sample wallet data used by the examples *)

Fixpoint unary (n : nat) : string :=
  match n with
  | 0 => ""
  | S n' => String "1"%char (unary n')
  end.

Definition formatTag (f : CurrencyFormat) : ascii :=
  match f with
  | bip32 => "a"%char
  | bip44 => "b"%char
  | bip49 => "c"%char
  | bip84 => "d"%char
  end.

(** A stand-in for the key manager's derivation: one distinct string per
    path. *)
Definition sampleScriptPubkey (pth : AddressPath) : string :=
  String (formatTag (format pth))
         (unary (changeIndex pth) ++ String "0"%char (unary (addressIndex pth)))%string.

Definition sampleTools : UTXOPluginWalletTools :=
  mkWalletTools (λ pth, mkScriptPubkeyInfo (sampleScriptPubkey pth) None)
                (λ sp fmt, mkAddressInfo (String "@"%char sp) (String "#"%char sp))
                (λ a, match a with String _ sp => sp | EmptyString => "" end).

(** An indexer that knows of no activity at all. *)
Definition quietBlockBook : BlockBook :=
  mkBlockBook (λ _ _, Some (mkAddressResponse "0" "0" 0 0 None None))
              (λ _, Some [])
              (λ _, None).

Definition sampleConfig (gap : nat) (purpose : BIP43PurposeTypeEnum)
    (bb : BlockBook) : EngineConfig :=
  mkConfig Mainnet (mkCurrencyInfo gap "bitcoin" "BTC")
           (mkWalletInfo purpose [getCurrencyFormatFromPurposeType purpose])
           sampleTools bb
           (λ a b, if decide (b = "0") then a else (a ++ "+" ++ b)%string)
           (λ a _ _, default "" a)
           true.

Definition sampleAddress (pth : AddressPath) (u : bool) : IAddress :=
  mkAddress (sampleScriptPubkey pth) (Some pth) 0 0 0 u (Some "0").

(** A store whose branch [(fmt, ch)] holds one record per entry of
    [flags], with that [used] flag. *)
Definition sampleStore (fmt : CurrencyFormat) (ch : nat) (flags : list bool) : Processor :=
  foldl (λ p iu, saveAddress_store (sampleAddress (mkPath fmt ch iu.1) iu.2) p)
        emptyProcessor (imap pair flags).

Definition worldOf (p : Processor) : World := mkWorld p [] [] 0 [].

Definition sampleTx (t : string) (time : nat) : ITransaction :=
  mkITransaction t "00" 100 time "0" [] [].

(** An indexer whose only history page for any address holds two
    transactions. *)
Definition pageBlockBook : BlockBook :=
  mkBlockBook (λ _ _, Some (mkAddressResponse "0" "0" 2 0
                              (Some [sampleTx "aa" 11; sampleTx "bb" 22]) (Some 1)))
              (λ _, Some [])
              (λ _, None).

(** An indexer that reports one unspent output, [t1:0], for any address. *)
Definition utxoBlockBook : BlockBook :=
  mkBlockBook (λ _ _, Some (mkAddressResponse "500" "0" 1 0 None None))
              (λ _, Some [mkAccountUtxo "t1" 0 "500" (Some 7)])
              (λ _, None).

(** A store holding only the record of the imported address [@x], which
    has no path. *)
Definition importedStore : Processor :=
  saveAddress_store (mkAddress "x" None 0 0 0 false (Some "0")) emptyProcessor.

(** A store whose first native-segwit receive address still owns the
    output [old:9]. *)
Definition staleUtxoStore : Processor :=
  setUtxos {[ "old_9" := mkUtxo "old_9" "old" 9 "1" "d0" "d0" None p2wpkh 5 ]}
           (sampleStore bip84 0 [false; false]).

(** ** Server pool: [broadcastTx] of [makeServerStates] *)

Module ServerStates.

(** A connection as [broadcastTx] sees it: its [isConnected] flag and how
    its own [broadcastTx] promise settles ([inl] the result it resolves
    with, [inr] the message of the error it rejects with, if any). *)
Record BlockBook := mkBlockBook {
  isConnected : bool;
  broadcastTx_settles : string + option string
}.

(** A JavaScript [Map] object.  Its entries live in the internal
    [[MapData]] slot, in insertion order; [ownKeys] are the own enumerable
    string-keyed properties of the object, which is what [Object.keys]
    lists. *)
Record JsMap (V : Type) := mkJsMap {
  mapData : list (string * V);
  ownKeys : list string
}.
Arguments mkJsMap {V} mapData ownKeys.
Arguments mapData {V} j.
Arguments ownKeys {V} j.

Definition Map_new {V} : JsMap V := mkJsMap [] [].

Fixpoint assoc_get {V} (l : list (string * V)) (k : string) : option V :=
  match l with
  | [] => None
  | (k', v) :: rest => if decide (k' = k) then Some v else assoc_get rest k
  end.

Fixpoint assoc_set {V} (l : list (string * V)) (k : string) (v : V) : list (string * V) :=
  match l with
  | [] => [(k, v)]
  | (k', v') :: rest =>
      if decide (k' = k) then (k, v) :: rest else (k', v') :: assoc_set rest k v
  end.

Definition Map_get {V} (m : JsMap V) (k : string) : option V :=
  assoc_get (mapData m) k.

Definition Map_set {V} (m : JsMap V) (k : string) (v : V) : JsMap V :=
  mkJsMap (assoc_set (mapData m) k v) (ownKeys m).

Definition Map_delete {V} (m : JsMap V) (k : string) : JsMap V :=
  mkJsMap (filter (λ kv, kv.1 ≠ k) (mapData m)) (ownKeys m).

Definition Map_keys {V} (m : JsMap V) : list string := (mapData m).*1.

Definition Object_keys {V} (m : JsMap V) : list string := ownKeys m.

(** The states [connections] goes through: it is created by [new Map()]
    and only ever touched by [set] and [delete]. *)
Inductive connectionsState : JsMap BlockBook → Prop :=
| connections_new : connectionsState Map_new
| connections_set m uri bb :
    connectionsState m → connectionsState (Map_set m uri bb)
| connections_delete m uri :
    connectionsState m → connectionsState (Map_delete m uri).

Inductive PromiseState :=
| Pending
| Resolved (value : string)
| Rejected (message : option string).

Definition resolve (v : string) (p : PromiseState) : PromiseState :=
  match p with Pending => Resolved v | _ => p end.

Definition reject (e : option string) (p : PromiseState) : PromiseState :=
  match p with Pending => Rejected e | _ => p end.

Definition noConnections : string :=
  ("No available connections" ++ String "010"%char "Check your internet signal")%string.

(** What one call of [broadcastTx] does: the state of the promise it
    returned once every callback has run, and the URIs whose connection
    received a [broadcastTx] call. *)
Record BroadcastRun := mkBroadcastRun {
  promise : PromiseState;
  invoked : list string
}.

(** The per-connection callbacks run in the order of the calls. *)
Definition broadcastTx (connections : JsMap BlockBook) : BroadcastRun :=
  let uris :=
    List.filter (λ uri, match Map_get connections uri with
                        | None => false
                        | Some blockBook => isConnected blockBook
                        end) (Object_keys connections) in
  let p0 := if length uris <? 1 then reject (Some noConnections) Pending else Pending in
  let calls :=
    omap (λ uri, match Map_get connections uri with
                 | None => None
                 | Some blockBook => Some (uri, broadcastTx_settles blockBook)
                 end) uris in
  let final :=
    foldl (λ (st : PromiseState * bool * nat) (call : string * (string + option string)),
             let '(p, resolved, bad) := st in
             match call.2 with
             | inl result =>
                 if resolved then (p, resolved, bad) else (resolve result p, true, bad)
             | inr e =>
                 if S bad =? length uris then (reject e p, resolved, S bad)
                 else (p, resolved, S bad)
             end)
          (p0, false, 0) calls in
  mkBroadcastRun final.1.1 calls.*1.


(** *** What each server is known to hold *)

(** [txids] and [addresses] are JavaScript [Set]s. *)
Record ServerState := mkServerState {
  subscribedBlocks : bool;
  txids : gset string;
  addresses : gset string
}.

Definition Map_values {V} (m : JsMap V) : list V := (mapData m).*2.

(** The loop [for (const state of serverStates.values())] of
    [serverCanGetTx] and [serverCanGetAddress]. *)
Fixpoint noStateHas (has : ServerState → bool) (states : list ServerState) : bool :=
  match states with
  | [] => true
  | state :: rest => if has state then false else noStateHas has rest
  end.

Definition serverCanGetTx (serverStates : JsMap ServerState) (uri txid : string) : bool :=
  match Map_get serverStates uri with
  | None => false
  | Some serverState =>
      if bool_decide (txid ∈ txids serverState) then true
      else noStateHas (λ state, bool_decide (txid ∈ txids state))
                      (Map_values serverStates)
  end.

Definition serverCanGetAddress (serverStates : JsMap ServerState)
    (uri address : string) : bool :=
  match Map_get serverStates uri with
  | None => false
  | Some serverState =>
      if bool_decide (address ∈ addresses serverState) then true
      else noStateHas (λ state, bool_decide (address ∈ addresses state))
                      (Map_values serverStates)
  end.

(** *** Reconnecting *)

(** The counter of [reconnect] and the delays, in milliseconds, of the
    timers it has set, latest first. *)
Record Reconnecting := mkReconnecting {
  reconnectCounter : nat;
  timers : list nat
}.

Definition reconnect (engineStarted : bool) (s : Reconnecting) : Reconnecting :=
  if engineStarted then
    let reconnectCounter :=
      if reconnectCounter s <? 5 then S (reconnectCounter s) else reconnectCounter s in
    mkReconnecting reconnectCounter (reconnectCounter * 1000 :: timers s)
  else s.

(** The handler of [CONNECTION_OPEN]. *)
Definition onConnectionOpen (s : Reconnecting) : Reconnecting :=
  mkReconnecting 0 (timers s).

End ServerStates.

(** ** Bitcoin Cash addresses: [cashAddress] of the key manager *)

Module CashAddress.

Inductive cashaddrPrefixEnum := mainnet | testnet.

Inductive cashaddrTypeEnum := pubkeyhash | scripthash.

Definition prefixString (p : cashaddrPrefixEnum) : string :=
  match p with
  | mainnet => "bitcoincash"
  | testnet => "bitcoincashtestnet"
  end.

(** How a call ends: with a value, with an exception, or not at all
    within the fuel it was given. *)
Inductive completion (A : Type) : Type :=
| Returns (a : A)
| Throws (msg : string)
| Diverges.
Arguments Returns {A} a.
Arguments Throws {A} msg.
Arguments Diverges {A}.

(** *** The checksum

    [BN] values are arbitrary-precision and never negative here; they are
    modelled in [N]. *)

Definition GENERATOR : list N :=
  [0x98f2bc8e61; 0x79b76d99e2; 0xf33e5fb3c4; 0xae2eabe2a8; 0x1e4f43e470]%N.

(** One round of the [for j] loop of [polymod]. *)
Definition polymodStep (checksum value : N) : N :=
  let topBits := N.shiftr checksum 35 in
  let checksum := N.land checksum 0x07ffffffff in
  let checksum := N.lxor (N.shiftl checksum 5) value in
  foldl (λ c ig, if (N.land (N.shiftr topBits (N.of_nat ig.1)) 1 =? 1)%N
                 then N.lxor c ig.2 else c)
        checksum (imap pair GENERATOR).

Definition polymod (data : list N) : N :=
  N.lxor (foldl polymodStep 1%N data) 1.

Definition prefixToArray (prefix : string) : list N :=
  map (λ c, N.land (N_of_ascii c) 31) (String.list_ascii_of_string prefix).

Fixpoint checksumLoop (n : nat) (checksum : N) (result : list N) : list N :=
  match n with
  | 0 => result
  | S n' => checksumLoop n' (N.shiftr checksum 5) (result ++ [N.land checksum 31])
  end.

Definition checksumToArray (checksum : N) : list N :=
  rev (checksumLoop 8 checksum []).

Definition validChecksum (prefix : string) (payload : list N) : bool :=
  (polymod ((prefixToArray prefix ++ [0%N]) ++ payload) =? 0)%N.

(** *** Regrouping bits

    The numbers of [convertBits] are integers; its bit operators work on
    their 32-bit two's-complement reading. *)

Definition ToInt32 (z : Z) : Z := ((z + 2 ^ 31) mod 2 ^ 32 - 2 ^ 31)%Z.

(** [a << k] *)
Definition shl (a k : Z) : Z := ToInt32 (Z.shiftl (ToInt32 a) (Z.land k 31)).

(** [a >> k] *)
Definition sar (a k : Z) : Z := Z.shiftr (ToInt32 a) (Z.land k 31).

(** [a | b] *)
Definition bor (a b : Z) : Z := Z.lor (ToInt32 a) (ToInt32 b).

(** [a & b] *)
Definition band (a b : Z) : Z := Z.land (ToInt32 a) (ToInt32 b).

(** The inner [while (bits >= to)] loop; [fuel] bounds its rounds. *)
Fixpoint drain (fuel : nat) (to accumulator mask bits : Z) (result : list Z)
    : option (Z * list Z) :=
  match fuel with
  | 0 => None
  | S fuel' =>
      if (to <=? bits)%Z then
        let bits := (bits - to)%Z in
        drain fuel' to accumulator mask bits
              (result ++ [band (sar accumulator bits) mask])
      else Some (bits, result)
  end.

(** The [for] loop over [data].  The message of the exception holds
    [value] as the template literal prints a safe integer (below 2^53 in
    magnitude): in decimal.  Larger numbers, which it prints rounded or in
    exponent form, are left to the callers to exclude. *)
Fixpoint convertLoop (fuel : nat) (data : list Z) (from to mask : Z)
    (accumulator bits : Z) (result : list Z) : completion (Z * Z * list Z) :=
  match data with
  | [] => Returns (accumulator, bits, result)
  | value :: rest =>
      if (value <? 0)%Z || negb (sar value from =? 0)%Z then
        Throws ("InvalidArgument in function convertBits: " ++ pretty value)%string
      else
        let accumulator := bor (shl accumulator from) value in
        let bits := (bits + from)%Z in
        match drain fuel to accumulator mask bits result with
        | None => Diverges
        | Some (bits, result) =>
            convertLoop fuel rest from to mask accumulator bits result
        end
  end.

(** [convertBits(data, from, to, strict)].  The arguments being integers,
    none of the [isNaN] and [null] tests that follow the loop can hold. *)
Definition convertBits (fuel : nat) (data : list Z) (from to : Z) (strict : bool)
    : completion (list Z) :=
  let mask := (shl 1 to - 1)%Z in
  match convertLoop fuel data from to mask 0 0 [] with
  | Returns (accumulator, bits, result) =>
      if negb strict then
        if (0 <? bits)%Z
        then Returns (result ++ [band (shl accumulator (to - bits)) mask])
        else Returns result
      else if (from <=? bits)%Z
              || negb (band (shl accumulator (to - bits)) mask =? 0)%Z
           then Throws "InvalidState: Conversion requires padding but strict mode was used"
           else Returns result
  | Throws msg => Throws msg
  | Diverges => Diverges
  end.

(** *** Encoding *)

Definition getTypeBits (type : cashaddrTypeEnum) : Z :=
  match type with
  | pubkeyhash => 0
  | scripthash => 8
  end.

Definition getHashSizeBits (hash : list Z) : completion Z :=
  let size := (Z.of_nat (length hash) * 8)%Z in
  if (size =? 160)%Z then Returns 0%Z
  else if (size =? 192)%Z then Returns 1%Z
  else if (size =? 224)%Z then Returns 2%Z
  else if (size =? 256)%Z then Returns 3%Z
  else if (size =? 320)%Z then Returns 4%Z
  else if (size =? 384)%Z then Returns 5%Z
  else if (size =? 448)%Z then Returns 6%Z
  else if (size =? 512)%Z then Returns 7%Z
  else Throws ("Invalid hash size:" ++ pretty (length hash))%string.

(** [hashToCashAddress], from the bytes of [Buffer.from(scriptHash, 'hex')]
    on.  [encode] is the base-32 encoder of the module [base32]. *)
Definition hashToCashAddress (encode : list Z → string) (fuel : nat)
    (hashBuffer : list Z) (type : cashaddrTypeEnum) (prefix : cashaddrPrefixEnum)
    : completion string :=
  let eight0 := [0; 0; 0; 0; 0; 0; 0; 0]%N in
  let prefixData := prefixToArray (prefixString prefix) ++ [0%N] in
  match getHashSizeBits hashBuffer with
  | Returns sizeBits =>
      let versionByte := (getTypeBits type + sizeBits)%Z in
      match convertBits fuel (versionByte :: hashBuffer) 8 5 false with
      | Returns payloadData =>
          let checksumData := (prefixData ++ map Z.to_N payloadData) ++ eight0 in
          let payload :=
            payloadData ++ map Z.of_N (checksumToArray (polymod checksumData)) in
          Returns (prefixString prefix ++ ":" ++ encode payload)%string
      | Throws msg => Throws msg
      | Diverges => Diverges
      end
  | Throws msg => Throws msg
  | Diverges => Diverges
  end.

(** *** Decoding *)

Definition getHashSize (versionByte : Z) : Z :=
  match band versionByte 7 with
  | 0 => 160
  | 1 => 192
  | 2 => 224
  | 3 => 256
  | 4 => 320
  | 5 => 384
  | 6 => 448
  | 7 => 512
  | _ => 0
  end%Z.

Definition getType (versionByte : Z) : completion cashaddrTypeEnum :=
  match band versionByte 120 with
  | 0%Z => Returns pubkeyhash
  | 8%Z => Returns scripthash
  | _ => Throws ("Invalid address type in version byte: " ++ pretty versionByte)%string
  end.

(** [toLowerCase] and [toUpperCase] on ASCII strings. *)
Definition lowerAscii (c : ascii) : ascii :=
  let n := nat_of_ascii c in
  if (65 <=? n) && (n <=? 90) then ascii_of_nat (n + 32) else c.

Definition upperAscii (c : ascii) : ascii :=
  let n := nat_of_ascii c in
  if (97 <=? n) && (n <=? 122) then ascii_of_nat (n - 32) else c.

Fixpoint mapString (f : ascii → ascii) (s : string) : string :=
  match s with
  | EmptyString => EmptyString
  | String c rest => String (f c) (mapString f rest)
  end.

Definition toLowerCase : string → string := mapString lowerAscii.

Definition toUpperCase : string → string := mapString upperAscii.

Definition hasSingleCase (s : string) : bool :=
  bool_decide (s = toLowerCase s) || bool_decide (s = toUpperCase s).

(** [s.split(sep)] for a one-character separator. *)
Fixpoint split (sep : ascii) (s : string) : list string :=
  match s with
  | EmptyString => [EmptyString]
  | String c rest =>
      if decide (c = sep) then EmptyString :: split sep rest
      else match split sep rest with
           | piece :: pieces => String c piece :: pieces
           | [] => [String c EmptyString]
           end
  end.

Record BitcoinCashScriptHash := mkScriptHash {
  scriptHash : list Z;
  type_ : cashaddrTypeEnum
}.

(** The end of [cashAddressToHash], from [convertBits] on, which runs once
    the checksum of [payload] has been accepted. *)
Definition payloadToHash (fuel : nat) (address_ : string) (payload : list Z)
    : completion BitcoinCashScriptHash :=
  match convertBits fuel (take (length payload - 8) payload) 5 8 true with
  | Returns convertedBits =>
      match convertedBits with
      | [] => Throws "cashaddress converter produced bad version byte"
      | versionByte :: hash =>
          if negb (getHashSize versionByte =? Z.of_nat (length hash) * 8)%Z then
            Throws ("InvalidArgument: " ++ address_ ++ " has invalid hash size")%string
          else
            match getType versionByte with
            | Returns type =>
                Returns (mkScriptHash (map (λ b, Z.land b 255) hash) type)
            | Throws msg => Throws msg
            | Diverges => Diverges
            end
      end
  | Throws msg => Throws msg
  | Diverges => Diverges
  end.

(** [cashAddressToHash]; [decode] is the base-32 decoder of the module
    [base32]. *)
Definition cashAddressToHash (decode : string → completion (list Z)) (fuel : nat)
    (address_ : string) : completion BitcoinCashScriptHash :=
  if negb (hasSingleCase address_) then
    Throws ("InvalidArgument: " ++ address_ ++ " has Mixed case")%string
  else
  let address_ := toLowerCase address_ in
  let pieces := split ":"%char address_ in
  let badChecksum : completion BitcoinCashScriptHash :=
    Throws ("InvalidArgument: " ++ address_ ++ " has invalid checksum")%string in
  match pieces with
  | [prefix; encodedPayload] =>
      match decode (toLowerCase encodedPayload) with
      | Returns payload =>
          if negb (validChecksum prefix (map Z.to_N payload)) then badChecksum
          else payloadToHash fuel address_ payload
      | Throws msg => Throws msg
      | Diverges => Diverges
      end
  | [encodedPayload] =>
      match decode (toLowerCase encodedPayload) with
      | Returns payload =>
          match List.find (λ p, validChecksum p (map Z.to_N payload))
                          [prefixString mainnet; prefixString testnet] with
          | Some _ => payloadToHash fuel address_ payload
          | None => badChecksum
          end
      | Throws msg => Throws msg
      | Diverges => Diverges
      end
  | _ => Throws ("InvalidArgument: " ++ address_ ++ " has invalid format")%string
  end.

End CashAddress.

(* ===================================================================== *)
(** * Part II: properties                                                 *)
(* ===================================================================== *)

(** ** The address count of a partition *)

Definition countBound (m : gmap AddressPath string) (fmt : CurrencyFormat)
    (ch n : nat) : Prop :=
  (∀ i, is_Some (m !! mkPath fmt ch i) → i < n) ∧
  (n = 0 ∨ is_Some (m !! mkPath fmt ch (n - 1))).

Lemma countBound_unique m fmt ch n1 n2 :
  countBound m fmt ch n1 → countBound m fmt ch n2 → n1 = n2.
Proof.
  intros [U1 L1] [U2 L2].
  destruct L1 as [->|H1], L2 as [->|H2]; try done.
  - apply U1 in H2. lia.
  - apply U2 in H1. lia.
  - apply U2 in H1. apply U1 in H2. lia.
Qed.

Lemma addressCount_bound p fmt ch :
  countBound (scriptPubkeyByPath p) fmt ch (addressCount p fmt ch).
Proof.
  unfold addressCount.
  apply (map_fold_weak_ind (λ n m, countBound m fmt ch n)).
  - split; [|by left]. intros i [x Hx]. by rewrite lookup_empty in Hx.
  - intros k x m r Hk [U L]. case_decide as Hd.
    + destruct k as [f c j]; simpl in *. destruct Hd as [-> ->].
      split.
      * intros i Hi. destruct (decide (i = j)) as [->|Hne]; [lia|].
        rewrite lookup_insert_ne in Hi by congruence.
        apply U in Hi. lia.
      * right. destruct (decide (S j <= r)) as [Hle|Hgt].
        -- replace (S j `max` r) with r by lia.
           destruct L as [->|L]; [lia|].
           destruct (decide (mkPath fmt ch j = mkPath fmt ch (r - 1))) as [He|Hne].
           ++ rewrite <- He, lookup_insert_eq. eauto.
           ++ by rewrite lookup_insert_ne.
        -- replace (S j `max` r - 1) with j by lia.
           rewrite lookup_insert_eq. eauto.
    + split.
      * intros i Hi. apply U.
        rewrite lookup_insert_ne in Hi; [done|].
        intros ->. apply Hd. done.
      * destruct L as [->|L]; [by left|right].
        rewrite lookup_insert_ne; [done|].
        intros ->. apply Hd. done.
Qed.

Lemma addressCount_lookup_lt p fmt ch i sp :
  scriptPubkeyByPath p !! mkPath fmt ch i = Some sp → i < addressCount p fmt ch.
Proof. intros H. apply addressCount_bound. eauto. Qed.

Lemma addressCount_lookup_ge p fmt ch i :
  addressCount p fmt ch ≤ i → scriptPubkeyByPath p !! mkPath fmt ch i = None.
Proof.
  intros H. destruct (scriptPubkeyByPath p !! mkPath fmt ch i) eqn:E; [|done].
  apply addressCount_lookup_lt in E. lia.
Qed.

Lemma addressCount_eq p fmt ch n :
  countBound (scriptPubkeyByPath p) fmt ch n → addressCount p fmt ch = n.
Proof. intros H. eapply countBound_unique; [apply addressCount_bound|done]. Qed.

Lemma addressCount_saveAddress_next p a fmt ch i :
  path a = Some (mkPath fmt ch i) → addressCount p fmt ch ≤ i →
  addressCount (saveAddress_store a p) fmt ch = S i.
Proof.
  intros Hp Hle. apply addressCount_eq. unfold saveAddress_store; simpl. rewrite Hp.
  split.
  - intros j Hj. destruct (decide (j = i)) as [->|Hne]; [lia|].
    rewrite lookup_insert_ne in Hj by congruence.
    destruct Hj as [x Hx]. apply addressCount_lookup_lt in Hx. lia.
  - right. replace (S i - 1) with i by lia. rewrite lookup_insert_eq. eauto.
Qed.

Lemma addressCount_saveAddress_other p a pth fmt ch :
  path a = Some pth → (format pth, changeIndex pth) ≠ (fmt, ch) →
  addressCount (saveAddress_store a p) fmt ch = addressCount p fmt ch.
Proof.
  intros Hp Hne. apply addressCount_eq. unfold saveAddress_store; simpl. rewrite Hp.
  destruct (addressCount_bound p fmt ch) as [U L].
  assert (∀ j, pth ≠ mkPath fmt ch j) as Hd.
  { intros j ->. by apply Hne. }
  split.
  - intros j Hj. rewrite lookup_insert_ne in Hj by apply Hd. by apply U.
  - destruct L as [L|L]; [by left|right]. by rewrite lookup_insert_ne by apply Hd.
Qed.

(** ** Running monadic code *)

Lemma bind_Ok {A B} (m : M A) (k : A → M B) w a w1 :
  m w = Ok a w1 → bind m k w = k a w1.
Proof. unfold bind. by intros ->. Qed.

Lemma bind_Throw {A B} (m : M A) (k : A → M B) w e w1 :
  m w = Throw e w1 → bind m k w = Throw e w1.
Proof. unfold bind. by intros ->. Qed.

Lemma bind_inv_Ok {A B} (m : M A) (k : A → M B) w b w' :
  bind m k w = Ok b w' → ∃ a w1, m w = Ok a w1 ∧ k a w1 = Ok b w'.
Proof. unfold bind. destruct (m w) as [a w1|e w1|]; [eauto|done|done]. Qed.

Lemma tick_tick a b w : tick a (tick b w) = tick (a + b) w.
Proof. unfold tick; simpl. f_equal. lia. Qed.

Lemma tick_0 w : tick 0 w = w.
Proof. by destruct w. Qed.

(** ** Reading one address record by path *)

Definition addressDataAt (p : Processor) (pth : AddressPath) : IAddress + string :=
  match scriptPubkeyByPath p !! pth with
  | None => inr "Address path unknown"
  | Some sp =>
      match addressByScriptPubkey p !! sp with
      | None => inr "Address data unknown"
      | Some a => inl a
      end
  end.

Definition probeCost (p : Processor) (pth : AddressPath) : nat :=
  match scriptPubkeyByPath p !! pth with None => 0 | Some _ => 1 end.

Lemma fetchAddressDataByPath_run pth w :
  fetchAddressDataByPath pth w =
  match addressDataAt (processor w) pth with
  | inl a => Ok a (tick 1 w)
  | inr e => Throw e (tick (probeCost (processor w) pth) w)
  end.
Proof.
  unfold fetchAddressDataByPath, addressDataAt, probeCost, bind,
    fetchScriptPubkeyByPath, fetchAddressByScriptPubkey.
  destruct (scriptPubkeyByPath (processor w) !! pth) as [sp|]; simpl.
  - by destruct (addressByScriptPubkey (processor w) !! sp).
  - by rewrite tick_0.
Qed.

(** Two stores agree on a branch when they hold the same count and the
    same records along it. *)
Definition agreeOn (p1 p2 : Processor) (fmt : CurrencyFormat) (ch : nat) : Prop :=
  addressCount p1 fmt ch = addressCount p2 fmt ch ∧
  ∀ i, addressDataAt p1 (mkPath fmt ch i) = addressDataAt p2 (mkPath fmt ch i).

Lemma agreeOn_refl p fmt ch : agreeOn p p fmt ch.
Proof. by split. Qed.

Lemma agreeOn_trans p1 p2 p3 fmt ch :
  agreeOn p1 p2 fmt ch → agreeOn p2 p3 fmt ch → agreeOn p1 p3 fmt ch.
Proof. intros [? H1] [? H2]. split; [congruence|]. intros i. by rewrite H1. Qed.

(** [findFreshIndex] only reads: it leaves the world as it found it, up
    to the probe counter. *)
Lemma findFreshIndex_reads fuel : ∀ pth w w',
  finalWorld (findFreshIndex fuel pth w) = Some w' → ∃ k, w' = tick k w.
Proof.
  induction fuel as [|fuel IH]; intros pth w w'; simpl; [done|].
  unfold bind, fetchAddressCountFromPathPartition; simpl.
  destruct (_ <=? _).
  { intros [= <-]. exists 0. by rewrite tick_0. }
  rewrite fetchAddressDataByPath_run.
  destruct (addressDataAt (processor w) pth) as [a|e]; simpl; [|intros [= <-]; eauto].
  destruct (negb (used a) && (0 <? addressIndex pth)).
  - rewrite fetchAddressDataByPath_run; simpl.
    destruct (addressDataAt (processor w) _) as [a'|e']; simpl.
    + destruct (used a'); simpl; [intros [= <-]; rewrite tick_tick; eauto|].
      destruct (1 <? addressIndex pth); simpl.
      * intros H. apply IH in H as [k ->]. rewrite !tick_tick. eauto.
      * intros [= <-]. rewrite tick_tick; eauto.
    + intros [= <-]. rewrite tick_tick; eauto.
  - destruct (used a); simpl.
    + intros H. apply IH in H as [k ->]. rewrite !tick_tick. eauto.
    + intros [= <-]. eauto.
Qed.

(** Its outcome is a function of the branch alone. *)
Lemma findFreshIndex_agree fuel : ∀ pth w1 w2,
  agreeOn (processor w1) (processor w2) (format pth) (changeIndex pth) →
  outcome (findFreshIndex fuel pth w1) = outcome (findFreshIndex fuel pth w2).
Proof.
  induction fuel as [|fuel IH]; intros pth w1 w2 [Hc Hd]; simpl; [done|].
  unfold bind, fetchAddressCountFromPathPartition; simpl.
  rewrite Hc. destruct (_ <=? _); [done|].
  rewrite !fetchAddressDataByPath_run.
  assert (∀ i, addressDataAt (processor w1) (withIndex pth i)
             = addressDataAt (processor w2) (withIndex pth i)) as Hd' by (intros; apply Hd).
  assert (addressDataAt (processor w1) pth = addressDataAt (processor w2) pth) as ->
    by (destruct pth; apply Hd).
  destruct (addressDataAt (processor w2) _) as [a|e]; simpl; [|done].
  destruct (negb (used a) && (0 <? addressIndex pth)).
  - rewrite !fetchAddressDataByPath_run; simpl. rewrite Hd'.
    destruct (addressDataAt (processor w2) _) as [a'|e']; simpl; [|done].
    destruct (used a'); simpl; [done|].
    destruct (1 <? addressIndex pth); simpl; [|done].
    apply IH. by split.
  - destruct (used a); simpl; [|done]. apply IH. by split.
Qed.

Lemma getFreshIndex_reads fuel cfg fmt ch find w w' :
  finalWorld (getFreshIndex fuel cfg fmt ch find w) = Some w' → ∃ k, w' = tick k w.
Proof.
  unfold getFreshIndex, bind, fetchAddressCountFromPathPartition; simpl.
  destruct (_ <? _)%Z; simpl.
  { intros [= <-]. exists 0. by rewrite tick_0. }
  destruct find; simpl.
  - apply findFreshIndex_reads.
  - intros [= <-]. exists 0. by rewrite tick_0.
Qed.

Lemma getFreshIndex_agree fuel cfg fmt ch find w1 w2 :
  agreeOn (processor w1) (processor w2) fmt ch →
  outcome (getFreshIndex fuel cfg fmt ch find w1)
  = outcome (getFreshIndex fuel cfg fmt ch find w2).
Proof.
  intros Ha. unfold getFreshIndex, bind, fetchAddressCountFromPathPartition; simpl.
  rewrite (proj1 Ha).
  destruct (_ <? _)%Z; simpl; [done|].
  destruct find; simpl; [|done].
  by apply findFreshIndex_agree.
Qed.

(** ** Scanning a branch whose records are all present *)

(** The branch [(fmt, ch)] holds address records at exactly the indices
    [0 .. N-1]. *)
Definition branchHolds (p : Processor) (fmt : CurrencyFormat) (ch N : nat) : Prop :=
  addressCount p fmt ch = N ∧
  ∀ i, i < N → ∃ a, addressDataAt p (mkPath fmt ch i) = inl a.

Definition usedAt (p : Processor) (fmt : CurrencyFormat) (ch i : nat) : bool :=
  match addressDataAt p (mkPath fmt ch i) with
  | inl a => used a
  | inr _ => false
  end.

Section BranchScan.

Context (p : Processor) (fmt : CurrencyFormat) (ch N : nat).
Hypothesis Hbranch : branchHolds p fmt ch N.

Lemma scan_beyond fuel i w :
  processor w = p → N ≤ i →
  findFreshIndex (S fuel) (mkPath fmt ch i) w = Ok i w.
Proof using Hbranch.
  intros Hw Hi. simpl. unfold bind, fetchAddressCountFromPathPartition; simpl.
  rewrite Hw, (proj1 Hbranch).
  by destruct (Nat.leb_spec N i); [|lia].
Qed.

Lemma scan_used fuel i w :
  processor w = p → i < N → usedAt p fmt ch i = true →
  findFreshIndex (S fuel) (mkPath fmt ch i) w
  = findFreshIndex fuel (mkPath fmt ch (i + 1)) (tick 1 w).
Proof using Hbranch.
  intros Hw Hi Hu. simpl. unfold bind, fetchAddressCountFromPathPartition; simpl.
  rewrite Hw, (proj1 Hbranch).
  destruct (Nat.leb_spec N i); [lia|].
  rewrite fetchAddressDataByPath_run, Hw. unfold usedAt in Hu.
  destruct (addressDataAt p (mkPath fmt ch i)) as [a|]; [|done]; simpl.
  by rewrite Hu.
Qed.

Lemma scan_stop_zero fuel w :
  processor w = p → 0 < N → usedAt p fmt ch 0 = false →
  findFreshIndex (S fuel) (mkPath fmt ch 0) w = Ok 0 (tick 1 w).
Proof using Hbranch.
  intros Hw Hi Hu. simpl. unfold bind, fetchAddressCountFromPathPartition; simpl.
  rewrite Hw, (proj1 Hbranch).
  destruct (Nat.leb_spec N 0); [lia|].
  rewrite fetchAddressDataByPath_run, Hw. unfold usedAt in Hu.
  destruct (proj2 Hbranch 0 Hi) as [a Ha]. rewrite Ha in Hu |- *; simpl.
  by rewrite Hu.
Qed.

Lemma scan_stop fuel i w :
  processor w = p → 0 < i → i < N →
  usedAt p fmt ch i = false → usedAt p fmt ch (i - 1) = true →
  findFreshIndex (S fuel) (mkPath fmt ch i) w = Ok i (tick 2 w).
Proof using Hbranch.
  intros Hw H0 Hi Hu Hprev. simpl. unfold bind, fetchAddressCountFromPathPartition; simpl.
  rewrite Hw, (proj1 Hbranch).
  destruct (Nat.leb_spec N i); [lia|].
  rewrite fetchAddressDataByPath_run, Hw. unfold usedAt in Hu, Hprev.
  destruct (proj2 Hbranch i Hi) as [a Ha]. rewrite Ha in Hu |- *; simpl.
  rewrite Hu; simpl. destruct (Nat.ltb_spec 0 i); [|lia].
  rewrite fetchAddressDataByPath_run; simpl. rewrite Hw. unfold withIndex; simpl.
  destruct (addressDataAt p (mkPath fmt ch (i - 1))) as [a'|]; [|done]; simpl.
  rewrite Hprev. by rewrite tick_tick.
Qed.

(** Index 1 with both records 0 and 1 unused: the scan stays at 1. *)
Lemma scan_stop_one fuel w :
  processor w = p → 1 < N →
  usedAt p fmt ch 1 = false → usedAt p fmt ch 0 = false →
  findFreshIndex (S fuel) (mkPath fmt ch 1) w = Ok 1 (tick 2 w).
Proof using Hbranch.
  intros Hw Hi Hu Hprev. simpl. unfold bind, fetchAddressCountFromPathPartition; simpl.
  rewrite Hw, (proj1 Hbranch).
  destruct (Nat.leb_spec N 1); [lia|].
  rewrite fetchAddressDataByPath_run, Hw. unfold usedAt in Hu, Hprev.
  destruct (proj2 Hbranch 1 Hi) as [a Ha]. rewrite Ha in Hu |- *; simpl.
  rewrite Hu; simpl.
  rewrite fetchAddressDataByPath_run; simpl. rewrite Hw. unfold withIndex; simpl.
  destruct (proj2 Hbranch 0 ltac:(lia)) as [a' Ha']. rewrite Ha' in Hprev |- *; simpl.
  rewrite Hprev. by rewrite tick_tick.
Qed.

Lemma scan_back fuel i w :
  processor w = p → 1 < i → i < N →
  usedAt p fmt ch i = false → usedAt p fmt ch (i - 1) = false →
  findFreshIndex (S fuel) (mkPath fmt ch i) w
  = findFreshIndex fuel (mkPath fmt ch (i - 2)) (tick 2 w).
Proof using Hbranch.
  intros Hw H1 Hi Hu Hprev. simpl. unfold bind, fetchAddressCountFromPathPartition; simpl.
  rewrite Hw, (proj1 Hbranch).
  destruct (Nat.leb_spec N i); [lia|].
  rewrite fetchAddressDataByPath_run, Hw. unfold usedAt in Hu, Hprev.
  destruct (proj2 Hbranch i Hi) as [a Ha]. rewrite Ha in Hu |- *; simpl.
  rewrite Hu; simpl. destruct (Nat.ltb_spec 0 i); [|lia].
  rewrite fetchAddressDataByPath_run; simpl. rewrite Hw. unfold withIndex; simpl.
  destruct (proj2 Hbranch (i - 1) ltac:(lia)) as [a' Ha']. rewrite Ha' in Hprev |- *; simpl.
  rewrite Hprev. destruct (Nat.ltb_spec 1 i); [|lia].
  by rewrite tick_tick.
Qed.

(** What a finished scan promises about the index [r] it returns. *)
Definition boundary (r : nat) : Prop :=
  r ≤ N ∧ (r < N → usedAt p fmt ch r = false).

(** Forward phase: from a used record the scan walks up to the first
    unused one, or to the end of the branch. *)
Lemma scan_forward : ∀ d i w fuel,
  processor w = p → i + d = N →
  (d = 0 ∨ usedAt p fmt ch i = true
   ∨ (0 < i ∧ usedAt p fmt ch i = false ∧ usedAt p fmt ch (i - 1) = true)) →
  d < fuel →
  ∃ r k, findFreshIndex fuel (mkPath fmt ch i) w = Ok r (tick k w)
         ∧ k ≤ d + 1 ∧ i ≤ r ∧ boundary r
         ∧ (d = 0 ∨ usedAt p fmt ch (r - 1) = true).
Proof using Hbranch.
  induction d as [|d IH]; intros i w fuel Hw Hd Hcase Hfuel;
    (destruct fuel as [|fuel]; [lia|]).
  - exists i, 0. rewrite scan_beyond, tick_0 by (done || lia).
    repeat split; first [lia | by left].
  - destruct Hcase as [?|[Hu|(H0 & Hu & Hprev)]]; [lia| |].
    + rewrite scan_used by (done || lia).
      destruct (IH (i + 1) (tick 1 w) fuel) as (r & k & Hrun & Hk & Hr & Hb & Hp);
        [done|lia| |lia|].
      { destruct d as [|d]; [by left|right].
        destruct (usedAt p fmt ch (i + 1)) eqn:E; [by left|right].
        replace (i + 1 - 1) with i by lia. split; [lia|done]. }
      exists r, (k + 1). rewrite Hrun, tick_tick.
      repeat split; try lia; try apply Hb. right.
      destruct Hp as [->|Hp]; [|done].
      assert (r = N) as -> by (destruct Hb; lia).
      replace (N - 1) with i by lia. done.
    + exists i, 2. rewrite scan_stop by (done || lia).
      repeat split; try lia; try done. by right.
Qed.

(** Backward phase: from an unused record the scan steps down two at a
    time until it meets a used record or the bottom of the branch. *)
Lemma scan_backward : ∀ i w fuel,
  processor w = p → i < N → usedAt p fmt ch i = false → i + 2 < fuel →
  ∃ r k, findFreshIndex fuel (mkPath fmt ch i) w = Ok r (tick k w)
         ∧ k ≤ i + 3 ∧ r ≤ i ∧ usedAt p fmt ch r = false
         ∧ (2 ≤ r → usedAt p fmt ch (r - 1) = true).
Proof using Hbranch.
  induction i as [i IH] using lt_wf_ind; intros w fuel Hw Hi Hu Hfuel.
  destruct fuel as [|fuel]; [lia|].
  destruct (decide (i = 0)) as [->|H0].
  { exists 0, 1. rewrite scan_stop_zero by (done || lia). repeat split; try lia. done. }
  destruct (usedAt p fmt ch (i - 1)) eqn:Hprev.
  { exists i, 2. rewrite scan_stop by (done || lia). repeat split; try lia; done. }
  destruct (decide (i = 1)) as [->|H1].
  { exists 1, 2. rewrite scan_stop_one by (done || lia). repeat split; try lia. done. }
  rewrite scan_back by (done || lia).
  destruct (usedAt p fmt ch (i - 2)) eqn:Hpp.
  - destruct fuel as [|fuel]; [lia|].
    rewrite scan_used by (done || lia).
    destruct fuel as [|fuel]; [lia|].
    replace (i - 2 + 1) with (i - 1) by lia.
    rewrite scan_stop; [|done|lia|lia|done|by replace (i - 1 - 1) with (i - 2) by lia].
    exists (i - 1), 5. rewrite !tick_tick.
    repeat split; try lia; try done.
    intros _. by replace (i - 1 - 1) with (i - 2) by lia.
  - destruct (IH (i - 2) ltac:(lia) (tick 2 w) fuel) as (r & k & Hrun & Hk & Hr & Hur & Hp);
      [done|lia|done|lia|].
    exists r, (k + 2). rewrite Hrun, tick_tick.
    repeat split; try lia; done.
Qed.

(** Any scan of a complete branch ends, after at most [N + 2] record
    reads. *)
Lemma scan_total i w fuel :
  processor w = p → N + 2 ≤ fuel →
  ∃ r k, findFreshIndex fuel (mkPath fmt ch i) w = Ok r (tick k w)
         ∧ k ≤ N + 2
         ∧ (i < N → boundary r ∧ (2 ≤ r → usedAt p fmt ch (r - 1) = true)).
Proof using Hbranch.
  intros Hw Hfuel.
  destruct (decide (N ≤ i)) as [Hge|Hlt].
  { destruct fuel as [|fuel]; [lia|].
    exists i, 0. rewrite scan_beyond, tick_0 by done. repeat split; lia. }
  destruct (usedAt p fmt ch i) eqn:Hu.
  - destruct (scan_forward (N - i) i w fuel) as (r & k & Hrun & Hk & Hr & Hb & Hp);
      [done|lia|by right; left|lia|].
    exists r, k. split; [done|]. split; [lia|]. intros _. split; [done|].
    intros _. destruct Hp as [?|Hp]; [lia|done].
  - destruct (scan_backward i w fuel) as (r & k & Hrun & Hk & Hr & Hur & Hp);
      [done|lia|done|lia|].
    exists r, k. split; [done|]. split; [lia|]. intros _.
    split; [|done]. split; [lia|done].
Qed.

End BranchScan.

(** ** The sample branch *)

Definition sampleFlags : list bool := [true; false; true; false].

Lemma sampleStore_branchHolds :
  branchHolds (sampleStore bip84 0 sampleFlags) bip84 0 4.
Proof.
  split; [by vm_compute|].
  intros [|[|[|[|i]]]] Hi; [eexists; vm_compute; reflexivity ..|lia].
Qed.

(** ** Fresh index: termination and cost *)

(** C8: on a branch that holds address records at the contiguous indices
    [0, N), [findFreshIndex] started at any index returns (here: with any
    fuel of at least [N + 2] calls), leaves the store as it was, and reads
    at most [N + 2] address records. *)
Theorem findFreshIndex_terminates fmt ch N i w fuel :
  branchHolds (processor w) fmt ch N → N + 2 ≤ fuel →
  ∃ r w', findFreshIndex fuel (mkPath fmt ch i) w = Ok r w'
          ∧ processor w' = processor w
          ∧ probes w' ≤ probes w + (N + 2).
Proof.
  intros Hb Hfuel.
  destruct (scan_total (processor w) fmt ch N Hb i w fuel) as (r & k & Hrun & Hk & _);
    [done|done|].
  exists r, (tick k w). split; [done|]. split; [done|]. simpl. lia.
Qed.

Lemma findFreshIndex_terminates_witness :
  ∃ r w', findFreshIndex 6 (mkPath bip84 0 3) (worldOf (sampleStore bip84 0 sampleFlags))
          = Ok r w'
          ∧ processor w' = sampleStore bip84 0 sampleFlags
          ∧ probes w' ≤ 0 + (4 + 2).
Proof.
  apply (findFreshIndex_terminates bip84 0 4 3
           (worldOf (sampleStore bip84 0 sampleFlags)) 6).
  - exact sampleStore_branchHolds.
  - lia.
Defined.

(** ** Fresh index: what the scan returns *)

(** The reading of the contract: [j] lies in the trailing run of unused
    records of the branch. *)
Definition inTrailingUnusedRun (p : Processor) (fmt : CurrencyFormat)
    (ch N j : nat) : Prop :=
  j < N ∧ ∀ k, j ≤ k → k < N → usedAt p fmt ch k = false.

(** [r] has an unused record and every lower index is used or in the
    trailing unused run. *)
Definition freshCandidate (p : Processor) (fmt : CurrencyFormat)
    (ch N r : nat) : Prop :=
  (∃ a, addressDataAt p (mkPath fmt ch r) = inl a ∧ used a = false) ∧
  ∀ j, j < r → usedAt p fmt ch j = true ∨ inTrailingUnusedRun p fmt ch N j.

Definition smallestFreshCandidate (p : Processor) (fmt : CurrencyFormat)
    (ch N r : nat) : Prop :=
  freshCandidate p fmt ch N r ∧ ∀ r', freshCandidate p fmt ch N r' → r ≤ r'.

(** The contract as the design document words it. *)
Definition freshIndexContract (fuel : nat) (cfg : EngineConfig)
    (fmt : CurrencyFormat) (ch N : nat) (w : World) : Prop :=
  branchHolds (processor w) fmt ch N →
  ∃ r w', getFreshIndex fuel cfg fmt ch true w = Ok r w'
          ∧ smallestFreshCandidate (processor w) fmt ch N r.

(** A branch of seven records of which 0, 2 and 4 are used. *)
Definition gappedFlags : list bool := [true; false; true; false; true; false; false].

Lemma gappedStore_branchHolds :
  branchHolds (sampleStore bip84 0 gappedFlags) bip84 0 7.
Proof.
  split; [by vm_compute|].
  intros [|[|[|[|[|[|[|i]]]]]]] Hi; [eexists; vm_compute; reflexivity ..|lia].
Qed.

(** With records 0, 2 and 4 used, seven records and a gap limit of 4, the
    scan starts at index 3 and stops there, its predecessor being used.
    Index 1 is unused and lower, and index 3 lies below the trailing run
    of unused records, which starts at 5. *)
Lemma freshIndexContract_fails :
  ¬ freshIndexContract 10 (sampleConfig 4 Segwit quietBlockBook) bip84 0 7
      (worldOf (sampleStore bip84 0 gappedFlags)).
Proof.
  intros H. destruct (H gappedStore_branchHolds) as (r & w' & Hrun & _ & Hmin).
  vm_compute in Hrun. injection Hrun as <- _.
  assert (3 ≤ 1); [|lia]. apply Hmin. split.
  - eexists. split; [vm_compute; reflexivity|done].
  - intros j Hj. assert (j = 0) as -> by lia. left. by vm_compute.
Qed.

Lemma getFreshIndex_scan fuel cfg fmt ch N w :
  branchHolds (processor w) fmt ch N → N + 2 ≤ fuel →
  ∃ r k, getFreshIndex fuel cfg fmt ch true w = Ok r (tick k w)
         ∧ r ≤ N
         ∧ (N < gapLimit (currencyInfo cfg) → r = 0)
         ∧ (gapLimit (currencyInfo cfg) ≤ N →
            (r < N → usedAt (processor w) fmt ch r = false)
            ∧ (0 < gapLimit (currencyInfo cfg) → 2 ≤ r →
               usedAt (processor w) fmt ch (r - 1) = true)).
Proof.
  intros Hb Hfuel.
  unfold getFreshIndex, bind, fetchAddressCountFromPathPartition; simpl.
  rewrite (proj1 Hb).
  set (g := gapLimit (currencyInfo cfg)).
  destruct (Z.ltb_spec (Z.of_nat N - Z.of_nat g) 0) as [Hneg|Hpos].
  { exists 0, 0. rewrite tick_0. repeat split; try lia. }
  replace (Z.to_nat (Z.of_nat N - Z.of_nat g)) with (N - g) by lia.
  destruct (scan_total (processor w) fmt ch N Hb (N - g) w fuel)
    as (r & k & Hrun & Hk & Hr); [done|done|].
  exists r, k. split; [done|].
  destruct (decide (g = 0)) as [Hg|Hg].
  - destruct fuel as [|fuel']; [lia|].
    rewrite (scan_beyond (processor w) fmt ch N Hb) in Hrun by (done || lia).
    injection Hrun as <- _. repeat split; lia.
  - destruct Hr as [[Hle Hu] Hp]; [lia|].
    repeat split; try lia; try done.
Qed.

(** C2, amended: on a branch that holds address records at the contiguous
    indices [0, N), [getFreshIndex] with [find = true] returns an index
    [r ≤ N].  It is 0 when [N < gapLimit].  Otherwise no record at [r] is
    used ([r = N] or the record at [r] is unused) and, for a positive gap
    limit and [r ≥ 2], the record at [r - 1] is used. *)
Theorem getFreshIndex_boundary fuel cfg fmt ch N w :
  branchHolds (processor w) fmt ch N → N + 2 ≤ fuel →
  ∃ r w', getFreshIndex fuel cfg fmt ch true w = Ok r w'
          ∧ processor w' = processor w
          ∧ r ≤ N
          ∧ (N < gapLimit (currencyInfo cfg) → r = 0)
          ∧ (gapLimit (currencyInfo cfg) ≤ N →
             (r < N → usedAt (processor w) fmt ch r = false)
             ∧ (0 < gapLimit (currencyInfo cfg) → 2 ≤ r →
                usedAt (processor w) fmt ch (r - 1) = true)).
Proof.
  intros Hb Hfuel.
  destruct (getFreshIndex_scan fuel cfg fmt ch N w Hb Hfuel) as (r & k & Hrun & H).
  exists r, (tick k w). split; [done|]. split; [done|]. exact H.
Qed.

Lemma getFreshIndex_boundary_witness :
  ∃ r w', getFreshIndex 6 (sampleConfig 2 Segwit quietBlockBook) bip84 0 true
            (worldOf (sampleStore bip84 0 sampleFlags)) = Ok r w'
          ∧ processor w' = sampleStore bip84 0 sampleFlags
          ∧ r ≤ 4
          ∧ (4 < 2 → r = 0)
          ∧ (2 ≤ 4 →
             (r < 4 → usedAt (sampleStore bip84 0 sampleFlags) bip84 0 r = false)
             ∧ (0 < 2 → 2 ≤ r →
                usedAt (sampleStore bip84 0 sampleFlags) bip84 0 (r - 1) = true)).
Proof.
  apply (getFreshIndex_boundary 6 (sampleConfig 2 Segwit quietBlockBook) bip84 0 4
           (worldOf (sampleStore bip84 0 sampleFlags))).
  - exact sampleStore_branchHolds.
  - lia.
Defined.

(** ** Fresh index: idempotence *)

Lemma getFreshIndex_idempotent_aux fuel cfg fmt ch find w w1 :
  finalWorld (getFreshIndex fuel cfg fmt ch find w) = Some w1 →
  processor w1 = processor w
  ∧ outcome (getFreshIndex fuel cfg fmt ch find w1)
    = outcome (getFreshIndex fuel cfg fmt ch find w).
Proof.
  intros H. apply getFreshIndex_reads in H as [k ->].
  split; [done|]. apply getFreshIndex_agree. apply agreeOn_refl.
Qed.

(** C7: [getFreshIndex] is idempotent.  A call leaves the store exactly
    as it found it, and a second call with the same format and change
    index, made right after the first, has the same outcome: the same
    index, or the same exception. *)
Theorem getFreshIndex_idempotent fuel cfg fmt ch find w w1 :
  finalWorld (getFreshIndex fuel cfg fmt ch find w) = Some w1 →
  processor w1 = processor w
  ∧ outcome (getFreshIndex fuel cfg fmt ch find w1)
    = outcome (getFreshIndex fuel cfg fmt ch find w).
Proof. apply getFreshIndex_idempotent_aux. Qed.

Lemma getFreshIndex_idempotent_witness :
  processor (tick 3 (worldOf (sampleStore bip84 0 sampleFlags)))
  = processor (worldOf (sampleStore bip84 0 sampleFlags))
  ∧ outcome (getFreshIndex 6 (sampleConfig 2 Segwit quietBlockBook) bip84 0 true
               (tick 3 (worldOf (sampleStore bip84 0 sampleFlags))))
    = outcome (getFreshIndex 6 (sampleConfig 2 Segwit quietBlockBook) bip84 0 true
                 (worldOf (sampleStore bip84 0 sampleFlags))).
Proof.
  apply (getFreshIndex_idempotent 6 (sampleConfig 2 Segwit quietBlockBook) bip84 0 true
           (worldOf (sampleStore bip84 0 sampleFlags))
           (tick 3 (worldOf (sampleStore bip84 0 sampleFlags)))).
  vm_compute. reflexivity.
Defined.

(** ** Fresh address of a native-Segwit wallet *)

(** The anchor [max(0, addressCount - gapLimit)] of a branch. *)
Definition anchorIndex (cfg : EngineConfig) (p : Processor)
    (fmt : CurrencyFormat) (ch : nat) : nat :=
  Z.to_nat (Z.max 0 (Z.of_nat (addressCount p fmt ch)
                     - Z.of_nat (gapLimit (currencyInfo cfg)))).

(** The [scriptPubkey] of a path: the stored one, else the derived one. *)
Definition scriptPubkeyAt (cfg : EngineConfig) (p : Processor) (pth : AddressPath) : string :=
  default (info_scriptPubkey (getScriptPubkey (walletTools cfg) pth))
          (scriptPubkeyByPath p !! pth).

(** The address of format [fmt] derived at the anchor of branch [ch]. *)
Definition anchorAddress (cfg : EngineConfig) (p : Processor)
    (fmt : CurrencyFormat) (ch : nat) : AddressInfo :=
  scriptPubkeyToAddress (walletTools cfg)
    (scriptPubkeyAt cfg p (mkPath fmt ch (anchorIndex cfg p fmt ch))) fmt.

Lemma getFreshIndex_anchor fuel cfg fmt ch w :
  getFreshIndex fuel cfg fmt ch false w = Ok (anchorIndex cfg (processor w) fmt ch) w.
Proof.
  unfold getFreshIndex, anchorIndex, bind, fetchAddressCountFromPathPartition; simpl.
  destruct (Z.ltb_spec (Z.of_nat (addressCount (processor w) fmt ch)
                        - Z.of_nat (gapLimit (currencyInfo cfg))) 0); unfold ret.
  - f_equal. lia.
  - f_equal. lia.
Qed.

Lemma getFreshAddress_anchor fuel cfg fmt ch w :
  scriptPubkeyAt cfg (processor w) (mkPath fmt ch (anchorIndex cfg (processor w) fmt ch)) ≠ "" →
  getFreshAddress fuel cfg fmt ch false w = Ok (anchorAddress cfg (processor w) fmt ch) w.
Proof.
  intros Hne. unfold getFreshAddress.
  rewrite (bind_Ok _ _ _ _ _ (getFreshIndex_anchor fuel cfg fmt ch w)).
  unfold bind, fetchScriptPubkeyByPath, anchorAddress, scriptPubkeyAt in *; simpl.
  destruct (scriptPubkeyByPath (processor w) !! _) as [sp|]; simpl in *;
    by case_decide.
Qed.

(** C6: for a wallet whose purpose type is native Segwit,
    [getFreshAddress] returns as [publicAddress] the address of the
    wrapped-segwit format and as [segwitAddress] the address of the
    native-segwit format, each derived on the requested branch at the
    anchor index [max(0, addressCount - gapLimit)] of its format, which
    [getFreshIndex] hands back without scanning ([find = false]); the
    store is not changed.  (A path whose [scriptPubkey] is the empty
    string makes the helper throw instead.) *)
Theorem getFreshAddress_segwit fuel cfg (change : bool) w :
  getPurposeTypeFromKeys (walletInfo cfg) = Segwit →
  let ch := if change then 1 else 0 in
  let wrapped := getCurrencyFormatFromPurposeType WrappedSegwit in
  let native := getCurrencyFormatFromPurposeType Segwit in
  scriptPubkeyAt cfg (processor w)
    (mkPath wrapped ch (anchorIndex cfg (processor w) wrapped ch)) ≠ "" →
  scriptPubkeyAt cfg (processor w)
    (mkPath native ch (anchorIndex cfg (processor w) native ch)) ≠ "" →
  UtxoEngineState_getFreshAddress fuel cfg change w
  = Ok (mkFreshAddress (address (anchorAddress cfg (processor w) wrapped ch))
                       (Some (address (anchorAddress cfg (processor w) native ch)))
                       None) w.
Proof.
  intros Hp ch wrapped native H1 H2.
  unfold UtxoEngineState_getFreshAddress. rewrite Hp.
  rewrite bool_decide_true by done. rewrite andb_true_r.
  destruct (decide (Segwit = Segwit)); [|done].
  fold ch wrapped native.
  rewrite (bind_Ok _ _ _ _ _ (getFreshAddress_anchor fuel cfg wrapped ch w H1)).
  by rewrite (bind_Ok _ _ _ _ _ (getFreshAddress_anchor fuel cfg native ch w H2)).
Qed.

Lemma getFreshAddress_segwit_witness :
  UtxoEngineState_getFreshAddress 0 (sampleConfig 2 Segwit quietBlockBook) true
    (worldOf (sampleStore bip84 1 sampleFlags))
  = Ok (mkFreshAddress "@c10" (Some "@d1011") None)
       (worldOf (sampleStore bip84 1 sampleFlags)).
Proof.
  apply (getFreshAddress_segwit 0 (sampleConfig 2 Segwit quietBlockBook) true
           (worldOf (sampleStore bip84 1 sampleFlags))).
  - reflexivity.
  - by vm_compute.
  - by vm_compute.
Defined.

(** ** Transaction history pages *)

(** The map one page leaves in [changeTxidMap], starting from [m0]. *)
Definition txidMapOf (txs : list ITransaction) (m0 : gmap string nat) : gmap string nat :=
  foldl (λ m tx, <[raw_txid tx := raw_blockTime tx]> m) m0 txs.

Lemma txidMapOf_sound txs : ∀ m0 t d,
  txidMapOf txs m0 !! t = Some d →
  m0 !! t = Some d ∨ ∃ tx, tx ∈ txs ∧ raw_txid tx = t ∧ raw_blockTime tx = d.
Proof.
  induction txs as [|tx txs IH]; intros m0 t d; simpl; [by left|].
  intros H. apply IH in H as [H|(tx' & Hin & Ht & Hd)].
  - destruct (decide (raw_txid tx = t)) as [<-|Hne].
    + rewrite lookup_insert_eq in H. injection H as <-.
      right. exists tx. split; [apply list_elem_of_here|done].
    + rewrite lookup_insert_ne in H by done. by left.
  - right. exists tx'. split; [by apply list_elem_of_further|done].
Qed.

Lemma txidMapOf_consistent txs : ∀ m0 t d,
  (∀ tx, tx ∈ txs → raw_txid tx = t → raw_blockTime tx = d) →
  m0 !! t = Some d ∨ (∃ tx, tx ∈ txs ∧ raw_txid tx = t) →
  txidMapOf txs m0 !! t = Some d.
Proof.
  induction txs as [|tx txs IH]; intros m0 t d Hall Hex; simpl.
  - destruct Hex as [H|(tx & Hin & _)]; [done|]. by apply elem_of_nil in Hin.
  - apply IH.
    + intros tx' Hin. apply Hall. by apply list_elem_of_further.
    + destruct (decide (raw_txid tx = t)) as [Heq|Hne].
      * left. rewrite <- Heq, lookup_insert_eq. f_equal.
        apply Hall; [apply list_elem_of_here|done].
      * rewrite lookup_insert_ne by done.
        destruct Hex as [H|(tx' & Hin & Ht)]; [by left|right].
        apply elem_of_cons in Hin as [->|Hin]; [done|]. eauto.
Qed.

Lemma txidMapOf_keys txs : ∀ m0 t,
  is_Some (m0 !! t) ∨ (∃ tx, tx ∈ txs ∧ raw_txid tx = t) →
  is_Some (txidMapOf txs m0 !! t).
Proof.
  induction txs as [|tx txs IH]; intros m0 t Hex; simpl.
  - destruct Hex as [H|(tx & Hin & _)]; [done|]. by apply elem_of_nil in Hin.
  - apply IH. destruct (decide (raw_txid tx = t)) as [Heq|Hne].
    + left. rewrite <- Heq, lookup_insert_eq. eauto.
    + rewrite lookup_insert_ne by done.
      destruct Hex as [H|(tx' & Hin & Ht)]; [by left|right].
      apply elem_of_cons in Hin as [->|Hin]; [done|]. eauto.
Qed.

Lemma saveTransactions_run cfg txs : ∀ m0 w,
  ∃ w1, saveTransactions cfg txs m0 w = Ok (txidMapOf txs m0) w1
        ∧ events w1 = events w
        ∧ addressByScriptPubkey (processor w1) = addressByScriptPubkey (processor w)
        ∧ scriptPubkeyByPath (processor w1) = scriptPubkeyByPath (processor w)
        ∧ utxoById (processor w1) = utxoById (processor w)
        ∧ addressesToWatch w1 = addressesToWatch w
        ∧ mutexQueue w1 = mutexQueue w.
Proof.
  induction txs as [|tx txs IH]; intros m0 w; simpl.
  - by exists w.
  - unfold bind, saveTransaction, modify; simpl.
    edestruct IH as (w1 & -> & H). exists w1. split; [done|]. exact H.
Qed.

(** C5: every page fetched by [processAddressTransactions] is followed by
    one [TXIDS_CHANGED] event exactly when the page lists at least one
    transaction, and by no event otherwise; the function then goes on to
    the next page or stops.  Every entry of the emitted map is the
    [txid] and date of a transaction of that page, every transaction of
    the page has its [txid] in the map, and it is there with its own date
    unless the page lists the same [txid] with another date. *)
Theorem processAddressTransactions_page fuel cfg addr page w resp :
  bb_fetchAddress (blockBook cfg) addr
    (Some (txPageOpts (addressByScriptPubkey (processor w)
                         !! addressToScriptPubkey (walletTools cfg) addr) page))
  = Some resp →
  let txs := default [] (resp_transactions resp) in
  ∃ w1 m,
    processAddressTransactions (S fuel) cfg addr page w
    = match resp_totalPages resp with
      | Some totalPages =>
          if page <? totalPages
          then processAddressTransactions fuel cfg addr (S page) w1
          else Ok tt w1
      | None => Ok tt w1
      end
    ∧ events w1 = ((if decide (txs = []) then [] else [Emit_TXIDS_CHANGED m]) ++ events w)%list
    ∧ (∀ t d, m !! t = Some d →
              ∃ tx, tx ∈ txs ∧ raw_txid tx = t ∧ raw_blockTime tx = d)
    ∧ (∀ tx, tx ∈ txs → is_Some (m !! raw_txid tx))
    ∧ (∀ tx, tx ∈ txs →
             (∀ tx', tx' ∈ txs → raw_txid tx' = raw_txid tx →
                     raw_blockTime tx' = raw_blockTime tx) →
             m !! raw_txid tx = Some (raw_blockTime tx)).
Proof.
  intros Hresp txs. simpl.
  unfold bind at 1. unfold fetchAddressByScriptPubkey at 1. simpl.
  rewrite Hresp. unfold bind at 1. simpl. fold txs.
  destruct (saveTransactions_run cfg txs ∅ (tick 1 w)) as (w1 & Hsave & Hev & _).
  set (w2 := if decide (txs = []) then w1
             else logEvent (Emit_TXIDS_CHANGED (txidMapOf txs ∅)) w1).
  exists w2, (txidMapOf txs ∅). split; [|split; [|split; [|split]]].
  - unfold bind at 1. rewrite Hsave. subst w2.
    destruct txs as [|tx txs']; simpl; unfold bind, ret, emit, modify; simpl;
      destruct (resp_totalPages resp) as [t|]; try done;
      by destruct (page <? t).
  - subst w2. destruct (decide (txs = [])); simpl; by rewrite Hev.
  - intros t d Hm. apply txidMapOf_sound in Hm as [Hm|Hm]; [|done].
    by rewrite lookup_empty in Hm.
  - intros tx Hin. apply txidMapOf_keys. right. eauto.
  - intros tx Hin Hcons. apply txidMapOf_consistent; [|right; eauto].
    intros tx' Hin' Heq. by apply Hcons.
Qed.

Lemma processAddressTransactions_page_witness :
  ∃ w1 m,
    processAddressTransactions 3 (sampleConfig 2 Segwit pageBlockBook) "@d0" 1 emptyWorld
    = Ok tt w1
    ∧ events w1 = [Emit_TXIDS_CHANGED m]
    ∧ m !! "aa" = Some 11 ∧ m !! "bb" = Some 22.
Proof.
  destruct (processAddressTransactions_page 2 (sampleConfig 2 Segwit pageBlockBook)
              "@d0" 1 emptyWorld
              (mkAddressResponse "0" "0" 2 0
                 (Some [sampleTx "aa" 11; sampleTx "bb" 22]) (Some 1)))
    as (w1 & m & Hrun & Hev & _ & _ & Hm).
  - reflexivity.
  - exists w1, m. split; [exact Hrun|]. split; [exact Hev|]. split.
    + apply (Hm (sampleTx "aa" 11)); [set_solver|].
      intros tx' Hin Heq.
      repeat (apply elem_of_cons in Hin as [->|Hin]);
        try (by apply elem_of_nil in Hin); simpl in *; congruence.
    + apply (Hm (sampleTx "bb" 22)); [set_solver|].
      intros tx' Hin Heq.
      repeat (apply elem_of_cons in Hin as [->|Hin]);
        try (by apply elem_of_nil in Hin); simpl in *; congruence.
Defined.

(** ** What a computation adds to the event log *)

(** [m] only ever pushes events satisfying [P] on the log. *)
Definition logsOnly {A} (P : Event → Prop) (m : M A) : Prop :=
  ∀ w w', finalWorld (m w) = Some w' →
          ∃ new, events w' = (new ++ events w)%list ∧ Forall P new.

Lemma logsOnly_ret {A} P (a : A) : logsOnly P (ret a).
Proof. intros w w' [= <-]. by exists []. Qed.

Lemma logsOnly_throw {A} P e : logsOnly P (@throw A e).
Proof. intros w w' [= <-]. by exists []. Qed.

Lemma logsOnly_outOfFuel {A} P : logsOnly P (@outOfFuel A).
Proof. by intros w w'. Qed.

Lemma logsOnly_silent {A} P (m : M A) :
  (∀ w w', finalWorld (m w) = Some w' → events w' = events w) → logsOnly P m.
Proof. intros H w w' Hw. exists []. split; [by apply H|done]. Qed.

Lemma logsOnly_modify P f :
  (∀ w, events (f w) = events w) → logsOnly P (modify f).
Proof. intros H. apply logsOnly_silent. intros w w' [= <-]. apply H. Qed.

Lemma logsOnly_emit (P : Event → Prop) e : P e → logsOnly P (emit e).
Proof. intros H w w' [= <-]. exists [e]. split; [done|]. by constructor. Qed.

Lemma logsOnly_bind {A B} P (m : M A) (k : A → M B) :
  logsOnly P m → (∀ a, logsOnly P (k a)) → logsOnly P (bind m k).
Proof.
  intros Hm Hk w w'. unfold bind.
  destruct (m w) as [a w1|e w1|] eqn:E; simpl.
  - intros H. apply Hk in H as (n2 & -> & H2).
    destruct (Hm w w1) as (n1 & -> & H1); [by rewrite E|].
    exists (n2 ++ n1). split; [by rewrite app_assoc|]. by apply Forall_app.
  - intros [= <-]. apply Hm. by rewrite E.
  - done.
Qed.

Lemma logsOnly_forEach {A} P (l : list A) (body : A → M unit) :
  (∀ x, logsOnly P (body x)) → logsOnly P (forEach l body).
Proof.
  intros H. induction l as [|x l IH]; simpl; [apply logsOnly_ret|].
  apply logsOnly_bind; [apply H|by intros _].
Qed.

Lemma logsOnly_awaitBlockBook {A} P (r : option A) : logsOnly P (awaitBlockBook r).
Proof. destruct r; [apply logsOnly_ret|apply logsOnly_throw]. Qed.

Lemma logsOnly_fetchAddressByScriptPubkey P sp :
  logsOnly P (fetchAddressByScriptPubkey sp).
Proof. apply logsOnly_silent. by intros w w' [= <-]. Qed.

Lemma logsOnly_fetchScriptPubkeyByPath P pth :
  logsOnly P (fetchScriptPubkeyByPath pth).
Proof. apply logsOnly_silent. by intros w w' [= <-]. Qed.

Lemma logsOnly_fetchAddressCount P fmt ch :
  logsOnly P (fetchAddressCountFromPathPartition fmt ch).
Proof. apply logsOnly_silent. by intros w w' [= <-]. Qed.

Lemma logsOnly_getFreshIndex P fuel cfg fmt ch find :
  logsOnly P (getFreshIndex fuel cfg fmt ch find).
Proof.
  apply logsOnly_silent. intros w w' H.
  by apply getFreshIndex_reads in H as [k ->].
Qed.

Lemma logsOnly_saveAddress P a : logsOnly P (saveAddress a).
Proof. by apply logsOnly_modify. Qed.

Lemma logsOnly_saveNewOrUpdate P cfg pth sp :
  logsOnly P (saveNewOrUpdateAddressPathIfNeeded cfg pth sp).
Proof.
  unfold saveNewOrUpdateAddressPathIfNeeded.
  apply logsOnly_bind.
  { destruct sp as [s|]; [case_decide|]; destruct pth;
      first [apply logsOnly_ret | apply logsOnly_throw]. }
  intros s. apply logsOnly_bind; [apply logsOnly_fetchAddressByScriptPubkey|].
  intros [a|].
  - destruct (path a); [apply logsOnly_ret|].
    apply logsOnly_bind; [apply logsOnly_saveAddress|intros; apply logsOnly_ret].
  - apply logsOnly_bind; [apply logsOnly_saveAddress|intros; apply logsOnly_ret].
Qed.

Lemma logsOnly_lookAheadLoop P n fuel cfg fmt branch pna : ∀ i freshIndex,
  logsOnly P (lookAheadLoop n fuel cfg fmt branch pna i freshIndex).
Proof.
  induction n as [|n IH]; intros i freshIndex; simpl; [apply logsOnly_outOfFuel|].
  destruct (_ <? _); [|apply logsOnly_ret].
  apply logsOnly_bind; [apply logsOnly_saveNewOrUpdate|]. intros isNew.
  apply logsOnly_bind.
  { destruct (isNew && pna); [|apply logsOnly_ret].
    apply logsOnly_bind; [apply logsOnly_fetchScriptPubkeyByPath|].
    intros [s|]; [by apply logsOnly_modify|apply logsOnly_throw]. }
  intros _. apply logsOnly_bind; [apply logsOnly_getFreshIndex|].
  intros f. apply IH.
Qed.

(** [setLookAhead] logs its own call and nothing else. *)
Lemma logsOnly_setLookAhead fuel cfg fmt pna :
  logsOnly (λ e, e = Call_setLookAhead fmt pna) (setLookAhead fuel cfg fmt pna).
Proof.
  unfold setLookAhead. apply logsOnly_bind; [by apply logsOnly_emit|].
  intros _. apply logsOnly_forEach. intros branch.
  apply logsOnly_bind; [apply logsOnly_getFreshIndex|]. intros f.
  apply logsOnly_bind; [apply logsOnly_fetchAddressCount|]. intros c.
  apply logsOnly_lookAheadLoop.
Qed.

Lemma logsOnly_saveTransactions P cfg txs : ∀ m0,
  logsOnly P (saveTransactions cfg txs m0).
Proof.
  induction txs as [|tx txs IH]; intros m0; simpl; [apply logsOnly_ret|].
  apply logsOnly_bind; [by apply logsOnly_modify|]. intros _. apply IH.
Qed.

Definition isTxidsChanged (e : Event) : Prop :=
  match e with Emit_TXIDS_CHANGED _ => True | _ => False end.

Lemma logsOnly_weaken {A} (P Q : Event → Prop) (m : M A) :
  (∀ e, P e → Q e) → logsOnly P m → logsOnly Q m.
Proof.
  intros HPQ H w w' Hw. destruct (H w w' Hw) as (new & ? & HF).
  exists new. split; [done|]. eapply Forall_impl; eauto.
Qed.

Lemma logsOnly_processAddressTransactions fuel cfg addr : ∀ page,
  logsOnly isTxidsChanged (processAddressTransactions fuel cfg addr page).
Proof.
  induction fuel as [|fuel IH]; intros page; simpl; [apply logsOnly_outOfFuel|].
  apply logsOnly_bind; [apply logsOnly_fetchAddressByScriptPubkey|]. intros a.
  apply logsOnly_bind; [apply logsOnly_awaitBlockBook|]. intros resp.
  apply logsOnly_bind; [apply logsOnly_saveTransactions|]. intros m.
  apply logsOnly_bind.
  { destruct (negb _); [by apply logsOnly_emit|apply logsOnly_ret]. }
  intros _. destruct (resp_totalPages resp) as [t|]; [|apply logsOnly_ret].
  destruct (page <? t); [apply IH|apply logsOnly_ret].
Qed.

Lemma logsOnly_fetchTransaction P cfg t : logsOnly P (fetchTransaction cfg t).
Proof.
  unfold fetchTransaction. apply logsOnly_bind.
  { apply logsOnly_silent. by intros w w' [= <-]. }
  intros [tx|]; [apply logsOnly_ret|].
  apply logsOnly_bind; [apply logsOnly_awaitBlockBook|intros; apply logsOnly_ret].
Qed.

Lemma logsOnly_reconcileUtxos P cfg pth sp accountUtxos : ∀ old,
  logsOnly P (reconcileUtxos cfg pth sp accountUtxos old).
Proof.
  induction accountUtxos as [|u rest IH]; intros old; simpl; [apply logsOnly_ret|].
  destruct (old !! utxoId u); [apply IH|].
  apply logsOnly_bind.
  { destruct (currencyFormatToPurposeType (format pth)); try apply logsOnly_ret;
      (apply logsOnly_bind; [apply logsOnly_fetchTransaction|intros; apply logsOnly_ret]). }
  intros s. apply logsOnly_bind; [by apply logsOnly_modify|]. intros _. apply IH.
Qed.

Lemma logsOnly_processAddressUtxos P cfg addr : logsOnly P (processAddressUtxos cfg addr).
Proof.
  unfold processAddressUtxos.
  apply logsOnly_bind; [apply logsOnly_fetchAddressByScriptPubkey|].
  intros [a|]; [|apply logsOnly_ret].
  destruct (path a) as [pth|]; [|apply logsOnly_ret].
  apply logsOnly_bind. { apply logsOnly_silent. by intros w w' [= <-]. }
  intros old. apply logsOnly_bind; [apply logsOnly_awaitBlockBook|]. intros us.
  apply logsOnly_bind; [apply logsOnly_reconcileUtxos|]. intros old'.
  apply logsOnly_forEach. intros u. by apply logsOnly_modify.
Qed.

(** ** When [processAddress] extends the look-ahead *)

Definition notLookAhead (e : Event) : Prop :=
  ∀ fmt pna, e ≠ Call_setLookAhead fmt pna.

(** [m] calls [setLookAhead] only as listed in [expected], and a run of
    [m] that returns has made every call of [expected]. *)
Definition decides (expected : list Event) (m : M unit) : Prop :=
  ∀ w w', finalWorld (m w) = Some w' →
    ∃ new, events w' = new ++ events w
           ∧ (∀ fmt pna, Call_setLookAhead fmt pna ∈ new →
                         Call_setLookAhead fmt pna ∈ expected)
           ∧ ((∃ u, m w = Ok u w') → ∀ e, e ∈ expected → e ∈ new).

Lemma decides_bind {A} expected (m : M A) (k : A → M unit) :
  logsOnly notLookAhead m →
  (∀ a w w1, m w = Ok a w1 → decides expected (k a)) →
  decides expected (bind m k).
Proof.
  intros Hm Hk w w'. unfold bind.
  destruct (m w) as [a w1|e w1|] eqn:E; simpl.
  - intros H. destruct (Hk a w w1 E w1 w' H) as (n2 & Hev & Hin & Hok).
    destruct (Hm w w1) as (n1 & Hev1 & H1); [by rewrite E|].
    exists (n2 ++ n1). split; [by rewrite Hev, Hev1, app_assoc|]. split.
    + intros fmt pna Hi. apply elem_of_app in Hi as [Hi|Hi]; [by apply Hin|].
      rewrite Forall_forall in H1. by destruct (H1 _ Hi fmt pna).
    + intros Hu e He. apply elem_of_app. left. by apply Hok.
  - intros [= <-]. destruct (Hm w w1) as (n1 & Hev1 & H1); [by rewrite E|].
    exists n1. split; [done|]. split.
    + intros fmt pna Hi. rewrite Forall_forall in H1. by destruct (H1 _ Hi fmt pna).
    + by intros [u Hu].
  - done.
Qed.

Lemma decides_ret_nil : decides [] (ret tt).
Proof.
  intros w w' [= <-]. exists []. split; [done|].
  split; [by intros ?? H|by intros _ e H].
Qed.

Lemma setLookAhead_logs_call fuel cfg fmt pna w w' :
  finalWorld (setLookAhead fuel cfg fmt pna w) = Some w' →
  ∃ n', events w' = n' ++ Call_setLookAhead fmt pna :: events w.
Proof.
  unfold setLookAhead. set (rest := forEach _ _). intros H.
  change (finalWorld (rest (logEvent (Call_setLookAhead fmt pna) w)) = Some w') in H.
  assert (logsOnly (λ _, True) rest) as Hrest.
  { apply logsOnly_forEach. intros branch.
    apply logsOnly_bind; [apply logsOnly_getFreshIndex|]. intros f.
    apply logsOnly_bind; [apply logsOnly_fetchAddressCount|]. intros c.
    apply logsOnly_lookAheadLoop. }
  destruct (Hrest _ _ H) as (n' & Hev' & _). by exists n'.
Qed.

Lemma decides_setLookAhead fuel cfg fmt pna :
  decides [Call_setLookAhead fmt pna] (setLookAhead fuel cfg fmt pna).
Proof.
  intros w w' H.
  destruct (logsOnly_setLookAhead fuel cfg fmt pna w w' H) as (new & Hev & Hall).
  exists new. split; [done|]. split.
  - intros f p Hi. rewrite Forall_forall in Hall. rewrite (Hall _ Hi). set_solver.
  - intros _ e He. apply list_elem_of_singleton in He as ->.
    destruct (setLookAhead_logs_call _ _ _ _ _ _ H) as (n' & Hev').
    rewrite Hev in Hev'.
    assert (new = n' ++ [Call_setLookAhead fmt pna]) as ->.
    { apply (app_inv_tail (events w)). by rewrite Hev', <- app_assoc. }
    set_solver.
Qed.

Lemma notLookAhead_txids e : isTxidsChanged e → notLookAhead e.
Proof. by destruct e. Qed.

(** The freshly computed [used] flag. *)
Definition nowUsed (accountDetails : AddressResponse) : bool :=
  (0 <? resp_txs accountDetails) || (0 <? resp_unconfirmedTxs accountDetails).

(** The look-ahead call that is due after reconciling the record [a]. *)
Definition dueLookAhead (cfg : EngineConfig) (addr : string) (a : IAddress) : list Event :=
  match bb_fetchAddress (blockBook cfg) addr None, path a with
  | Some accountDetails, Some pth =>
      if negb (used a) && nowUsed accountDetails
      then [Call_setLookAhead (format pth) true] else []
  | _, _ => []
  end.

Lemma processAddress_decides fuel cfg addr w a :
  addressByScriptPubkey (processor w) !! addressToScriptPubkey (walletTools cfg) addr
  = Some a →
  ∀ w', finalWorld (processAddress fuel cfg addr w) = Some w' →
    ∃ new, events w' = new ++ events w
           ∧ (∀ fmt pna, Call_setLookAhead fmt pna ∈ new →
                         Call_setLookAhead fmt pna ∈ dueLookAhead cfg addr a)
           ∧ ((∃ u, processAddress fuel cfg addr w = Ok u w') →
              ∀ e, e ∈ dueLookAhead cfg addr a → e ∈ new).
Proof.
  intros Ha. unfold processAddress.
  assert (fetchAddressByScriptPubkey (addressToScriptPubkey (walletTools cfg) addr) w
          = Ok (Some a) (tick 1 w)) as Hfetch
    by (unfold fetchAddressByScriptPubkey; by rewrite Ha).
  rewrite (bind_Ok _ _ _ _ _ Hfetch). cbv beta iota. clear Hfetch.
  change (events w) with (events (tick 1 w)). generalize (tick 1 w). clear w Ha.
  match goal with
  | |- ∀ w0 w', finalWorld (@?m w0) = _ → _ =>
      change (decides (dueLookAhead cfg addr a) m)
  end.
  apply decides_bind. { apply logsOnly_silent. by intros w w' [= <-]. }
  intros watched _ _ _.
  apply decides_bind.
  { destruct (negb watched); [|apply logsOnly_ret].
    intros w w' [= <-]. eexists [_]. split; [done|].
    constructor; [|done]. by intros ??. }
  intros _ _ _ _.
  apply decides_bind; [apply logsOnly_awaitBlockBook|].
  intros accountDetails w0 w1 Hd.
  assert (bb_fetchAddress (blockBook cfg) addr None = Some accountDetails) as Hbb.
  { destruct (bb_fetchAddress (blockBook cfg) addr None); simpl in Hd; [|done].
    by injection Hd as -> _. }
  clear w0 w1 Hd.
  apply decides_bind.
  { case_decide; [|apply logsOnly_ret]. apply logsOnly_emit. by intros ??. }
  intros _ _ _ _.
  apply decides_bind.
  { eapply logsOnly_weaken; [apply notLookAhead_txids|].
    apply logsOnly_processAddressTransactions. }
  intros _ _ _ _.
  apply decides_bind; [apply logsOnly_processAddressUtxos|].
  intros _ _ _ _.
  apply decides_bind; [by apply logsOnly_modify|].
  intros _ _ _ _.
  apply decides_bind.
  { destruct (_ && _); [|apply logsOnly_ret]. apply logsOnly_emit. by intros ??. }
  intros _ _ _ _.
  unfold dueLookAhead. rewrite Hbb. fold (nowUsed accountDetails).
  destruct (path a) as [pth|]; [|apply decides_ret_nil].
  destruct (negb (used a) && nowUsed accountDetails);
    [apply decides_setLookAhead|apply decides_ret_nil].
Qed.

(** C4: [processAddress] calls [setLookAhead] if and only if the record's
    [used] flag was false before the reconciliation, the freshly computed
    [used] value is true and the record has a path; the call is made
    with [processNewAddresses = true] for the format of that path.  No
    run, finished or failed, makes any other [setLookAhead] call, and a
    run that returns has made the call that was due.  In particular a
    record without a path never leads to a [setLookAhead] call. *)
Theorem processAddress_lookAhead fuel cfg addr w a w' :
  addressByScriptPubkey (processor w) !! addressToScriptPubkey (walletTools cfg) addr
  = Some a →
  finalWorld (processAddress fuel cfg addr w) = Some w' →
  ∃ new, events w' = new ++ events w
    ∧ (∀ fmt pna,
         Call_setLookAhead fmt pna ∈ new →
         ∃ accountDetails pth,
           bb_fetchAddress (blockBook cfg) addr None = Some accountDetails
           ∧ used a = false ∧ nowUsed accountDetails = true
           ∧ path a = Some pth ∧ fmt = format pth ∧ pna = true)
    ∧ ((∃ u, processAddress fuel cfg addr w = Ok u w') →
       ∀ accountDetails pth,
         bb_fetchAddress (blockBook cfg) addr None = Some accountDetails →
         used a = false → nowUsed accountDetails = true → path a = Some pth →
         Call_setLookAhead (format pth) true ∈ new)
    ∧ (path a = None → ∀ fmt pna, Call_setLookAhead fmt pna ∉ new).
Proof.
  intros Ha Hfin.
  destruct (processAddress_decides fuel cfg addr w a Ha w' Hfin) as (new & Hev & Hin & Hok).
  exists new. split; [done|].
  assert (∀ fmt pna, Call_setLookAhead fmt pna ∈ dueLookAhead cfg addr a →
            ∃ accountDetails pth,
              bb_fetchAddress (blockBook cfg) addr None = Some accountDetails
              ∧ used a = false ∧ nowUsed accountDetails = true
              ∧ path a = Some pth ∧ fmt = format pth ∧ pna = true) as Hdue.
  { intros fmt pna. unfold dueLookAhead.
    destruct (bb_fetchAddress (blockBook cfg) addr None) as [d|]; [|set_solver].
    destruct (path a) as [pth|]; [|set_solver].
    destruct (used a); simpl; [set_solver|].
    destruct (nowUsed d) eqn:Hnow; [|set_solver].
    intros H. apply list_elem_of_singleton in H. injection H as Hf Hp.
    by exists d, pth. }
  split; [|split].
  - intros fmt pna Hi. apply Hdue, Hin, Hi.
  - intros Hu d pth Hbb Hused Hnow Hpath. apply Hok; [done|].
    unfold dueLookAhead. rewrite Hbb, Hpath, Hused, Hnow. apply list_elem_of_here.
  - intros Hnone fmt pna Hi.
    destruct (Hdue fmt pna (Hin _ _ Hi)) as (d & pth & _ & _ & _ & Hp & _).
    congruence.
Qed.

Lemma processAddress_lookAhead_witness :
  ∃ w' new,
    processAddress 10 (sampleConfig 2 Segwit pageBlockBook) "@d0"
      (worldOf (sampleStore bip84 0 [false; false])) = Ok tt w'
    ∧ events w' = new ++ []
    ∧ Call_setLookAhead bip84 true ∈ new.
Proof.
  assert (∃ w', processAddress 10 (sampleConfig 2 Segwit pageBlockBook) "@d0"
                  (worldOf (sampleStore bip84 0 [false; false])) = Ok tt w')
    as [w' Hrun] by (vm_compute; eauto).
  destruct (processAddress_lookAhead 10 (sampleConfig 2 Segwit pageBlockBook) "@d0"
              (worldOf (sampleStore bip84 0 [false; false]))
              (sampleAddress (mkPath bip84 0 0) false) w')
    as (new & Hev & _ & Hok & _).
  - vm_compute. reflexivity.
  - by rewrite Hrun.
  - exists w', new. split; [exact Hrun|]. split; [exact Hev|].
    apply (Hok (ex_intro _ tt Hrun)
               (mkAddressResponse "0" "0" 2 0
                  (Some [sampleTx "aa" 11; sampleTx "bb" 22]) (Some 1))
               (mkPath bip84 0 0)); reflexivity.
Defined.

(** ** UTXO reconciliation *)

(** The local [oldUtxoMap]: the stored UTXOs of the address, by [id]. *)
Definition indexById (l : list IUTXO) (m0 : gmap string IUTXO) : gmap string IUTXO :=
  foldl (λ obj u, <[id u := u]> obj) m0 l.

Lemma indexById_lookup l : ∀ m0 k u,
  indexById l m0 !! k = Some u → m0 !! k = Some u ∨ (u ∈ l ∧ id u = k).
Proof.
  induction l as [|u0 l IH]; intros m0 k u; simpl; [by left|].
  intros H. apply IH in H as [H|[Hin Hk]].
  - destruct (decide (id u0 = k)) as [<-|Hne].
    + rewrite lookup_insert_eq in H. injection H as <-.
      right. split; [apply list_elem_of_here|done].
    + rewrite lookup_insert_ne in H by done. by left.
  - right. split; [by apply list_elem_of_further|done].
Qed.

Lemma indexById_keys l : ∀ m0 k,
  is_Some (m0 !! k) ∨ (∃ u, u ∈ l ∧ id u = k) → is_Some (indexById l m0 !! k).
Proof.
  induction l as [|u0 l IH]; intros m0 k Hex; simpl.
  - destruct Hex as [H|(u & Hin & _)]; [done|]. by apply elem_of_nil in Hin.
  - apply IH. destruct (decide (id u0 = k)) as [Heq|Hne].
    + left. rewrite <- Heq, lookup_insert_eq. eauto.
    + rewrite lookup_insert_ne by done.
      destruct Hex as [H|(u & Hin & Hk)]; [by left|right].
      apply elem_of_cons in Hin as [->|Hin]; [done|]. eauto.
Qed.

(** Every stored UTXO sits under its own [id]. *)
Definition utxosKeyed (p : Processor) : Prop :=
  ∀ k u, utxoById p !! k = Some u → id u = k.

(** The store holds a UTXO with id [k] for the script [sp]. *)
Definition storedUnder (p : Processor) (sp k : string) : Prop :=
  ∃ u, utxoById p !! k = Some u ∧ utxo_scriptPubkey u = sp.

Lemma fetchTransaction_Ok cfg t w tx w' :
  fetchTransaction cfg t w = Ok tx w' → w' = w.
Proof.
  unfold fetchTransaction, bind, processor_fetchTransaction; simpl.
  destruct (txById (processor w) !! t); [by intros [= _ <-]|].
  destruct (bb_fetchTransaction (blockBook cfg) t); simpl; [by intros [= _ <-]|done].
Qed.

Lemma reconcileUtxos_run cfg pth sp : ∀ us old w old' w',
  reconcileUtxos cfg pth sp us old w = Ok old' w' →
  (∀ k u, old !! k = Some u → storedUnder (processor w) sp k) →
  utxosKeyed (processor w) →
  (∀ k, old' !! k = if decide (k ∈ utxoId <$> us) then None else old !! k)
  ∧ (∀ k, k ∈ utxoId <$> us → storedUnder (processor w') sp k)
  ∧ (∀ k, k ∉ utxoId <$> us →
          utxoById (processor w') !! k = utxoById (processor w) !! k)
  ∧ utxosKeyed (processor w').
Proof.
  induction us as [|u rest IH]; intros old w old' w' Hrun Hpre Hkey; simpl in Hrun.
  { injection Hrun as <- <-. split; [|split; [|split]]; [| |done|done].
    - intros k. by rewrite decide_False by apply not_elem_of_nil.
    - intros k Hk. by apply elem_of_nil in Hk. }
  destruct (old !! utxoId u) as [u0|] eqn:Hold.
  - apply IH in Hrun as (Ha & Hb & Hc & Hd); [|
      intros k v Hv; apply lookup_delete_Some in Hv as [_ Hv]; by eapply Hpre | done].
    repeat split; [| | |done].
    + intros k. rewrite Ha, fmap_cons. destruct (decide (k = utxoId u)) as [->|Hne].
      * rewrite lookup_delete_eq. repeat case_decide; try done; set_solver.
      * rewrite lookup_delete_ne by done.
        repeat case_decide; try done; set_solver.
    + intros k Hk. rewrite fmap_cons in Hk.
      destruct (decide (k ∈ utxoId <$> rest)) as [Hin|Hnin]; [by apply Hb|].
      apply elem_of_cons in Hk as [->|Hk]; [|done].
      destruct (Hpre _ _ Hold) as (v & Hv & Hsp).
      exists v. by rewrite Hc.
    + intros k Hk. rewrite fmap_cons in Hk. apply Hc. set_solver.
  - unfold bind at 1 in Hrun.
    match type of Hrun with
    | match ?scripts w with _ => _ end = _ =>
        destruct (scripts w) as [s w1|e w1|] eqn:Hs; [|done|done];
        assert (w1 = w) as ->
    end.
    { destruct (currencyFormatToPurposeType (format pth));
        unfold bind, ret in Hs;
        try (by injection Hs);
        (destruct (fetchTransaction cfg (au_txid u) w) as [tx w2| |] eqn:Hft;
           [|done|done]);
        apply fetchTransaction_Ok in Hft as ->; by injection Hs. }
    unfold bind, saveUtxo, modify in Hrun. simpl in Hrun.
    apply IH in Hrun as (Ha & Hb & Hc & Hd).
    + simpl in Hc. repeat split; [| | |done].
      * intros k. rewrite Ha, fmap_cons. destruct (decide (k = utxoId u)) as [->|Hne].
        -- rewrite Hold. repeat case_decide; try done; set_solver.
        -- repeat case_decide; try done; set_solver.
      * intros k Hk. rewrite fmap_cons in Hk.
        destruct (decide (k ∈ utxoId <$> rest)) as [Hin|Hnin]; [by apply Hb|].
        apply elem_of_cons in Hk as [->|Hk]; [|done].
        eexists. rewrite Hc by done. by rewrite lookup_insert_eq.
      * intros k Hk. rewrite fmap_cons in Hk.
        rewrite Hc by set_solver. rewrite lookup_insert_ne; [done|]. set_solver.
    + intros k v Hv. destruct (Hpre _ _ Hv) as (v' & Hv' & Hsp).
      exists v'. simpl. rewrite lookup_insert_ne; [done|]. intros <-. congruence.
    + unfold utxosKeyed. simpl. intros k v.
      destruct (decide (utxoId u = k)) as [<-|Hne].
      * rewrite lookup_insert_eq. by intros [= <-].
      * rewrite lookup_insert_ne by done. apply Hkey.
Qed.

Lemma removeUtxos_run (l : list IUTXO) : ∀ w,
  ∃ w', forEach l removeUtxo w = Ok tt w'
        ∧ ∀ k, utxoById (processor w') !! k
               = if decide (k ∈ id <$> l) then None else utxoById (processor w) !! k.
Proof.
  induction l as [|u l IH]; intros w; simpl.
  - exists w. split; [done|]. intros k.
    first [done | by rewrite decide_False by apply not_elem_of_nil].
  - unfold bind, removeUtxo, modify; simpl.
    edestruct IH as (w' & -> & Hw'). exists w'. split; [done|].
    intros k. rewrite Hw'; simpl. destruct (decide (k = id u)) as [->|Hne].
    + rewrite lookup_delete_eq. repeat case_decide; try done; set_solver.
    + rewrite lookup_delete_ne by done.
      repeat case_decide; try done; set_solver.
Qed.

(** After a run, the UTXOs stored for the script of [addr] are exactly
    those the indexer returned for [addr]. *)
Definition utxosReconciled (cfg : EngineConfig) (addr : string) (p' : Processor) : Prop :=
  ∃ us, bb_fetchAddressUtxos (blockBook cfg) addr = Some us
        ∧ ∀ k, storedUnder p' (addressToScriptPubkey (walletTools cfg) addr) k
               ↔ k ∈ utxoId <$> us.

(** The claim for every address whose record exists. *)
Definition utxoContract (cfg : EngineConfig) (addr : string) (w : World) : Prop :=
  is_Some (addressByScriptPubkey (processor w)
             !! addressToScriptPubkey (walletTools cfg) addr) →
  ∀ w', processAddressUtxos cfg addr w = Ok tt w' →
        utxosReconciled cfg addr (processor w').

(** The record of an imported address has no path: [processAddressUtxos]
    returns at once and stores nothing, whatever the indexer reports. *)
Lemma utxoContract_fails_without_path :
  ¬ utxoContract (sampleConfig 2 Segwit utxoBlockBook) "@x" (worldOf importedStore).
Proof.
  intros H.
  destruct (H ltac:(vm_compute; eauto) (tick 1 (worldOf importedStore)))
    as (us & Hus & Hiff); [vm_compute; reflexivity|].
  injection Hus as <-.
  destruct (proj2 (Hiff "t1_0")) as (u & Hu & _).
  { vm_compute. apply list_elem_of_here. }
  vm_compute in Hu. discriminate Hu.
Qed.

Lemma processAddressUtxos_with_path cfg addr w a pth w' :
  utxosKeyed (processor w) →
  addressByScriptPubkey (processor w) !! addressToScriptPubkey (walletTools cfg) addr
  = Some a →
  path a = Some pth →
  processAddressUtxos cfg addr w = Ok tt w' →
  utxosReconciled cfg addr (processor w')
  ∧ utxosKeyed (processor w')
  ∧ (∀ us k u, bb_fetchAddressUtxos (blockBook cfg) addr = Some us →
       utxoById (processor w) !! k = Some u →
       utxo_scriptPubkey u ≠ addressToScriptPubkey (walletTools cfg) addr →
       k ∉ utxoId <$> us →
       utxoById (processor w') !! k = Some u).
Proof.
  intros Hkey Ha Hpath. unfold processAddressUtxos, utxosReconciled.
  set (sp := addressToScriptPubkey (walletTools cfg) addr) in *.
  unfold bind at 1. unfold fetchAddressByScriptPubkey at 1. simpl.
  rewrite Ha, Hpath. unfold bind at 1. unfold fetchUtxosByScriptPubkey at 1. simpl.
  set (stored := filter (λ u, utxo_scriptPubkey u = sp)
                        (map_to_list (utxoById (processor w))).*2).
  fold (indexById stored ∅). set (old0 := indexById stored ∅).
  assert (∀ u, u ∈ stored ↔ utxo_scriptPubkey u = sp
                             ∧ utxoById (processor w) !! id u = Some u) as Hstored.
  { intros u. unfold stored. rewrite list_elem_of_filter, list_elem_of_fmap. split.
    - intros [Hsp ([k v] & -> & Hkv)]. apply elem_of_map_to_list in Hkv.
      simpl in *. split; [done|]. by rewrite (Hkey _ _ Hkv).
    - intros [Hsp Hu]. split; [done|]. exists (id u, u). split; [done|].
      by apply elem_of_map_to_list. }
  assert (∀ k u, old0 !! k = Some u →
            utxo_scriptPubkey u = sp ∧ utxoById (processor w) !! k = Some u ∧ id u = k)
    as Hold0.
  { intros k u Hu. apply indexById_lookup in Hu as [Hu|[Hin Hid]].
    - by rewrite lookup_empty in Hu.
    - apply Hstored in Hin as [Hsp Hu]. by rewrite Hid in Hu. }
  unfold bind at 1.
  destruct (bb_fetchAddressUtxos (blockBook cfg) addr) as [us|]; simpl; [|done].
  unfold bind at 1.
  destruct (reconcileUtxos cfg pth sp us old0 (tick 1 w)) as [old' w1|e w1|] eqn:Hrec;
    [|done|done].
  apply reconcileUtxos_run in Hrec as (Hra & Hrb & Hrc & Hrd); [| |done].
  2: { intros k u Hu. destruct (Hold0 _ _ Hu) as (Hsp & Hw & _). by exists u. }
  simpl in Hrc.
  destruct (removeUtxos_run (map_to_list old').*2 w1) as (w2 & Hrm & Hw2).
  rewrite Hrm. intros [= <-].
  assert (∀ k, k ∈ id <$> (map_to_list old').*2 ↔ is_Some (old' !! k)) as Hremoved.
  { intros k. rewrite list_elem_of_fmap. split.
    - intros (u & -> & Hu). apply list_elem_of_fmap in Hu as ([k' v] & -> & Hkv).
      apply elem_of_map_to_list in Hkv. simpl.
      pose proof Hkv as Hkv'. rewrite Hra in Hkv'. case_decide; [done|].
      destruct (Hold0 _ _ Hkv') as (_ & _ & ->). eauto.
    - intros [u Hu]. exists u.
      pose proof Hu as Hu'. rewrite Hra in Hu'. case_decide; [done|].
      destruct (Hold0 _ _ Hu') as (_ & _ & Hid). split; [done|].
      apply list_elem_of_fmap. exists (k, u). split; [done|].
      by apply elem_of_map_to_list. }
  split; [|split].
  - exists us. split; [done|]. intros k. unfold storedUnder. rewrite Hw2. split.
    + intros (u & Hu & Hsp). case_decide as Hrem; [done|].
      destruct (decide (k ∈ utxoId <$> us)) as [|Hnin]; [done|exfalso].
      rewrite Hrc in Hu by done. apply Hrem, Hremoved.
      rewrite Hra. rewrite decide_False by done.
      apply indexById_keys. right. exists u. split; [|by apply Hkey].
      apply Hstored. split; [done|]. by rewrite (Hkey _ _ Hu).
    + intros Hin. rewrite decide_False; [by apply Hrb|].
      rewrite Hremoved, Hra. rewrite decide_True by done. by intros [? ?].
  - intros k u. rewrite Hw2. case_decide; [done|]. apply Hrd.
  - intros us' k u [= <-] Hu Hsp Hnin. rewrite Hw2.
    rewrite decide_False; [by rewrite Hrc|].
    rewrite Hremoved, Hra. rewrite decide_False by done.
    intros [v Hv]. destruct (Hold0 _ _ Hv) as (Hvsp & Hvw & _). congruence.
Qed.

(** C3, amended: for every address whose record exists in the store and
    carries a path, after [processAddressUtxos] returns, the UTXOs stored
    under the address's [scriptPubkey] are, by [id], exactly those the
    indexer returned for the address; stored UTXOs of other scripts
    whose id the indexer did not return are untouched, and every stored
    UTXO still sits under its own id.  For a record without a path the
    UTXO store is left as it was. *)
Theorem processAddressUtxos_reconciles cfg addr w a w' :
  utxosKeyed (processor w) →
  addressByScriptPubkey (processor w) !! addressToScriptPubkey (walletTools cfg) addr
  = Some a →
  processAddressUtxos cfg addr w = Ok tt w' →
  (is_Some (path a) →
   utxosReconciled cfg addr (processor w')
   ∧ utxosKeyed (processor w')
   ∧ (∀ us k u, bb_fetchAddressUtxos (blockBook cfg) addr = Some us →
        utxoById (processor w) !! k = Some u →
        utxo_scriptPubkey u ≠ addressToScriptPubkey (walletTools cfg) addr →
        k ∉ utxoId <$> us →
        utxoById (processor w') !! k = Some u))
  ∧ (path a = None → utxoById (processor w') = utxoById (processor w)).
Proof.
  intros Hkey Ha Hrun. split.
  - intros [pth Hpath]. by eapply processAddressUtxos_with_path.
  - intros Hnone. unfold processAddressUtxos, bind, fetchAddressByScriptPubkey in Hrun.
    simpl in Hrun. rewrite Ha, Hnone in Hrun. by injection Hrun as <-.
Qed.

Lemma processAddressUtxos_reconciles_witness :
  ∃ w', processAddressUtxos (sampleConfig 2 Segwit utxoBlockBook) "@d0"
          (worldOf staleUtxoStore) = Ok tt w'
        ∧ storedUnder (processor w') "d0" "t1_0"
        ∧ ¬ storedUnder (processor w') "d0" "old_9".
Proof.
  assert (∃ w', processAddressUtxos (sampleConfig 2 Segwit utxoBlockBook) "@d0"
                  (worldOf staleUtxoStore) = Ok tt w')
    as [w' Hrun] by (vm_compute; eauto).
  destruct (processAddressUtxos_reconciles (sampleConfig 2 Segwit utxoBlockBook) "@d0"
              (worldOf staleUtxoStore) (sampleAddress (mkPath bip84 0 0) false) w')
    as [Hwith _].
  - intros k u Hu. unfold staleUtxoStore, worldOf, setUtxos in Hu. simpl in Hu.
    apply lookup_singleton_Some in Hu as [<- <-]. reflexivity.
  - vm_compute. reflexivity.
  - exact Hrun.
  - destruct (Hwith (ex_intro _ (mkPath bip84 0 0) eq_refl)) as ((us & Hus & Hiff) & _ & _).
    exists w'. split; [exact Hrun|]. injection Hus as <-. split.
    + apply Hiff. vm_compute. apply list_elem_of_here.
    + intros H. apply Hiff in H. vm_compute in H.
      apply list_elem_of_singleton in H. discriminate H.
Defined.

(** ** [broadcastTx] of the server pool *)

(** [set] and [delete] fill the [[MapData]] slot only: whatever the map
    holds, the object has no own enumerable property. *)
Lemma connections_no_own_keys m :
  ServerStates.connectionsState m → ServerStates.Object_keys m = [].
Proof. induction 1; simpl; done. Qed.

(** C9: whatever the [connections] map holds, [Object.keys(connections)]
    is the empty list, because [connections] is a [Map]; so [broadcastTx]
    rejects with the "No available connections" error and calls the
    [broadcastTx] of no connection. *)
Theorem broadcastTx_always_rejects connections :
  ServerStates.connectionsState connections →
  ServerStates.Object_keys connections = []
  ∧ ServerStates.broadcastTx connections
    = ServerStates.mkBroadcastRun
        (ServerStates.Rejected (Some ServerStates.noConnections)) [].
Proof.
  intros H. apply connections_no_own_keys in H. split; [done|].
  unfold ServerStates.broadcastTx. by rewrite H.
Qed.

Lemma broadcastTx_always_rejects_witness :
  ServerStates.Object_keys
    (ServerStates.Map_set ServerStates.Map_new "wss://a"
       (ServerStates.mkBlockBook true (inl "txid"))) = []
  ∧ ServerStates.broadcastTx
      (ServerStates.Map_set ServerStates.Map_new "wss://a"
         (ServerStates.mkBlockBook true (inl "txid")))
    = ServerStates.mkBroadcastRun
        (ServerStates.Rejected (Some ServerStates.noConnections)) [].
Proof.
  apply (broadcastTx_always_rejects
           (ServerStates.Map_set ServerStates.Map_new "wss://a"
              (ServerStates.mkBlockBook true (inl "txid")))).
  apply ServerStates.connections_set. apply ServerStates.connections_new.
Defined.

(** ** Look-ahead generation *)

(** The key manager derives a different [scriptPubkey] for every path. *)
Definition derivationInjective (cfg : EngineConfig) : Prop :=
  ∀ p q, info_scriptPubkey (getScriptPubkey (walletTools cfg) p)
         = info_scriptPubkey (getScriptPubkey (walletTools cfg) q) → p = q.

(** Consistency of the two address indexes: a record sits under its own
    [scriptPubkey], a record with a path is listed under that path, and
    the script listed under a path is the one derived from it. *)
Definition storeInv (cfg : EngineConfig) (p : Processor) : Prop :=
  (∀ sp a, addressByScriptPubkey p !! sp = Some a → scriptPubkey a = sp)
  ∧ (∀ sp a pth, addressByScriptPubkey p !! sp = Some a → path a = Some pth →
                 scriptPubkeyByPath p !! pth = Some sp)
  ∧ (∀ pth sp, scriptPubkeyByPath p !! pth = Some sp →
               sp = info_scriptPubkey (getScriptPubkey (walletTools cfg) pth)).

Lemma storeInv_empty cfg : storeInv cfg emptyProcessor.
Proof. repeat split; intros *; simpl; by rewrite lookup_empty. Qed.

Section SaveAtNewPath.

Context (cfg : EngineConfig) (p : Processor) (pth : AddressPath) (a : IAddress).
Hypothesis Hinj : derivationInjective cfg.
Hypothesis Hinv : storeInv cfg p.
Hypothesis Hfree : scriptPubkeyByPath p !! pth = None.
Hypothesis Hpath : path a = Some pth.
Hypothesis Hsp : scriptPubkey a = info_scriptPubkey (getScriptPubkey (walletTools cfg) pth).

Lemma saveAddress_store_inv : storeInv cfg (saveAddress_store a p).
Proof.
  destruct Hinv as (I1 & I2 & I3). unfold saveAddress_store. rewrite Hpath.
  split; [|split]; simpl.
  - intros sp b. destruct (decide (scriptPubkey a = sp)) as [<-|Hne].
    + rewrite lookup_insert_eq. by intros [= <-].
    + rewrite lookup_insert_ne by done. apply I1.
  - intros sp b q. destruct (decide (scriptPubkey a = sp)) as [<-|Hne].
    + rewrite lookup_insert_eq. intros [= <-] Hq.
      assert (q = pth) as -> by congruence. by rewrite lookup_insert_eq.
    + rewrite lookup_insert_ne by done. intros Hb Hq.
      pose proof (I2 _ _ _ Hb Hq) as Hl.
      rewrite lookup_insert_ne; [done|]. intros <-. congruence.
  - intros q sp. destruct (decide (pth = q)) as [<-|Hne].
    + rewrite lookup_insert_eq. intros [= <-]. done.
    + rewrite lookup_insert_ne by done. apply I3.
Qed.

Lemma saveAddress_store_frame q :
  q ≠ pth → addressDataAt (saveAddress_store a p) q = addressDataAt p q.
Proof.
  intros Hq. destruct Hinv as (I1 & I2 & I3).
  unfold addressDataAt, saveAddress_store. rewrite Hpath. simpl.
  rewrite lookup_insert_ne by done.
  destruct (scriptPubkeyByPath p !! q) as [sq|] eqn:E; [|done].
  rewrite lookup_insert_ne; [done|].
  rewrite Hsp, (I3 _ _ E). intros He. apply Hinj in He. congruence.
Qed.

Lemma saveAddress_store_agree fmt ch :
  (format pth, changeIndex pth) ≠ (fmt, ch) →
  agreeOn p (saveAddress_store a p) fmt ch.
Proof.
  intros Hne. split.
  - symmetry. by eapply addressCount_saveAddress_other.
  - intros i. symmetry. apply saveAddress_store_frame.
    intros <-. by apply Hne.
Qed.

End SaveAtNewPath.

(** Saving at a path the branch does not hold yet always writes a record
    with that path. *)
Lemma saveNewOrUpdate_at_free_path cfg pth w :
  derivationInjective cfg → storeInv cfg (processor w) →
  scriptPubkeyByPath (processor w) !! pth = None →
  ∃ isNew a,
    saveNewOrUpdateAddressPathIfNeeded cfg (Some pth) None w
    = Ok isNew (setProcessor (saveAddress_store a (processor w)) (tick 1 w))
    ∧ path a = Some pth
    ∧ scriptPubkey a = info_scriptPubkey (getScriptPubkey (walletTools cfg) pth).
Proof.
  intros Hinj Hinv Hfree.
  unfold saveNewOrUpdateAddressPathIfNeeded, bind, ret, fetchAddressByScriptPubkey,
    saveAddress, modify; simpl.
  set (sp := info_scriptPubkey (getScriptPubkey (walletTools cfg) pth)).
  destruct (addressByScriptPubkey (processor w) !! sp) as [a0|] eqn:E.
  - destruct Hinv as (I1 & I2 & I3).
    destruct (path a0) as [q|] eqn:Hq.
    + exfalso. pose proof (I2 _ _ _ E Hq) as Hl.
      pose proof (I3 _ _ Hl) as He. apply Hinj in He. congruence.
    + eexists false, _. split; [reflexivity|]. split; [done|]. simpl. by apply I1.
  - eexists true, _. split; [reflexivity|]. by split.
Qed.

(** What holds of a branch once its look-ahead is in place. *)
Definition gapSatisfied (fuel : nat) (cfg : EngineConfig) (fmt : CurrencyFormat)
    (branch : nat) (w : World) : Prop :=
  ∃ freshIndex,
    outcome (getFreshIndex fuel cfg fmt branch true w) = Some (inl freshIndex)
    ∧ freshIndex + gapLimit (currencyInfo cfg) ≤ addressCount (processor w) fmt branch.

Lemma gapSatisfied_agree fuel cfg fmt branch w1 w2 :
  agreeOn (processor w1) (processor w2) fmt branch →
  gapSatisfied fuel cfg fmt branch w1 → gapSatisfied fuel cfg fmt branch w2.
Proof.
  intros Ha (f & Hf & Hle). exists f.
  rewrite <- (getFreshIndex_agree fuel cfg fmt branch true w1 w2 Ha).
  split; [done|]. by rewrite <- (proj1 Ha).
Qed.

(** The other branches as the loop leaves them. *)
Definition othersKept (fmt : CurrencyFormat) (branch : nat) (w w' : World) : Prop :=
  ∀ fmt' ch', (fmt', ch') ≠ (fmt, branch) →
              agreeOn (processor w) (processor w') fmt' ch'.

Lemma getFreshIndex_Ok_again fuel cfg fmt ch find w r w1 :
  getFreshIndex fuel cfg fmt ch find w = Ok r w1 →
  processor w1 = processor w
  ∧ outcome (getFreshIndex fuel cfg fmt ch find w1) = Some (inl r).
Proof.
  intros H.
  destruct (getFreshIndex_idempotent_aux fuel cfg fmt ch find w w1) as [Hp Ho].
  { by rewrite H. }
  split; [done|]. by rewrite Ho, H.
Qed.

Lemma lookAheadLoop_post cfg fmt branch pna fuel :
  derivationInjective cfg →
  ∀ n i freshIndex w w',
    storeInv cfg (processor w) →
    addressCount (processor w) fmt branch = i →
    outcome (getFreshIndex fuel cfg fmt branch true w) = Some (inl freshIndex) →
    lookAheadLoop n fuel cfg fmt branch pna i freshIndex w = Ok tt w' →
    storeInv cfg (processor w')
    ∧ gapSatisfied fuel cfg fmt branch w'
    ∧ othersKept fmt branch w w'.
Proof.
  intros Hinj. induction n as [|n IH]; intros i freshIndex w w' Hinv Hcount Hfresh Hrun;
    simpl in Hrun; [done|].
  destruct (Nat.ltb_spec i (freshIndex + gapLimit (currencyInfo cfg))) as [Hlt|Hge].
  2: { injection Hrun as <-. split; [done|]. split.
       - exists freshIndex. split; [done|]. lia.
       - intros ???. apply agreeOn_refl. }
  set (pth := mkPath fmt branch i) in *.
  assert (scriptPubkeyByPath (processor w) !! pth = None) as Hfree
    by (apply addressCount_lookup_ge; lia).
  destruct (saveNewOrUpdate_at_free_path cfg pth w Hinj Hinv Hfree)
    as (isNew & a & Hsave & Hpath & Hsp).
  rewrite (bind_Ok _ _ _ _ _ Hsave) in Hrun.
  set (w1 := setProcessor (saveAddress_store a (processor w)) (tick 1 w)) in *.
  assert (storeInv cfg (processor w1)) as Hinv1
    by (by apply (saveAddress_store_inv cfg (processor w) pth a)).
  assert (addressCount (processor w1) fmt branch = S i) as Hcount1
    by (apply addressCount_saveAddress_next; [done|simpl; lia]).
  assert (othersKept fmt branch w w1) as Hkept1.
  { intros fmt' ch' Hne.
    apply (saveAddress_store_agree cfg (processor w) pth a); try done;
      simpl; congruence. }
  apply bind_inv_Ok in Hrun as ([] & w2 & Hdisp & Hrun).
  assert (processor w2 = processor w1) as Hp2.
  { destruct (isNew && pna).
    - unfold bind, fetchScriptPubkeyByPath in Hdisp; simpl in Hdisp.
      rewrite Hpath, lookup_insert_eq in Hdisp.
      by injection Hdisp as <-.
    - by injection Hdisp as <-. }
  apply bind_inv_Ok in Hrun as (f & w3 & Hf & Hrun).
  apply getFreshIndex_Ok_again in Hf as [Hp3 Hf3].
  apply IH in Hrun as (Hinv' & Hgap & Hkept); [| | |done].
  - split; [done|]. split; [done|].
    intros fmt' ch' Hne. eapply agreeOn_trans; [by apply Hkept1|].
    specialize (Hkept fmt' ch' Hne). by rewrite Hp3, Hp2 in Hkept.
  - by rewrite Hp3, Hp2.
  - by rewrite Hp3, Hp2.
Qed.

Lemma setLookAhead_branch_post cfg fmt pna fuel branch w w' :
  derivationInjective cfg → storeInv cfg (processor w) →
  (freshIndex <- getFreshIndex fuel cfg fmt branch true ;;
   addressCount <- fetchAddressCountFromPathPartition fmt branch ;;
   lookAheadLoop fuel fuel cfg fmt branch pna addressCount freshIndex) w = Ok tt w' →
  storeInv cfg (processor w')
  ∧ gapSatisfied fuel cfg fmt branch w'
  ∧ othersKept fmt branch w w'.
Proof.
  intros Hinj Hinv Hrun.
  apply bind_inv_Ok in Hrun as (f & w1 & Hf & Hrun).
  apply getFreshIndex_Ok_again in Hf as [Hp1 Hf1].
  unfold bind at 1, fetchAddressCountFromPathPartition in Hrun. simpl in Hrun.
  apply (lookAheadLoop_post cfg fmt branch pna fuel Hinj) in Hrun
    as (Hinv' & Hgap & Hkept); [| |done|done].
  - split; [done|]. split; [done|]. intros fmt' ch' Hne.
    specialize (Hkept fmt' ch' Hne). by rewrite Hp1 in Hkept.
  - by rewrite Hp1.
Qed.

Lemma setLookAhead_branches_post cfg fmt pna fuel :
  derivationInjective cfg →
  ∀ branches w w',
    storeInv cfg (processor w) →
    forEach branches (λ branch,
      freshIndex <- getFreshIndex fuel cfg fmt branch true ;;
      addressCount <- fetchAddressCountFromPathPartition fmt branch ;;
      lookAheadLoop fuel fuel cfg fmt branch pna addressCount freshIndex) w = Ok tt w' →
    storeInv cfg (processor w')
    ∧ (∀ branch, branch ∈ branches → gapSatisfied fuel cfg fmt branch w')
    ∧ (∀ fmt' ch', (fmt' ≠ fmt ∨ ch' ∉ branches) →
                   agreeOn (processor w) (processor w') fmt' ch').
Proof.
  intros Hinj. induction branches as [|b rest IH]; intros w w' Hinv Hrun; simpl in Hrun.
  { injection Hrun as <-. split; [done|]. split.
    - intros branch Hb. by apply elem_of_nil in Hb.
    - intros ???. apply agreeOn_refl. }
  apply bind_inv_Ok in Hrun as ([] & w1 & Hb & Hrun).
  apply setLookAhead_branch_post in Hb as (Hinv1 & Hgap1 & Hkept1); [|done|done].
  apply IH in Hrun as (Hinv' & Hgap & Hkept); [|done].
  split; [done|]. split.
  - intros branch Hin.
    destruct (decide (branch ∈ rest)) as [Hr|Hr]; [by apply Hgap|].
    apply elem_of_cons in Hin as [->|Hin]; [|done].
    eapply gapSatisfied_agree; [|exact Hgap1]. apply Hkept. by right.
  - intros fmt' ch' Hne. eapply agreeOn_trans.
    + apply Hkept1. intros [= -> ->]. destruct Hne as [Hne|Hne]; [done|].
      apply Hne, list_elem_of_here.
    + apply Hkept. destruct Hne as [Hne|Hne]; [by left|right].
      intros Hin. apply Hne. by apply list_elem_of_further.
Qed.

(** ** Look-ahead generation returns

    On a store without imported records (every record has a path) whose
    supported branches each hold a contiguous run of records,
    [setLookAhead] returns once it is given enough fuel. *)

Definition noImported (p : Processor) : Prop :=
  ∀ sp a, addressByScriptPubkey p !! sp = Some a → is_Some (path a).

(** The records [N0 .. N-1] of a branch are unused. *)
Definition tailUnused (p : Processor) (fmt : CurrencyFormat) (ch N0 N : nat) : Prop :=
  ∀ j, N0 ≤ j → j < N → usedAt p fmt ch j = false.

(** The record [saveNewOrUpdateAddressPathIfNeeded] creates for a path. *)
Definition freshRecord (cfg : EngineConfig) (pth : AddressPath) : IAddress :=
  mkAddress (info_scriptPubkey (getScriptPubkey (walletTools cfg) pth))
            (Some pth) 0 0 0 false (Some "0").

Lemma noImported_empty : noImported emptyProcessor.
Proof. intros sp a. simpl. by rewrite lookup_empty. Qed.

Lemma saveNewOrUpdate_fresh cfg pth w :
  derivationInjective cfg → storeInv cfg (processor w) → noImported (processor w) →
  scriptPubkeyByPath (processor w) !! pth = None →
  saveNewOrUpdateAddressPathIfNeeded cfg (Some pth) None w
  = Ok true (setProcessor (saveAddress_store (freshRecord cfg pth) (processor w))
                          (tick 1 w)).
Proof.
  intros Hinj (I1 & I2 & I3) Hno Hfree.
  unfold saveNewOrUpdateAddressPathIfNeeded, bind, ret, fetchAddressByScriptPubkey,
    saveAddress, modify; simpl.
  destruct (addressByScriptPubkey (processor w) !! _) as [a0|] eqn:E; [|done].
  exfalso. destruct (Hno _ _ E) as [q Hq].
  pose proof (I2 _ _ _ E Hq) as Hl. pose proof (I3 _ _ Hl) as He.
  apply Hinj in He. congruence.
Qed.

Lemma noImported_save p a :
  noImported p → is_Some (path a) → noImported (saveAddress_store a p).
Proof.
  intros Hno Ha sp b. unfold saveAddress_store; simpl.
  destruct (decide (scriptPubkey a = sp)) as [<-|Hne].
  - rewrite lookup_insert_eq. by intros [= <-].
  - rewrite lookup_insert_ne by done. apply Hno.
Qed.

Lemma branchHolds_agree p1 p2 fmt ch N :
  agreeOn p1 p2 fmt ch → branchHolds p1 fmt ch N → branchHolds p2 fmt ch N.
Proof.
  intros [Hc Hd] [Hn Hr]. split; [congruence|].
  intros i Hi. rewrite <- Hd. by apply Hr.
Qed.

Lemma branchHolds_save cfg p fmt ch N :
  derivationInjective cfg → storeInv cfg p → branchHolds p fmt ch N →
  branchHolds (saveAddress_store (freshRecord cfg (mkPath fmt ch N)) p) fmt ch (S N)
  ∧ ∀ i, i < N →
         addressDataAt (saveAddress_store (freshRecord cfg (mkPath fmt ch N)) p)
                       (mkPath fmt ch i)
         = addressDataAt p (mkPath fmt ch i).
Proof.
  intros Hinj Hinv [Hn Hr].
  assert (∀ i, i < N →
            addressDataAt (saveAddress_store (freshRecord cfg (mkPath fmt ch N)) p)
                          (mkPath fmt ch i)
            = addressDataAt p (mkPath fmt ch i)) as Hframe.
  { intros i Hi.
    apply (saveAddress_store_frame cfg p (mkPath fmt ch N)
             (freshRecord cfg (mkPath fmt ch N)) Hinj Hinv
             (addressCount_lookup_ge p fmt ch N ltac:(lia)) eq_refl eq_refl).
    intros [= ->]. lia. }
  split; [|done]. split.
  - apply addressCount_saveAddress_next; [done|lia].
  - intros i Hi. destruct (decide (i = N)) as [->|Hne].
    + eexists. unfold addressDataAt, saveAddress_store; simpl.
      by rewrite !lookup_insert_eq.
    + rewrite Hframe by lia. apply Hr. lia.
Qed.

Lemma tailUnused_save cfg p fmt ch N0 N :
  derivationInjective cfg → storeInv cfg p → branchHolds p fmt ch N →
  tailUnused p fmt ch N0 N →
  tailUnused (saveAddress_store (freshRecord cfg (mkPath fmt ch N)) p) fmt ch N0 (S N).
Proof.
  intros Hinj Hinv Hb Ht j Hj HjN. unfold usedAt.
  destruct (decide (j = N)) as [->|Hne].
  - unfold addressDataAt, saveAddress_store; simpl. by rewrite !lookup_insert_eq.
  - rewrite (proj2 (branchHolds_save cfg p fmt ch N Hinj Hinv Hb)) by lia.
    apply Ht; lia.
Qed.

Lemma getFreshIndex_tail_bound fuel cfg fmt ch N0 N w :
  0 < gapLimit (currencyInfo cfg) →
  branchHolds (processor w) fmt ch N → tailUnused (processor w) fmt ch N0 N →
  N + 2 ≤ fuel →
  ∃ r k, getFreshIndex fuel cfg fmt ch true w = Ok r (tick k w) ∧ r ≤ Nat.max N0 1.
Proof.
  intros Hg Hb Ht Hfuel.
  destruct (getFreshIndex_scan fuel cfg fmt ch N w Hb Hfuel)
    as (r & k & Hrun & Hle & Hsmall & Hbig).
  exists r, k. split; [done|].
  destruct (decide (N < gapLimit (currencyInfo cfg))) as [Hlt|Hge].
  { rewrite Hsmall by done. lia. }
  destruct (Hbig ltac:(lia)) as [_ Hprev].
  destruct (decide (2 ≤ r)) as [H2|]; [|lia].
  specialize (Hprev Hg H2).
  destruct (decide (N0 ≤ r - 1)) as [Hin|]; [|lia].
  rewrite (Ht (r - 1)) in Hprev by lia. done.
Qed.

Lemma lookAheadLoop_returns cfg fmt branch pna fuel N0 :
  derivationInjective cfg → 0 < gapLimit (currencyInfo cfg) →
  Nat.max N0 1 + gapLimit (currencyInfo cfg) + 2 ≤ fuel →
  ∀ n i freshIndex w,
    storeInv cfg (processor w) → noImported (processor w) →
    branchHolds (processor w) fmt branch i →
    tailUnused (processor w) fmt branch N0 i →
    freshIndex ≤ Nat.max N0 1 →
    0 < n → Nat.max N0 1 + gapLimit (currencyInfo cfg) < n + i →
    ∃ w', lookAheadLoop n fuel cfg fmt branch pna i freshIndex w = Ok tt w'
          ∧ noImported (processor w').
Proof.
  intros Hinj Hg Hfuel. induction n as [|n IH];
    intros i freshIndex w Hinv Hno Hb Ht Hfresh Hn Hmeasure; [lia|].
  simpl. destruct (Nat.ltb_spec i (freshIndex + gapLimit (currencyInfo cfg))) as [Hlt|Hge];
    [|by exists w].
  set (pth := mkPath fmt branch i).
  assert (scriptPubkeyByPath (processor w) !! pth = None) as Hfree
    by (apply addressCount_lookup_ge; rewrite (proj1 Hb); lia).
  rewrite (bind_Ok _ _ _ _ _ (saveNewOrUpdate_fresh cfg pth w Hinj Hinv Hno Hfree)).
  set (p1 := saveAddress_store (freshRecord cfg pth) (processor w)).
  set (w1 := setProcessor p1 (tick 1 w)).
  assert (∃ w2, (if true && pna
                 then scriptPubkey_ <- fetchScriptPubkeyByPath pth ;;
                      match scriptPubkey_ with
                      | None => throw "TypeError: scriptPubkey is undefined"
                      | Some scriptPubkey_ =>
                          runExclusive_processAddress
                            (address (scriptPubkeyToAddress (walletTools cfg)
                                        scriptPubkey_ fmt))
                      end
                 else ret tt) w1 = Ok tt w2 ∧ processor w2 = p1) as (w2 & Hdisp & Hp2).
  { destruct pna; simpl; [|by exists w1].
    unfold bind, fetchScriptPubkeyByPath; simpl. rewrite lookup_insert_eq.
    by eexists. }
  rewrite (bind_Ok _ _ _ _ _ Hdisp).
  assert (storeInv cfg p1) as Hinv1
    by (by apply (saveAddress_store_inv cfg (processor w) pth)).
  assert (noImported p1) as Hno1 by (apply noImported_save; [done|by eexists]).
  destruct (branchHolds_save cfg (processor w) fmt branch i Hinj Hinv Hb) as [Hb1 _].
  pose proof (tailUnused_save cfg (processor w) fmt branch N0 i Hinj Hinv Hb Ht) as Ht1.
  fold pth in Hb1, Ht1. fold p1 in Hb1, Ht1. rewrite <- Hp2 in Hinv1, Hno1, Hb1, Ht1.
  destruct (getFreshIndex_tail_bound fuel cfg fmt branch N0 (S i) w2 Hg Hb1 Ht1)
    as (r & k & Hrun & Hr); [lia|].
  rewrite (bind_Ok _ _ _ _ _ Hrun).
  apply IH; try done; lia.
Qed.

Lemma setLookAhead_branch_returns cfg fmt pna fuel branch N0 w :
  derivationInjective cfg → storeInv cfg (processor w) → noImported (processor w) →
  branchHolds (processor w) fmt branch N0 →
  Nat.max N0 1 + gapLimit (currencyInfo cfg) + 2 ≤ fuel →
  ∃ w', (freshIndex <- getFreshIndex fuel cfg fmt branch true ;;
         addressCount <- fetchAddressCountFromPathPartition fmt branch ;;
         lookAheadLoop fuel fuel cfg fmt branch pna addressCount freshIndex) w = Ok tt w'
        ∧ noImported (processor w').
Proof.
  intros Hinj Hinv Hno Hb Hfuel.
  destruct (getFreshIndex_scan fuel cfg fmt branch N0 w Hb ltac:(lia))
    as (r & k & Hrun & Hle & Hsmall & Hbig).
  rewrite (bind_Ok _ _ _ _ _ Hrun).
  unfold bind at 1, fetchAddressCountFromPathPartition. simpl. rewrite (proj1 Hb).
  destruct (decide (gapLimit (currencyInfo cfg) = 0)) as [Hg0|Hg].
  - destruct fuel as [|fuel']; [lia|].
    simpl. rewrite Hg0.
    destruct (Nat.ltb_spec N0 (r + 0)); [lia|]. by exists (tick k w).
  - destruct (getFreshIndex_tail_bound fuel cfg fmt branch N0 N0 w) as (r' & k' & Hrun' & Hr');
      [lia|done|intros j ??; lia|lia|].
    assert (r' = r) as -> by congruence.
    apply (lookAheadLoop_returns cfg fmt branch pna fuel N0); try done; try lia.
    intros j ??; lia.
Qed.

Lemma setLookAhead_branches_returns cfg fmt pna fuel Nmax :
  derivationInjective cfg →
  Nat.max Nmax 1 + gapLimit (currencyInfo cfg) + 2 ≤ fuel →
  ∀ branches w,
    NoDup branches →
    storeInv cfg (processor w) → noImported (processor w) →
    (∀ branch, branch ∈ branches →
       ∃ N, N ≤ Nmax ∧ branchHolds (processor w) fmt branch N) →
    ∃ w', forEach branches (λ branch,
            freshIndex <- getFreshIndex fuel cfg fmt branch true ;;
            addressCount <- fetchAddressCountFromPathPartition fmt branch ;;
            lookAheadLoop fuel fuel cfg fmt branch pna addressCount freshIndex) w
          = Ok tt w'.
Proof.
  intros Hinj Hfuel. induction branches as [|b rest IH];
    intros w Hnd Hinv Hno Hall; simpl; [by exists w|].
  apply NoDup_cons in Hnd as [Hnotin Hnd].
  destruct (Hall b (list_elem_of_here _ _)) as (N & HN & Hb).
  destruct (setLookAhead_branch_returns cfg fmt pna fuel b N w) as (w1 & Hrun & Hno1);
    try done; [lia|].
  rewrite (bind_Ok _ _ _ _ _ Hrun).
  destruct (setLookAhead_branch_post cfg fmt pna fuel b w w1 Hinj Hinv Hrun)
    as (Hinv1 & _ & Hkept).
  apply IH; try done.
  intros b' Hin. destruct (Hall b' (list_elem_of_further _ _ _ Hin)) as (N' & HN' & Hb').
  exists N'. split; [done|]. eapply branchHolds_agree; [|exact Hb'].
  apply Hkept. intros [= ->]. by apply Hnotin.
Qed.

(** With enough fuel [setLookAhead] returns. *)
Lemma setLookAhead_returns fuel cfg fmt pna w Nmax :
  derivationInjective cfg → storeInv cfg (processor w) → noImported (processor w) →
  (∀ branch, branch ∈ getFormatSupportedBranches fmt →
     ∃ N, N ≤ Nmax ∧ branchHolds (processor w) fmt branch N) →
  Nat.max Nmax 1 + gapLimit (currencyInfo cfg) + 2 ≤ fuel →
  ∃ w', setLookAhead fuel cfg fmt pna w = Ok tt w'.
Proof.
  intros Hinj Hinv Hno Hall Hfuel. unfold setLookAhead.
  unfold bind at 1, emit, modify. simpl.
  apply (setLookAhead_branches_returns cfg fmt pna fuel Nmax); try done.
  unfold getFormatSupportedBranches.
  destruct (currencyFormatToPurposeType fmt); repeat constructor; set_solver.
Qed.

Lemma unary_inj n m : unary n = unary m → n = m.
Proof.
  revert m. induction n as [|n IH]; intros [|m]; simpl; try done.
  intros [= H]. f_equal. by apply IH.
Qed.

Lemma sampleScriptPubkey_inj p q :
  sampleScriptPubkey p = sampleScriptPubkey q → p = q.
Proof.
  destruct p as [f c i], q as [f' c' i']. unfold sampleScriptPubkey; simpl.
  intros [= Hf Hrest].
  assert (f = f') as -> by (by destruct f, f').
  assert (c = c' ∧ i = i') as [-> ->]; [|done].
  clear Hf. revert c' Hrest. induction c as [|c IH]; intros [|c']; simpl; try done.
  - intros [= H]. split; [done|]. by apply unary_inj.
  - intros [= H]. destruct (IH _ H) as [-> ->]. done.
Qed.

Lemma sampleConfig_injective gap purpose bb :
  derivationInjective (sampleConfig gap purpose bb).
Proof. intros p q H. by apply sampleScriptPubkey_inj. Qed.

(** ** Look-ahead generation: how far a branch is extended *)


















(** ** The sample stores are well formed *)



(** ** Look-ahead generation: the gap after the last used address *)







(** On the sample branch (records 0 and 2 used, gap limit 2) the scan
    starts at the used record 2, so the first unused index is 3 and the
    call adds the fifth address; the empty change branch gets two. *)
Example setLookAhead_sample :
  ∃ w', setLookAhead 10 (sampleConfig 2 Segwit quietBlockBook) bip84 true
          (worldOf (sampleStore bip84 0 sampleFlags)) = Ok tt w'
        ∧ addressCount (processor w') bip84 0 = 5
        ∧ addressCount (processor w') bip84 1 = 2
        ∧ mutexQueue w' = ["@d01111"; "@d10"; "@d101"].
Proof. eexists. split; [vm_compute; reflexivity|]. by vm_compute. Qed.

(* ===================================================================== *)
(** * Part III: Bitcoin Cash addresses                                     *)
(* ===================================================================== *)

Section CashAddressChecksum.
Import CashAddress.

(** The checksum register changes linearly over GF(2): a round is the
    round on a zero symbol, [advance], with the symbol added on top. *)
Definition advance (checksum : N) : N := polymodStep checksum 0.

Definition condXor (topBits : N) (c : N) (ig : nat * N) : N :=
  if (N.land (N.shiftr topBits (N.of_nat ig.1)) 1 =? 1)%N
  then N.lxor c ig.2 else c.

Lemma polymodStep_fold (checksum value : N) :
  polymodStep checksum value =
  foldl (condXor (N.shiftr checksum 35))
        (N.lxor (N.shiftl (N.land checksum 0x07ffffffff) 5) value)
        (imap pair GENERATOR).
Proof. reflexivity. Qed.

Lemma condXor_testbit (t c : N) (ig : nat * N) :
  condXor t c ig = if N.testbit t (N.of_nat ig.1) then N.lxor c ig.2 else c.
Proof.
  unfold condXor.
  change 1%N with (N.ones 1) at 1.
  rewrite N.land_ones, N.pow_1_r, <- N.bit0_eqb, N.shiftr_spec', N.add_0_l.
  reflexivity.
Qed.

Lemma lxor_swap (a b c : N) : N.lxor (N.lxor a b) c = N.lxor (N.lxor a c) b.
Proof. by rewrite !N.lxor_assoc, (N.lxor_comm b c). Qed.

Lemma foldl_condXor_value (t : N) (l : list (nat * N)) (a v : N) :
  foldl (condXor t) (N.lxor a v) l = N.lxor (foldl (condXor t) a l) v.
Proof.
  revert a. induction l as [|ig l IH]; intros a; simpl; [done|].
  rewrite <- IH. f_equal.
  rewrite !condXor_testbit. destruct (N.testbit _ _); [apply lxor_swap|done].
Qed.

Lemma foldl_condXor_lxor (t1 t2 : N) (l : list (nat * N)) (a b : N) :
  foldl (condXor (N.lxor t1 t2)) (N.lxor a b) l =
  N.lxor (foldl (condXor t1) a l) (foldl (condXor t2) b l).
Proof.
  revert a b. induction l as [|ig l IH]; intros a b; simpl; [done|].
  rewrite <- IH. f_equal.
  rewrite !condXor_testbit, N.lxor_spec.
  destruct (N.testbit t1 _), (N.testbit t2 _); simpl.
  - apply N.bits_inj; intros i. rewrite !N.lxor_spec.
    by destruct (N.testbit a i), (N.testbit b i), (N.testbit ig.2 i).
  - apply lxor_swap.
  - by rewrite N.lxor_assoc.
  - done.
Qed.

Lemma land_lxor_distr (a b c : N) :
  N.land (N.lxor a b) c = N.lxor (N.land a c) (N.land b c).
Proof.
  apply N.bits_inj; intros i. rewrite !N.lxor_spec, !N.land_spec, N.lxor_spec.
  by destruct (N.testbit a i), (N.testbit b i), (N.testbit c i).
Qed.

Lemma polymodStep_advance (checksum value : N) :
  polymodStep checksum value = N.lxor (advance checksum) value.
Proof.
  unfold advance. rewrite !polymodStep_fold, N.lxor_0_r.
  apply foldl_condXor_value.
Qed.

Lemma advance_lxor (x y : N) :
  advance (N.lxor x y) = N.lxor (advance x) (advance y).
Proof.
  unfold advance. rewrite !polymodStep_fold, !N.lxor_0_r.
  rewrite N.shiftr_lxor, land_lxor_distr, N.shiftl_lxor.
  apply foldl_condXor_lxor.
Qed.

Lemma advance_0 : advance 0 = 0%N.
Proof. reflexivity. Qed.

Lemma polymodStep_lxor (x y value : N) :
  polymodStep (N.lxor x y) value = N.lxor (polymodStep x value) (advance y).
Proof.
  rewrite !polymodStep_advance, advance_lxor. apply lxor_swap.
Qed.

(** The register never outgrows 40 bits once a round has run. *)
Lemma lxor_lt_pow2 (a b n : N) :
  (a < 2 ^ n → b < 2 ^ n → N.lxor a b < 2 ^ n)%N.
Proof.
  intros Ha Hb.
  destruct (decide (N.lxor a b = 0%N)) as [->|Hne].
  { apply N.neq_0_lt_0, N.pow_nonzero. done. }
  apply N.log2_lt_pow2; [lia|].
  eapply N.le_lt_trans; [apply N.log2_lxor|].
  destruct (decide (a = 0%N)) as [->|Ha0];
    destruct (decide (b = 0%N)) as [->|Hb0].
  - by rewrite N.lxor_0_l in Hne.
  - rewrite N.max_r by (simpl; lia). apply N.log2_lt_pow2; [lia|done].
  - rewrite N.max_l by (simpl; lia). apply N.log2_lt_pow2; [lia|done].
  - apply N.max_lub_lt; apply N.log2_lt_pow2; (lia || done).
Qed.

Lemma foldl_condXor_lt (t : N) (l : list (nat * N)) (a n : N) :
  Forall (λ ig, ig.2 < 2 ^ n)%N l → (a < 2 ^ n)%N →
  (foldl (condXor t) a l < 2 ^ n)%N.
Proof.
  intros Hl. revert a. induction Hl as [|ig l Hig Hl IH]; intros a Ha; simpl; [done|].
  apply IH. unfold condXor. destruct (_ =? _)%N; [by apply lxor_lt_pow2|done].
Qed.

Lemma GENERATOR_lt : Forall (λ ig : nat * N, ig.2 < 2 ^ 40)%N (imap pair GENERATOR).
Proof. repeat constructor. Qed.

Lemma shift_mask_lt (c : N) : (N.shiftl (N.land c 0x07ffffffff) 5 < 2 ^ 40)%N.
Proof.
  change 0x07ffffffff%N with (N.ones 35).
  rewrite N.land_ones, N.shiftl_mul_pow2.
  pose proof (N.mod_lt c (2 ^ 35)) as H.
  change (2 ^ 40)%N with (2 ^ 35 * 2 ^ 5)%N. lia.
Qed.

Lemma advance_lt (c : N) : (advance c < 2 ^ 40)%N.
Proof.
  unfold advance. rewrite polymodStep_fold, N.lxor_0_r.
  apply foldl_condXor_lt; [apply GENERATOR_lt|apply shift_mask_lt].
Qed.

Lemma advance_small (y : N) : (y < 2 ^ 35)%N → advance y = (y * 32)%N.
Proof.
  intros Hy. unfold advance. rewrite polymodStep_fold, N.lxor_0_r.
  rewrite (N.shiftr_eq_0 y 35).
  2:{ destruct (decide (y = 0%N)) as [->|]; [done|]. apply N.log2_lt_pow2; lia. }
  change 0x07ffffffff%N with (N.ones 35).
  rewrite N.land_ones, N.mod_small, N.shiftl_mul_pow2 by done.
  reflexivity.
Qed.

(** The number spelt by a row of 5-bit symbols, most significant first. *)
Definition valueOf (y : N) (vs : list N) : N := foldl (λ a d, a * 32 + d)%N y vs.

Lemma testbit_small (v i n : N) : (v < 2 ^ n → n ≤ i → N.testbit v i = false)%N.
Proof.
  intros Hv Hi. destruct (decide (v = 0%N)) as [->|Hne]; [apply N.bits_0|].
  apply N.bits_above_log2. eapply N.lt_le_trans; [|exact Hi].
  apply N.log2_lt_pow2; [lia|done].
Qed.

Lemma lxor_shifted (y v : N) : (v < 32)%N → N.lxor (y * 32) v = (y * 32 + v)%N.
Proof.
  intros Hv. symmetry. apply N.add_nocarry_lxor.
  apply N.bits_inj; intros i. rewrite N.land_spec, N.bits_0.
  destruct (decide (i < 5)%N) as [Hi|Hi].
  - change 32%N with (2 ^ 5)%N. rewrite N.mul_pow2_bits_low by done. reflexivity.
  - rewrite (testbit_small v i 5) by (done || lia). apply andb_false_r.
Qed.

Lemma foldl_polymodStep_symbols (vs : list N) (k : nat) (x y : N) :
  Forall (λ v, v < 32)%N vs → k + length vs = 8 → (y < 32 ^ N.of_nat k)%N →
  foldl polymodStep (N.lxor x y) vs =
  N.lxor (foldl polymodStep x (replicate (length vs) 0%N)) (valueOf y vs).
Proof.
  intros Hvs. revert k x y.
  induction Hvs as [|v vs Hv Hvs IH]; intros k x y Hk Hy; simpl; [done|].
  simpl in Hk.
  assert (y < 2 ^ 35)%N as Hy35.
  { eapply N.lt_le_trans; [exact Hy|].
    change (2 ^ 35)%N with (32 ^ 7)%N. apply N.pow_le_mono_r; lia. }
  rewrite polymodStep_lxor, (polymodStep_advance x v), (advance_small y) by done.
  replace (N.lxor (N.lxor (advance x) v) (y * 32))
    with (N.lxor (advance x) (y * 32 + v)).
  2:{ by rewrite <- lxor_shifted, (N.lxor_comm (y * 32)), N.lxor_assoc. }
  apply (IH (S k) (advance x) (y * 32 + v)%N); [lia|].
  rewrite Nat2N.inj_succ, N.pow_succ_r'. lia.
Qed.

Lemma checksumToArray_unfold (c : N) :
  checksumToArray c =
  map (λ i, N.land (N.shiftr c i) 31) [35; 30; 25; 20; 15; 10; 5; 0]%N.
Proof.
  unfold checksumToArray. simpl. by rewrite !N.shiftr_shiftr.
Qed.

Lemma checksumToArray_range (c : N) : Forall (λ v, v < 32)%N (checksumToArray c).
Proof.
  rewrite checksumToArray_unfold. apply Forall_map, Forall_forall. intros i _. simpl.
  change 31%N with (N.ones 5). rewrite N.land_ones. by apply N.mod_lt.
Qed.

Lemma checksumToArray_length (c : N) : length (checksumToArray c) = 8.
Proof. by rewrite checksumToArray_unfold. Qed.

Lemma horner_step (x : N) : (N.shiftr x 5 * 32 + N.land x 31 = x)%N.
Proof.
  change 31%N with (N.ones 5). rewrite N.land_ones, N.shiftr_div_pow2.
  change (2 ^ 5)%N with 32%N.
  rewrite (N.div_mod x 32) at 3 by done. lia.
Qed.

Lemma checksumToArray_value (c : N) :
  (c < 2 ^ 40)%N → valueOf 0 (checksumToArray c) = c.
Proof.
  intros Hc. unfold checksumToArray, valueOf. cbn [checksumLoop app rev foldl].
  assert (N.shiftr (N.shiftr (N.shiftr (N.shiftr (N.shiftr (N.shiftr
            (N.shiftr (N.shiftr c 5) 5) 5) 5) 5) 5) 5) 5 = 0%N) as H8.
  { rewrite !N.shiftr_shiftr. simpl. apply N.shiftr_eq_0.
    destruct (decide (c = 0%N)) as [->|]; [done|]. apply N.log2_lt_pow2; lia. }
  rewrite <- H8 at 1. by rewrite !horner_step.
Qed.

(** The checksum that [hashToCashAddress] appends makes [polymod] of the
    whole row vanish. *)
Lemma polymod_checksum (d : list N) :
  polymod (d ++ checksumToArray (polymod (d ++ replicate 8 0%N))) = 0%N.
Proof.
  unfold polymod. rewrite !foldl_app.
  set (s := foldl polymodStep 1%N d).
  set (c := N.lxor (foldl polymodStep s (replicate 8 0%N)) 1).
  assert (c < 2 ^ 40)%N as Hc.
  { apply lxor_lt_pow2; [|done]. simpl.
    rewrite (polymodStep_advance _ 0), N.lxor_0_r. apply advance_lt. }
  rewrite <- (N.lxor_0_r s) at 1.
  rewrite (foldl_polymodStep_symbols _ 0);
    [|apply checksumToArray_range|by rewrite checksumToArray_length|done].
  rewrite checksumToArray_length, checksumToArray_value by done.
  unfold c. rewrite <- N.lxor_assoc, N.lxor_nilpotent, N.lxor_0_l.
  reflexivity.
Qed.

(** X1. A row of symbols followed by the checksum that [hashToCashAddress]
    computes for it passes [validChecksum] under the same prefix, whatever
    the prefix and the symbols are. *)
Theorem checksum_valid (prefix : string) (payloadData : list N) :
  let prefixData := prefixToArray prefix ++ [0%N] in
  let eight0 := [0; 0; 0; 0; 0; 0; 0; 0]%N in
  let checksumData := (prefixData ++ payloadData) ++ eight0 in
  validChecksum prefix (payloadData ++ checksumToArray (polymod checksumData)) = true.
Proof.
  intros prefixData eight0 checksumData. unfold validChecksum.
  fold prefixData. rewrite app_assoc.
  unfold checksumData. change eight0 with (replicate 8 0%N).
  rewrite polymod_checksum. reflexivity.
Qed.

(** *** A wrong symbol is noticed *)

Lemma foldl_polymodStep_lxor (vs : list N) (x y : N) :
  foldl polymodStep (N.lxor x y) vs =
  N.lxor (foldl polymodStep x vs) (Nat.iter (length vs) advance y).
Proof.
  revert x y. induction vs as [|v vs IH]; intros x y; simpl; [done|].
  rewrite polymodStep_lxor, IH. f_equal.
  clear. induction (length vs) as [|n IHn]; simpl; [done|]. by rewrite IHn.
Qed.

Lemma advance_eq_0 (y : N) : (y < 2 ^ 40)%N → advance y = 0%N → y = 0%N.
Proof.
  intros Hy. unfold advance. rewrite polymodStep_fold, N.lxor_0_r.
  change 0x07ffffffff%N with (N.ones 35).
  rewrite N.land_ones, N.shiftl_mul_pow2, N.shiftr_div_pow2.
  pose proof (N.div_mod y (2 ^ 35) ltac:(done)) as Hdiv.
  assert (y / 2 ^ 35 < 32)%N as Ht.
  { apply N.Div0.div_lt_upper_bound. exact Hy. }
  set (base := (y mod 2 ^ 35 * 2 ^ 5)%N).
  assert (∀ i, (i < 5)%N → N.testbit base i = false) as Hlow.
  { intros i Hi. unfold base. by apply N.mul_pow2_bits_low. }
  pose proof (Hlow 0%N ltac:(done)) as H0.
  pose proof (Hlow 1%N ltac:(done)) as H1.
  pose proof (Hlow 2%N ltac:(done)) as H2.
  pose proof (Hlow 3%N ltac:(done)) as H3.
  pose proof (Hlow 4%N ltac:(done)) as H4.
  assert (base = 0%N → (y mod 2 ^ 35 = 0)%N) as Hbase by (unfold base; lia).
  clearbody base. clear Hlow.
  let l := eval vm_compute in (imap pair GENERATOR) in
    change (imap pair GENERATOR) with l.
  cbn [foldl]. rewrite !condXor_testbit. cbn [fst snd].
  destruct (y / 2 ^ 35)%N as [|p] eqn:Et.
  - simpl. intros H. apply Hbase in H. lia.
  - intros H. exfalso.
    assert (∀ i, N.testbit 0 i = false) as Hbits by apply N.bits_0.
    rewrite <- H in Hbits.
    pose proof (Hbits 0%N) as B0. pose proof (Hbits 1%N) as B1.
    pose proof (Hbits 2%N) as B2. pose proof (Hbits 3%N) as B3.
    pose proof (Hbits 4%N) as B4.
    clear H Hbits Hdiv Hy Hbase.
    do 5 (try (destruct p as [p|p|]; try lia));
      simpl in B0, B1, B2, B3, B4;
      rewrite ?N.lxor_spec in B0, B1, B2, B3, B4;
      rewrite H0 in B0; rewrite H1 in B1; rewrite H2 in B2;
      rewrite H3 in B3; rewrite H4 in B4;
      simpl in B0, B1, B2, B3, B4; congruence.
Qed.

Lemma iter_advance_ne_0 (n : nat) (y : N) :
  (y < 2 ^ 40)%N → y ≠ 0%N → Nat.iter n advance y ≠ 0%N.
Proof.
  intros Hy Hne.
  cut (Nat.iter n advance y ≠ 0%N ∧ (Nat.iter n advance y < 2 ^ 40)%N); [tauto|].
  induction n as [|n [IH1 IH2]]; simpl; [done|].
  split; [|apply advance_lt].
  intros H. by apply advance_eq_0 in H.
Qed.

Lemma validChecksum_one_symbol
    (prefix : string) (before after : list N) (v v' : N) :
  (v < 32)%N → (v' < 32)%N → v ≠ v' →
  validChecksum prefix (before ++ v :: after) = true →
  validChecksum prefix (before ++ v' :: after) = false.
Proof.
  intros Hv Hv' Hne. unfold validChecksum, polymod.
  rewrite !(app_assoc _ before), !(foldl_app _ _ (v :: after)),
    !(foldl_app _ _ (v' :: after)).
  cbn [foldl].
  set (t := foldl polymodStep 1%N ((prefixToArray prefix ++ [0%N]) ++ before)).
  assert (polymodStep t v' = N.lxor (polymodStep t v) (N.lxor v v')) as ->.
  { rewrite !polymodStep_advance, N.lxor_assoc, <- (N.lxor_assoc v).
    by rewrite N.lxor_nilpotent, N.lxor_0_l. }
  rewrite foldl_polymodStep_lxor.
  set (e := Nat.iter (length after) advance (N.lxor v v')).
  assert (e ≠ 0%N) as He.
  { apply iter_advance_ne_0.
    - eapply N.lt_trans; [apply (lxor_lt_pow2 v v' 5); done|done].
    - intros H. by apply N.lxor_eq in H. }
  intros H%N.eqb_eq. apply N.eqb_neq. intros H'.
  rewrite lxor_swap, H, N.lxor_0_l in H'. done.
Qed.

(** X2. Replacing one 5-bit symbol of a row that passes [validChecksum],
    anywhere in it, by a different 5-bit symbol gives a row that fails. *)
Theorem validChecksum_detects_one_symbol
    (prefix : string) (before after : list N) (v v' : N) :
  (v < 32)%N → (v' < 32)%N → v ≠ v' →
  validChecksum prefix (before ++ v :: after) = true →
  validChecksum prefix (before ++ v' :: after) = false.
Proof. apply validChecksum_one_symbol. Qed.

Lemma validChecksum_detects_one_symbol_witness :
  let payload := [0; 3; 12; 24; 13; 27; 8; 1; 22; 30; 17; 2; 4; 9; 13; 7; 1;
                  27; 13; 31; 5; 14; 19; 28; 31; 13; 17; 26; 2; 23; 5; 19; 21;
                  8; 27; 16; 7; 16; 15; 28; 20; 5]%N in
  validChecksum "bitcoincash" payload = true ∧
  validChecksum "bitcoincash" (<[2 := 13%N]> payload) = false.
Proof.
  split; [vm_compute; reflexivity|].
  apply (validChecksum_detects_one_symbol "bitcoincash" [0; 3]%N _ 12 13);
    [done|done|done|vm_compute; reflexivity].
Defined.
End CashAddressChecksum.

Section CashAddressBits.
Import CashAddress.
Local Open Scope Z_scope.

(** *** 32-bit operators as arithmetic *)

Lemma ToInt32_range (z : Z) : - 2 ^ 31 ≤ ToInt32 z < 2 ^ 31.
Proof.
  unfold ToInt32. pose proof (Z.mod_pos_bound (z + 2 ^ 31) (2 ^ 32) ltac:(done)).
  change (2 ^ 32) with (2 * 2 ^ 31) in *. lia.
Qed.

Lemma ToInt32_id (z : Z) : - 2 ^ 31 ≤ z < 2 ^ 31 → ToInt32 z = z.
Proof.
  intros Hz. unfold ToInt32. rewrite Z.mod_small; [lia|].
  change (2 ^ 32) with (2 * 2 ^ 31). lia.
Qed.

Lemma ToInt32_mod (z : Z) : ToInt32 z mod 2 ^ 32 = z mod 2 ^ 32.
Proof.
  unfold ToInt32.
  rewrite <- (Z.add_opp_r _ (2 ^ 31)), Z.add_mod, Z.mod_mod by done.
  rewrite <- Z.add_mod by done. f_equal. lia.
Qed.

Lemma mod_mul_congr (a b c : Z) :
  a mod 2 ^ 32 = b mod 2 ^ 32 → (a * c) mod 2 ^ 32 = (b * c) mod 2 ^ 32.
Proof.
  intros H. by rewrite (Z.mul_mod a), (Z.mul_mod b), H by done.
Qed.

Lemma mod_add_congr (a b c : Z) :
  a mod 2 ^ 32 = b mod 2 ^ 32 → (a + c) mod 2 ^ 32 = (b + c) mod 2 ^ 32.
Proof.
  intros H. by rewrite (Z.add_mod a), (Z.add_mod b), H by done.
Qed.

Lemma div_mod_congr (a b k t : Z) :
  0 ≤ k → 0 ≤ t → k + t ≤ 32 → a mod 2 ^ 32 = b mod 2 ^ 32 →
  (a / 2 ^ k) mod 2 ^ t = (b / 2 ^ k) mod 2 ^ t.
Proof.
  intros Hk Ht Hkt H. apply Z.bits_inj'; intros i Hi.
  destruct (decide (i < t)) as [Hit|Hit].
  - rewrite !Z.mod_pow2_bits_low, !Z.div_pow2_bits by lia.
    rewrite <- (Z.mod_pow2_bits_low a 32), <- (Z.mod_pow2_bits_low b 32) by lia.
    by rewrite H.
  - by rewrite !Z.mod_pow2_bits_high by lia.
Qed.

Lemma land_31 (k : Z) : 0 ≤ k ≤ 31 → Z.land k 31 = k.
Proof.
  intros Hk. change 31 with (Z.ones 5). rewrite Z.land_ones by done.
  apply Z.mod_small. change (2 ^ 5) with 32. lia.
Qed.

Lemma pow2_le_31 (k : Z) : 0 ≤ k ≤ 31 → 0 < 2 ^ k ≤ 2 ^ 31.
Proof.
  intros Hk. split; [apply Z.pow_pos_nonneg; lia|].
  apply Z.pow_le_mono_r; lia.
Qed.

(** The mask [(1 << to) - 1] selects the low [to] bits. *)
Lemma mask_spec (to x : Z) :
  0 ≤ to ≤ 31 → band x (shl 1 to - 1) = ToInt32 x mod 2 ^ to.
Proof.
  intros Hto. unfold band.
  assert (ToInt32 (shl 1 to - 1) = Z.ones to) as ->; [|apply Z.land_ones; lia].
  destruct (decide (to = 31)) as [->|Hne]; [reflexivity|].
  unfold shl. rewrite land_31 by lia.
  rewrite (ToInt32_id 1) by done.
  rewrite Z.shiftl_1_l, Z.ones_equiv.
  assert (0 < 2 ^ to ≤ 2 ^ 30) as Hp.
  { split; [apply Z.pow_pos_nonneg; lia|apply Z.pow_le_mono_r; lia]. }
  change (2 ^ 30) with 1073741824 in Hp.
  rewrite (ToInt32_id (2 ^ to)); [|change (2 ^ 31) with 2147483648; lia].
  rewrite ToInt32_id; [|change (2 ^ 31) with 2147483648; lia].
  lia.
Qed.

(** [(accumulator >> k) & mask] reads [to] bits of the unbounded
    accumulator from bit [k] on, as long as they lie below bit 32. *)
Lemma read_spec (acc A k to : Z) :
  0 ≤ k → 0 < to → k + to ≤ 32 → to ≤ 31 → acc mod 2 ^ 32 = A mod 2 ^ 32 →
  band (sar acc k) (shl 1 to - 1) = (A / 2 ^ k) mod 2 ^ to.
Proof.
  intros Hk Hto Hkt Hto' Hacc.
  rewrite mask_spec by lia. unfold sar. rewrite land_31 by lia.
  rewrite Z.shiftr_div_pow2 by done.
  pose proof (ToInt32_range acc) as Hr.
  rewrite ToInt32_id.
  - apply div_mod_congr; try lia. by rewrite ToInt32_mod.
  - pose proof (pow2_le_31 k ltac:(lia)) as Hp.
    change (2 ^ 31) with 2147483648 in *.
    split.
    + apply Z.div_le_lower_bound; [lia|]. nia.
    + apply Z.div_lt_upper_bound; [lia|]. nia.
Qed.

(** [(accumulator << from) | value] appends the [from] bits of [value]. *)
Lemma append_spec (acc A from value : Z) :
  0 ≤ from ≤ 31 → 0 ≤ value < 2 ^ from → acc mod 2 ^ 32 = A mod 2 ^ 32 →
  bor (shl acc from) value mod 2 ^ 32 = (A * 2 ^ from + value) mod 2 ^ 32.
Proof.
  intros Hfrom Hv Hacc. unfold bor, shl. rewrite land_31 by done.
  rewrite Z.shiftl_mul_pow2 by lia.
  pose proof (pow2_le_31 from Hfrom) as Hp.
  rewrite (ToInt32_id value) by lia.
  set (X := ToInt32 (ToInt32 (ToInt32 acc * 2 ^ from))).
  assert (X mod 2 ^ 32 = (A * 2 ^ from) mod 2 ^ 32) as HX.
  { unfold X. rewrite !ToInt32_mod. apply mod_mul_congr. by rewrite ToInt32_mod. }
  assert (Z.land X value = 0) as Hland.
  { apply Z.bits_inj'; intros i Hi. rewrite Z.land_spec, Z.bits_0.
    destruct (decide (i < from)) as [Hlt|Hge].
    - rewrite <- (Z.mod_pow2_bits_low X 32), HX by lia.
      rewrite Z.mod_pow2_bits_low, Z.mul_pow2_bits_low by lia. reflexivity.
    - rewrite <- (Z.mod_small value (2 ^ from)) by lia.
      rewrite (Z.mod_pow2_bits_high value) by lia. apply andb_false_r. }
  rewrite <- Z.lxor_lor, <- Z.add_nocarry_lxor by done.
  rewrite Z.add_mod, HX, <- Z.add_mod by done. reflexivity.
Qed.

(** [value < 0 || value >> from !== 0] holds of no [from]-bit number. *)
Lemma check_passes (from value : Z) :
  0 ≤ from ≤ 31 → 0 ≤ value < 2 ^ from →
  (value <? 0) || negb (sar value from =? 0) = false.
Proof.
  intros Hfrom Hv. pose proof (pow2_le_31 from Hfrom) as Hp.
  unfold sar. rewrite land_31, ToInt32_id, Z.shiftr_div_pow2 by lia.
  rewrite Z.div_small by done. simpl.
  rewrite orb_false_r. apply Z.ltb_ge. lia.
Qed.

(** *** What the loops of [convertBits] keep *)

(** The number spelt by a row of [w]-bit digits, most significant first,
    continuing the number [a]. *)
Definition valOf (w a : Z) (l : list Z) : Z := foldl (λ a d, a * 2 ^ w + d) a l.

Definition digits (w : Z) (l : list Z) : Prop := Forall (λ d, 0 ≤ d < 2 ^ w) l.

(** After [n] input symbols, which spell [A]: the accumulator is [A] up to
    its 32 bits, [bits] of its low bits are still to be written, and
    [result] spells the bits above them. *)
Record loopInv (from to n A acc bits : Z) (result : list Z) : Prop := mkLoopInv {
  inv_acc : acc mod 2 ^ 32 = A mod 2 ^ 32;
  inv_bits : 0 ≤ bits;
  inv_digits : digits to result;
  inv_value : valOf to 0 result = A / 2 ^ bits;
  inv_length : Z.of_nat (length result) * to + bits = n * from
}.

Lemma valOf_snoc (w a : Z) (l : list Z) (d : Z) :
  valOf w a (l ++ [d]) = valOf w a l * 2 ^ w + d.
Proof. unfold valOf. by rewrite foldl_app. Qed.

Lemma drain_spec (fuel : nat) (from to n A acc bits : Z) (result : list Z) :
  0 < to ≤ 31 → bits ≤ 32 → (Z.to_nat bits < fuel)%nat →
  loopInv from to n A acc bits result →
  ∃ bits' result',
    drain fuel to acc (shl 1 to - 1) bits result = Some (bits', result') ∧
    bits' < to ∧ loopInv from to n A acc bits' result'.
Proof.
  intros Hto. revert bits result.
  induction fuel as [|fuel IH]; intros bits result Hb Hfuel Hinv; [lia|].
  simpl. destruct (to <=? bits) eqn:Hle.
  - apply Z.leb_le in Hle. destruct Hinv as [Hacc Hbits Hdig Hval Hlen].
    apply IH; [lia|lia|].
    rewrite (read_spec acc A) by (done || lia).
    assert (0 < 2 ^ to) as Hpt by (apply Z.pow_pos_nonneg; lia).
    assert (0 < 2 ^ (bits - to)) as Hpb by (apply Z.pow_pos_nonneg; lia).
    split.
    + done.
    + lia.
    + apply Forall_app. split; [done|]. apply Forall_singleton.
      by apply Z.mod_pos_bound.
    + rewrite valOf_snoc, Hval.
      replace bits with ((bits - to) + to) at 1 by lia.
      rewrite Z.pow_add_r, <- Z.div_div by lia.
      pose proof (Z.div_mod (A / 2 ^ (bits - to)) (2 ^ to) ltac:(lia)). lia.
    + rewrite length_app, Nat2Z.inj_add. simpl. lia.
  - apply Z.leb_gt in Hle. eauto.
Qed.

Lemma convertLoop_spec (fuel : nat) (data : list Z)
    (from to n A acc bits : Z) (result : list Z) :
  0 < from → 0 < to → from + to ≤ 32 → (Z.to_nat (from + to) ≤ fuel)%nat →
  digits from data → bits < to →
  loopInv from to n A acc bits result →
  ∃ acc' bits' result',
    convertLoop fuel data from to (shl 1 to - 1) acc bits result =
      Returns (acc', bits', result') ∧
    bits' < to ∧
    loopInv from to (n + Z.of_nat (length data)) (valOf from A data)
            acc' bits' result'.
Proof.
  intros Hfrom Hto Hsum Hfuel Hdata. revert n A acc bits result.
  induction Hdata as [|value data Hv Hdata IH];
    intros n A acc bits result Hb Hinv.
  { simpl. rewrite Z.add_0_r. by exists acc, bits, result. }
  cbn [convertLoop]. rewrite check_passes by (done || lia).
  destruct Hinv as [Hacc Hbits Hdig Hval Hlen].
  assert (0 < 2 ^ from) as Hpf by (apply Z.pow_pos_nonneg; lia).
  assert (0 < 2 ^ bits) as Hpb by (apply Z.pow_pos_nonneg; lia).
  assert (loopInv from to (n + 1) (A * 2 ^ from + value)
            (bor (shl acc from) value) (bits + from) result) as Hinv1.
  { split.
    - apply append_spec; (done || lia).
    - lia.
    - done.
    - rewrite Hval, (Z.add_comm bits), Z.pow_add_r, <- Z.div_div by lia.
      by rewrite Z.div_add_l, (Z.div_small value), Z.add_0_r by lia.
    - lia. }
  destruct (drain_spec fuel from to (n + 1) (A * 2 ^ from + value)
              (bor (shl acc from) value) (bits + from) result
              ltac:(lia) ltac:(lia) ltac:(lia) Hinv1)
    as (bits' & result' & -> & Hb' & Hinv').
  destruct (IH (n + 1) (A * 2 ^ from + value) (bor (shl acc from) value)
              bits' result' Hb' Hinv') as (acc'' & bits'' & result'' & Hrun & Hb'' & Hinv'').
  exists acc'', bits'', result''. split; [done|]. split; [done|].
  cbn [length valOf foldl]. rewrite Nat2Z.inj_succ.
  by replace (n + Z.succ (Z.of_nat (length data)))
    with (n + 1 + Z.of_nat (length data)) by lia.
Qed.

Lemma loopInv_start (from to : Z) : loopInv from to 0 0 0 0 [].
Proof. split; [done|done|constructor|done|simpl; lia]. Qed.

(** A row of digits is fixed by its length and the number it spells. *)
Lemma valOf_inj (w : Z) (l1 l2 : list Z) :
  0 ≤ w → digits w l1 → digits w l2 → length l1 = length l2 →
  valOf w 0 l1 = valOf w 0 l2 → l1 = l2.
Proof.
  intros Hw. revert l2.
  induction l1 as [|d1 l1 IH] using rev_ind;
    intros l2 H1 H2 Hlen Hval.
  { destruct l2; [done|]. simpl in Hlen. lia. }
  destruct l2 as [|d2 l2 _] using rev_ind.
  { rewrite length_app in Hlen. simpl in Hlen. lia. }
  apply Forall_app in H1 as [H1 Hd1%Forall_inv].
  apply Forall_app in H2 as [H2 Hd2%Forall_inv].
  rewrite !length_app in Hlen. simpl in Hlen.
  rewrite !valOf_snoc in Hval.
  assert (0 < 2 ^ w) as Hp by (apply Z.pow_pos_nonneg; lia).
  assert (valOf w 0 l1 = valOf w 0 l2 ∧ d1 = d2) as [Hv ->].
  { cbv beta in Hd1, Hd2. apply (Z.div_mod_unique (2 ^ w)); lia. }
  f_equal. apply IH; (done || lia).
Qed.

(** The padding [(accumulator << (to - bits)) & mask]. *)
Lemma pad_spec (acc A s to : Z) :
  0 ≤ s ≤ 31 → 0 < to ≤ 31 → acc mod 2 ^ 32 = A mod 2 ^ 32 →
  band (shl acc s) (shl 1 to - 1) = (A * 2 ^ s) mod 2 ^ to.
Proof.
  intros Hs Hto Hacc. rewrite mask_spec by lia.
  replace (ToInt32 (shl acc s)) with (ToInt32 (shl acc s) / 2 ^ 0)
    by apply Z.div_1_r.
  replace (A * 2 ^ s) with (A * 2 ^ s / 2 ^ 0) by apply Z.div_1_r.
  apply div_mod_congr; [done|lia|lia|].
  unfold shl. rewrite land_31, Z.shiftl_mul_pow2, !ToInt32_mod by lia.
  apply mod_mul_congr. by rewrite ToInt32_mod.
Qed.

Lemma pad_value (A bits to : Z) :
  0 ≤ bits ≤ to →
  (A / 2 ^ bits) * 2 ^ to + (A * 2 ^ (to - bits)) mod 2 ^ to = A * 2 ^ (to - bits).
Proof.
  intros Hb.
  assert (0 < 2 ^ bits) as Hpb by (apply Z.pow_pos_nonneg; lia).
  assert (0 < 2 ^ (to - bits)) as Hps by (apply Z.pow_pos_nonneg; lia).
  assert (2 ^ to = 2 ^ bits * 2 ^ (to - bits)) as Hpt.
  { rewrite <- Z.pow_add_r by lia. f_equal. lia. }
  pose proof (Z.div_mod A (2 ^ bits) ltac:(lia)) as Hdm.
  pose proof (Z.mod_pos_bound A (2 ^ bits) ltac:(lia)) as Hm.
  assert ((A * 2 ^ (to - bits)) mod 2 ^ to = (A mod 2 ^ bits) * 2 ^ (to - bits)) as ->.
  { symmetry. apply (Z.mod_unique_pos _ _ (A / 2 ^ bits)); [nia|].
    rewrite Hpt. nia. }
  rewrite Hpt. nia.
Qed.

(** *** Regrouping without [strict] *)

Lemma convertBits_loose (fuel : nat) (data : list Z) (from to : Z) :
  0 < from → 0 < to → from + to ≤ 32 → (Z.to_nat (from + to) ≤ fuel)%nat →
  digits from data →
  ∃ result pad,
    convertBits fuel data from to false = Returns result ∧
    digits to result ∧
    0 ≤ pad < to ∧
    Z.of_nat (length result) * to = Z.of_nat (length data) * from + pad ∧
    valOf to 0 result = valOf from 0 data * 2 ^ pad.
Proof.
  intros Hfrom Hto Hsum Hfuel Hdata. unfold convertBits.
  destruct (convertLoop_spec fuel data from to 0 0 0 0 [] Hfrom Hto Hsum Hfuel
              Hdata Hto (loopInv_start from to))
    as (acc & bits & result & -> & Hb & [Hacc Hbits Hdig Hval Hlen]).
  simpl negb. cbv iota. rewrite Z.add_0_l in Hlen.
  set (A := valOf from 0 data) in *.
  destruct (0 <? bits) eqn:Hpos.
  - apply Z.ltb_lt in Hpos.
    exists (result ++ [band (shl acc (to - bits)) (shl 1 to - 1)]), (to - bits).
    rewrite (pad_spec acc A) by (done || lia).
    assert (0 < 2 ^ to) as Hpt by (apply Z.pow_pos_nonneg; lia).
    split; [done|]. split; [|split; [lia|split]].
    + apply Forall_app. split; [done|]. apply Forall_singleton.
      by apply Z.mod_pos_bound.
    + rewrite length_app, Nat2Z.inj_add. simpl. lia.
    + rewrite valOf_snoc, Hval. apply pad_value. lia.
  - apply Z.ltb_ge in Hpos. assert (bits = 0) as -> by lia.
    exists result, 0. split; [done|]. split; [done|]. split; [lia|]. split; [lia|].
    rewrite Hval. simpl. by rewrite Z.div_1_r, Z.mul_1_r.
Qed.

(** X3. Without [strict], [convertBits] on [from]-bit symbols returns
    [to]-bit symbols, as many as hold all the input bits, which spell the
    input bits followed by zero bits. *)
Theorem convertBits_pads (fuel : nat) (data : list Z) (from to : Z) :
  0 < from → 0 < to → from + to ≤ 32 → (Z.to_nat (from + to) ≤ fuel)%nat →
  digits from data →
  ∃ result pad,
    convertBits fuel data from to false = Returns result ∧
    digits to result ∧
    0 ≤ pad < to ∧
    Z.of_nat (length result) * to = Z.of_nat (length data) * from + pad ∧
    valOf to 0 result = valOf from 0 data * 2 ^ pad.
Proof. apply convertBits_loose. Qed.

Lemma convertBits_pads_witness :
  digits 8 [0; 217; 134] ∧
  ∃ result pad,
    convertBits 13 [0; 217; 134] 8 5 false = Returns result ∧
    digits 5 result ∧
    0 ≤ pad < 5 ∧
    Z.of_nat (length result) * 5 = Z.of_nat (length [0; 217; 134]) * 8 + pad ∧
    valOf 5 0 result = valOf 8 0 [0; 217; 134] * 2 ^ pad.
Proof.
  assert (digits 8 [0; 217; 134]) as Hd by (repeat constructor; lia).
  split; [exact Hd|].
  apply (convertBits_pads 13 [0; 217; 134] 8 5); [lia|lia|lia|simpl; lia|exact Hd].
Defined.

(** *** Regrouping back *)

Lemma convertBits_back (fuel : nat) (data : list Z) (from to : Z) :
  0 < to ≤ from → from + to ≤ 32 → (Z.to_nat (from + to) ≤ fuel)%nat →
  digits from data →
  ∃ packed,
    convertBits fuel data from to false = Returns packed ∧
    digits to packed ∧
    convertBits fuel packed to from true = Returns data.
Proof.
  intros Hto Hsum Hfuel Hdata.
  destruct (convertBits_loose fuel data from to)
    as (packed & pad & Hrun & Hdig & Hpad & Hlen & Hval); [lia|lia|done|done|done|].
  exists packed. split; [done|]. split; [done|].
  unfold convertBits.
  destruct (convertLoop_spec fuel packed to from 0 0 0 0 [])
    as (acc & bits & result & -> & Hb & [Hacc Hbits Hdig' Hval' Hlen']);
    [lia|lia|lia|lia|done|lia|apply loopInv_start|].
  simpl negb. cbv iota. rewrite Z.add_0_l in Hlen'.
  rewrite Hval in Hacc, Hval'. set (A := valOf from 0 data) in *.
  assert (Z.of_nat (length result) = Z.of_nat (length data) ∧ bits = pad)
    as [Hn ->].
  { assert ((Z.of_nat (length result) - Z.of_nat (length data)) * from
            = pad - bits) as E by lia.
    assert (Z.of_nat (length result) - Z.of_nat (length data) = 0) by nia.
    lia. }
  assert (0 < 2 ^ pad) as Hpp by (apply Z.pow_pos_nonneg; lia).
  rewrite Z.div_mul in Hval' by lia.
  rewrite (pad_spec acc (A * 2 ^ pad)) by (done || lia).
  rewrite <- Z.mul_assoc, <- Z.pow_add_r by lia.
  replace (pad + (from - pad)) with from by lia.
  rewrite Z.mod_mul by lia.
  replace (to <=? pad) with false by (symmetry; apply Z.leb_gt; lia).
  simpl. f_equal. apply (valOf_inj from); [lia|done|done|lia|done].
Qed.

(** X4. Regrouping [from]-bit symbols into narrower [to]-bit symbols
    without [strict], then regrouping the result back with [strict], returns
    the symbols one started from; in particular the second call does not
    throw on the padding of the first. *)
Theorem convertBits_round_trip (fuel : nat) (data : list Z) (from to : Z) :
  0 < to ≤ from → from + to ≤ 32 → (Z.to_nat (from + to) ≤ fuel)%nat →
  digits from data →
  ∃ packed,
    convertBits fuel data from to false = Returns packed ∧
    convertBits fuel packed to from true = Returns data.
Proof.
  intros Hto Hsum Hfuel Hdata.
  destruct (convertBits_back fuel data from to Hto Hsum Hfuel Hdata)
    as (packed & H1 & _ & H2).
  by exists packed.
Qed.

Lemma convertBits_round_trip_witness :
  digits 8 [0; 217; 134; 237] ∧
  ∃ packed,
    convertBits 13 [0; 217; 134; 237] 8 5 false = Returns packed ∧
    convertBits 13 packed 5 8 true = Returns [0; 217; 134; 237].
Proof.
  assert (digits 8 [0; 217; 134; 237]) as Hd by (repeat constructor; lia).
  split; [exact Hd|].
  apply (convertBits_round_trip 13 [0; 217; 134; 237] 8 5);
    [lia|lia|simpl; lia|exact Hd].
Defined.

(** *** What [convertBits] refuses *)

Lemma drain_total (fuel : nat) (to acc mask bits : Z) (result : list Z) :
  0 < to → 0 ≤ bits → (Z.to_nat bits < fuel)%nat →
  ∃ bits' result',
    drain fuel to acc mask bits result = Some (bits', result') ∧ 0 ≤ bits' < to.
Proof.
  intros Hto. revert bits result.
  induction fuel as [|fuel IH]; intros bits result Hb Hfuel; [lia|].
  simpl. destruct (to <=? bits) eqn:Hle.
  - apply Z.leb_le in Hle. apply IH; lia.
  - apply Z.leb_gt in Hle. exists bits, result. split; [done|lia].
Qed.

Definition outOfRange (from value : Z) : Prop :=
  value < 0 ∨ 2 ^ from ≤ value < 2 ^ 31.

(** [Number.isSafeInteger]: the integers that a template literal writes
    out digit by digit, as [pretty] does. *)
Definition safeInteger (value : Z) : Prop := - 2 ^ 53 < value < 2 ^ 53.

Lemma check_fails (from value : Z) :
  0 < from ≤ 31 → outOfRange from value →
  (value <? 0) || negb (sar value from =? 0) = true.
Proof.
  intros Hfrom [Hneg|Hbig].
  - apply orb_true_iff. left. by apply Z.ltb_lt.
  - apply orb_true_iff. right. apply negb_true_iff, Z.eqb_neq.
    pose proof (pow2_le_31 from ltac:(lia)) as Hp.
    unfold sar. rewrite land_31, ToInt32_id, Z.shiftr_div_pow2 by lia.
    assert (1 ≤ value / 2 ^ from); [|lia].
    apply Z.div_le_lower_bound; lia.
Qed.

Lemma convertLoop_rejects (fuel : nat) (data : list Z)
    (from to mask acc bits : Z) (result : list Z) :
  0 < from ≤ 31 → 0 < to → (Z.to_nat (from + to) ≤ fuel)%nat → 0 ≤ bits < to →
  Exists (outOfRange from) data →
  ∃ value, value ∈ data ∧
    convertLoop fuel data from to mask acc bits result =
      Throws ("InvalidArgument in function convertBits: " ++ pretty value)%string.
Proof.
  intros Hfrom Hto Hfuel Hb Hex. revert acc bits result Hb.
  induction data as [|value data IH]; intros acc bits result Hb.
  { by apply Exists_nil in Hex. }
  cbn [convertLoop].
  destruct ((value <? 0) || negb (sar value from =? 0)) eqn:Hcheck.
  { exists value. split; [apply list_elem_of_here|done]. }
  apply Exists_cons in Hex as [Hbad|Hex].
  { by rewrite check_fails in Hcheck. }
  destruct (drain_total fuel to (bor (shl acc from) value) mask (bits + from) result)
    as (bits' & result' & -> & Hb'); [lia|lia|lia|].
  destruct (IH Hex (bor (shl acc from) value) bits' result' Hb')
    as (v & Hin & Hrun).
  exists v. split; [by apply list_elem_of_further|done].
Qed.

(** X5. On an input of safe integers (below 2^53 in magnitude, which a
    template literal prints digit by digit), [convertBits] throws
    InvalidArgument, naming an element of its input in decimal, as soon as
    the input holds a negative number or one that does not fit [from] bits
    (and is below 2^31), with and without [strict]. *)
Theorem convertBits_rejects_out_of_range
    (fuel : nat) (data : list Z) (from to : Z) (strict : bool) :
  0 < from ≤ 31 → 0 < to → (Z.to_nat (from + to) ≤ fuel)%nat →
  Forall safeInteger data →
  Exists (outOfRange from) data →
  ∃ value, value ∈ data ∧ safeInteger value ∧
    convertBits fuel data from to strict =
      Throws ("InvalidArgument in function convertBits: " ++ pretty value)%string.
Proof.
  intros Hfrom Hto Hfuel Hsafe Hex. unfold convertBits.
  destruct (convertLoop_rejects fuel data from to (shl 1 to - 1) 0 0 []
              Hfrom Hto Hfuel ltac:(lia) Hex) as (value & Hin & ->).
  exists value. split; [done|]. split; [|done].
  by apply (proj1 (Forall_forall safeInteger data) Hsafe).
Qed.

Lemma convertBits_rejects_out_of_range_witness :
  Forall safeInteger [217; 256; 3] ∧
  Exists (outOfRange 8) [217; 256; 3] ∧
  ∃ value, value ∈ [217; 256; 3] ∧ safeInteger value ∧
    convertBits 13 [217; 256; 3] 8 5 false =
      Throws ("InvalidArgument in function convertBits: " ++ pretty value)%string.
Proof.
  assert (Forall safeInteger [217; 256; 3]) as Hsafe.
  { repeat constructor; unfold safeInteger; lia. }
  assert (Exists (outOfRange 8) [217; 256; 3]) as Hex.
  { apply Exists_cons_tl, Exists_cons_hd. right. simpl. lia. }
  split; [exact Hsafe|]. split; [exact Hex|].
  apply (convertBits_rejects_out_of_range 13 [217; 256; 3] 8 5 false);
    [lia|lia|simpl; lia|exact Hsafe|exact Hex].
Defined.

(** X6. With [strict], [convertBits] returns only when nothing is lost:
    the bits left over are fewer than a whole input symbol and are all zero,
    so that the result spells the input up to these zero bits. *)
Theorem convertBits_strict_exact
    (fuel : nat) (data : list Z) (from to : Z) (result : list Z) :
  0 < from → 0 < to → from + to ≤ 32 → (Z.to_nat (from + to) ≤ fuel)%nat →
  digits from data →
  convertBits fuel data from to true = Returns result →
  ∃ rest,
    0 ≤ rest < from ∧ rest < to ∧
    Z.of_nat (length data) * from = Z.of_nat (length result) * to + rest ∧
    valOf from 0 data = valOf to 0 result * 2 ^ rest.
Proof.
  intros Hfrom Hto Hsum Hfuel Hdata. unfold convertBits.
  destruct (convertLoop_spec fuel data from to 0 0 0 0 [] Hfrom Hto Hsum Hfuel
              Hdata Hto (loopInv_start from to))
    as (acc & bits & result' & -> & Hb & [Hacc Hbits Hdig Hval Hlen]).
  simpl negb. cbv iota. rewrite Z.add_0_l in Hlen.
  set (A := valOf from 0 data) in *.
  destruct (from <=? bits) eqn:Hle; [done|]. apply Z.leb_gt in Hle.
  rewrite (pad_spec acc A) by (done || lia). simpl.
  destruct (_ =? 0) eqn:Hpad; [|done]. apply Z.eqb_eq in Hpad.
  intros [= <-]. exists bits. split; [lia|]. split; [done|]. split; [lia|].
  rewrite Hval.
  pose proof (pad_value A bits to ltac:(lia)) as Hpv. rewrite Hpad, Z.add_0_r in Hpv.
  assert (0 < 2 ^ bits) as Hpb by (apply Z.pow_pos_nonneg; lia).
  assert (0 < 2 ^ (to - bits)) as Hps by (apply Z.pow_pos_nonneg; lia).
  assert (2 ^ to = 2 ^ bits * 2 ^ (to - bits)) as Hpt.
  { rewrite <- Z.pow_add_r by lia. f_equal. lia. }
  rewrite Hpt in Hpv.
  apply (Z.mul_reg_r _ _ (2 ^ (to - bits))); [lia|]. lia.
Qed.

Lemma convertBits_strict_exact_witness :
  digits 5 [0; 3; 12; 24; 13; 27; 8; 0] ∧
  convertBits 13 [0; 3; 12; 24; 13; 27; 8; 0] 5 8 true = Returns [0; 217; 134; 237; 0] ∧
  ∃ rest,
    0 ≤ rest < 5 ∧ rest < 8 ∧
    Z.of_nat (length [0; 3; 12; 24; 13; 27; 8; 0]) * 5 =
      Z.of_nat (length [0; 217; 134; 237; 0]) * 8 + rest ∧
    valOf 5 0 [0; 3; 12; 24; 13; 27; 8; 0] = valOf 8 0 [0; 217; 134; 237; 0] * 2 ^ rest.
Proof.
  assert (digits 5 [0; 3; 12; 24; 13; 27; 8; 0]) as Hd by (repeat constructor; lia).
  split; [exact Hd|]. split; [vm_compute; reflexivity|].
  apply (convertBits_strict_exact 13 [0; 3; 12; 24; 13; 27; 8; 0] 5 8);
    [lia|lia|lia|simpl; lia|exact Hd|vm_compute; reflexivity].
Defined.
End CashAddressBits.

Section CashAddressRoundTrip.
Import CashAddress.
Local Open Scope Z_scope.

(** *** Strings *)

Lemma mapString_app (f : ascii → ascii) (s1 s2 : string) :
  mapString f (s1 ++ s2)%string = (mapString f s1 ++ mapString f s2)%string.
Proof. induction s1 as [|c s1 IH]; simpl; [done|]. by rewrite IH. Qed.

Lemma split_prefix (sep : ascii) (s1 s2 : string) :
  split sep s1 = [s1] →
  split sep (s1 ++ String sep s2)%string = s1 :: split sep s2.
Proof.
  induction s1 as [|c s1 IH]; simpl.
  { intros _. by rewrite decide_True. }
  destruct (decide (c = sep)) as [->|Hne]; [done|].
  destruct (split sep s1) as [|piece pieces] eqn:Hs.
  { intros [= <-]. by simpl in Hs. }
  intros [= -> ->]. by rewrite IH.
Qed.

Lemma prefixString_lower (p : cashaddrPrefixEnum) :
  toLowerCase (prefixString p) = prefixString p.
Proof. by destruct p. Qed.

Lemma prefixString_split (p : cashaddrPrefixEnum) :
  split ":"%char (prefixString p) = [prefixString p].
Proof. by destruct p. Qed.

(** *** The version byte *)

Definition hashLengths : list nat := [20; 24; 28; 32; 40; 48; 56; 64]%nat.

Lemma versionByte_spec (hash : list Z) (type : cashaddrTypeEnum) :
  length hash ∈ hashLengths →
  ∃ sizeBits,
    getHashSizeBits hash = Returns sizeBits ∧
    0 ≤ getTypeBits type + sizeBits < 2 ^ 8 ∧
    getHashSize (getTypeBits type + sizeBits) = Z.of_nat (length hash) * 8 ∧
    getType (getTypeBits type + sizeBits) = Returns type.
Proof.
  intros Hlen. unfold getHashSizeBits, hashLengths in *.
  repeat (apply elem_of_cons in Hlen as [->|Hlen]);
    [..|by apply elem_of_nil in Hlen];
    eexists; (split; [reflexivity|]); by destruct type.
Qed.

Lemma bytes_unchanged (hash : list Z) :
  digits 8 hash → map (λ b, Z.land b 255) hash = hash.
Proof.
  intros Hd. induction Hd as [|b hash Hb Hd IH]; simpl; [done|].
  rewrite IH. f_equal. change 255 with (Z.ones 8).
  rewrite Z.land_ones by done. by apply Z.mod_small.
Qed.

Lemma checksum_digits (c : N) : digits 5 (map Z.of_N (checksumToArray c)).
Proof.
  apply Forall_map. eapply Forall_impl; [apply checksumToArray_range|].
  intros v Hv. simpl in *. change (2 ^ 5) with 32. lia.
Qed.

Lemma to_N_payload (packed : list Z) (checksum : list N) :
  map Z.to_N (packed ++ map Z.of_N checksum) = map Z.to_N packed ++ checksum.
Proof.
  rewrite map_app, map_map. f_equal.
  rewrite <- (map_id checksum) at 2. apply map_ext. intros v. apply N2Z.id.
Qed.

(** *** Encoding *)

Variable encode : list Z → string.

(** What [hashToCashAddress] hands to the base-32 encoder. *)
Lemma hashToCashAddress_payload
    (fuel : nat) (hash : list Z) (type : cashaddrTypeEnum)
    (prefix : cashaddrPrefixEnum) :
  (13 ≤ fuel)%nat → digits 8 hash → length hash ∈ hashLengths →
  ∃ payload,
    hashToCashAddress encode fuel hash type prefix =
      Returns (prefixString prefix ++ String ":" (encode payload))%string ∧
    digits 5 payload ∧
    validChecksum (prefixString prefix) (map Z.to_N payload) = true ∧
    ∀ address_,
      payloadToHash fuel address_ payload = Returns (mkScriptHash hash type).
Proof.
  intros Hfuel Hhash Hlen.
  destruct (versionByte_spec hash type Hlen)
    as (sizeBits & Hsize & Hrange & HhashSize & Htype).
  set (versionByte := getTypeBits type + sizeBits) in *.
  assert (digits 8 (versionByte :: hash)) as Hdata by by constructor.
  destruct (convertBits_back fuel (versionByte :: hash) 8 5)
    as (packed & Hpack & Hpacked & Hback); [lia|lia|simpl; lia|done|].
  unfold hashToCashAddress. rewrite Hsize. fold versionByte. rewrite Hpack.
  set (checksum := checksumToArray _).
  exists (packed ++ map Z.of_N checksum).
  split; [reflexivity|]. split; [|split].
  - apply Forall_app. split; [done|apply checksum_digits].
  - rewrite to_N_payload. unfold validChecksum, checksum. rewrite app_assoc.
    apply N.eqb_eq. apply (polymod_checksum (_ ++ map Z.to_N packed)).
  - intros address_. unfold payloadToHash.
    assert (take (length (packed ++ map Z.of_N checksum) - 8)
              (packed ++ map Z.of_N checksum) = packed) as ->.
    { rewrite length_app, length_map. unfold checksum.
      rewrite checksumToArray_length, Nat.add_sub. apply take_app_length. }
    rewrite Hback, HhashSize, Z.eqb_refl, Htype. simpl.
    by rewrite bytes_unchanged.
Qed.

(** *** Encoding, then decoding *)

Variable decode : string → completion (list Z).

Hypothesis decode_encode :
  ∀ payload, digits 5 payload → decode (encode payload) = Returns payload.
Hypothesis encode_lower :
  ∀ payload, digits 5 payload → toLowerCase (encode payload) = encode payload.
Hypothesis encode_no_colon :
  ∀ payload, digits 5 payload → split ":"%char (encode payload) = [encode payload].

Lemma address_lower (prefix : cashaddrPrefixEnum) (payload : list Z) :
  digits 5 payload →
  toLowerCase (prefixString prefix ++ String ":" (encode payload))%string
  = (prefixString prefix ++ String ":" (encode payload))%string.
Proof.
  intros Hd. unfold toLowerCase. rewrite mapString_app. simpl. f_equal.
  - apply prefixString_lower.
  - f_equal. by apply encode_lower.
Qed.

(** The checksum test of [cashAddressToHash] on an address with a prefix. *)
Lemma cashAddressToHash_prefixed
    (fuel : nat) (prefix : cashaddrPrefixEnum) (payload : list Z) :
  digits 5 payload →
  let address_ := (prefixString prefix ++ String ":" (encode payload))%string in
  cashAddressToHash decode fuel address_ =
    if validChecksum (prefixString prefix) (map Z.to_N payload)
    then payloadToHash fuel address_ payload
    else Throws ("InvalidArgument: " ++ address_ ++ " has invalid checksum")%string.
Proof.
  intros Hd address_. unfold cashAddressToHash, hasSingleCase.
  unfold address_. rewrite address_lower, bool_decide_eq_true_2 by done.
  simpl negb. cbv iota.
  rewrite split_prefix, encode_no_colon by (done || apply prefixString_split).
  rewrite encode_lower, decode_encode by done.
  by destruct (validChecksum _ _).
Qed.

(** X7. For a script hash of one of the eight sizes, made of bytes,
    [hashToCashAddress] returns an address, and [cashAddressToHash] takes
    this address back to the hash and its type; this for every base-32 codec
    whose decoder undoes its encoder and whose encoder writes lower-case
    text without a colon. *)
Theorem cashAddress_round_trip
    (fuel : nat) (hash : list Z) (type : cashaddrTypeEnum)
    (prefix : cashaddrPrefixEnum) :
  (13 ≤ fuel)%nat → digits 8 hash → length hash ∈ hashLengths →
  ∃ address_,
    hashToCashAddress encode fuel hash type prefix = Returns address_ ∧
    cashAddressToHash decode fuel address_ = Returns (mkScriptHash hash type).
Proof.
  intros Hfuel Hhash Hlen.
  destruct (hashToCashAddress_payload fuel hash type prefix Hfuel Hhash Hlen)
    as (payload & Hrun & Hd & Hvalid & Hback).
  eexists. split; [exact Hrun|].
  rewrite cashAddressToHash_prefixed, Hvalid by done. apply Hback.
Qed.

(** X8. The address that [hashToCashAddress] returns, stripped of its
    prefix and colon, is still taken back to the hash and its type by
    [cashAddressToHash], which then looks for a prefix that fits. *)
Theorem cashAddress_round_trip_without_prefix
    (fuel : nat) (hash : list Z) (type : cashaddrTypeEnum)
    (prefix : cashaddrPrefixEnum) :
  (13 ≤ fuel)%nat → digits 8 hash → length hash ∈ hashLengths →
  ∃ encoded,
    hashToCashAddress encode fuel hash type prefix =
      Returns (prefixString prefix ++ ":" ++ encoded)%string ∧
    cashAddressToHash decode fuel encoded = Returns (mkScriptHash hash type).
Proof.
  intros Hfuel Hhash Hlen.
  destruct (hashToCashAddress_payload fuel hash type prefix Hfuel Hhash Hlen)
    as (payload & Hrun & Hd & Hvalid & Hback).
  exists (encode payload). split; [exact Hrun|].
  unfold cashAddressToHash, hasSingleCase.
  rewrite !encode_lower, bool_decide_eq_true_2 by (done || by rewrite encode_lower).
  simpl negb. cbv iota.
  rewrite encode_no_colon by done.
  rewrite encode_lower, decode_encode by done.
  cbn [List.find].
  destruct prefix.
  - rewrite Hvalid. apply Hback.
  - destruct (validChecksum (prefixString mainnet) _); [apply Hback|].
    rewrite Hvalid. apply Hback.
Qed.

(** X9. An address with a prefix whose original passes the checksum test,
    with one symbol of its payload replaced by another, is refused by
    [cashAddressToHash] for its checksum. *)
Theorem cashAddressToHash_refuses_wrong_symbol
    (fuel : nat) (prefix : cashaddrPrefixEnum) (before after : list Z) (v v' : Z) :
  digits 5 (before ++ v' :: after) → 0 ≤ v < 32 → v ≠ v' →
  validChecksum (prefixString prefix) (map Z.to_N (before ++ v :: after)) = true →
  let address_ :=
    (prefixString prefix ++ ":" ++ encode (before ++ v' :: after))%string in
  cashAddressToHash decode fuel address_ =
    Throws ("InvalidArgument: " ++ address_ ++ " has invalid checksum")%string.
Proof.
  intros Hd Hv Hne Hvalid address_. unfold address_.
  change (prefixString prefix ++ ":" ++ ?e)%string
    with (prefixString prefix ++ String ":" e)%string.
  rewrite cashAddressToHash_prefixed by done.
  assert (0 ≤ v' < 32) as Hv'.
  { apply Forall_app in Hd as [_ Hd]. by apply Forall_inv in Hd. }
  rewrite map_app in Hvalid |- *. cbn [map] in Hvalid |- *.
  rewrite (validChecksum_one_symbol _ _ _ (Z.to_N v) (Z.to_N v'));
    [done|lia|lia|lia|done].
Qed.

End CashAddressRoundTrip.

Section CashAddressExamples.
Import CashAddress.
Local Open Scope Z_scope.

(** A base-32 codec to run the two functions with, which writes a symbol
    as the letter of the cashaddr alphabet at its place. *)
Definition CHARSET : list ascii :=
  String.list_ascii_of_string "qpzry9x8gf2tvdw0s3jn54khce6mua7l".

Definition sampleChar (d : Z) : ascii := nth (Z.to_nat d) CHARSET "q"%char.

Fixpoint sampleEncode (payload : list Z) : string :=
  match payload with
  | [] => EmptyString
  | d :: rest => String (sampleChar d) (sampleEncode rest)
  end.

Fixpoint indexOf (c : ascii) (alphabet : list ascii) (i : Z) : option Z :=
  match alphabet with
  | [] => None
  | x :: rest => if decide (x = c) then Some i else indexOf c rest (i + 1)
  end.

Fixpoint sampleDecode (s : string) : completion (list Z) :=
  match s with
  | EmptyString => Returns []
  | String c rest =>
      match indexOf c CHARSET 0 with
      | None => Throws "Invalid value"
      | Some d =>
          match sampleDecode rest with
          | Returns l => Returns (d :: l)
          | Throws msg => Throws msg
          | Diverges => Diverges
          end
      end
  end.

Lemma sampleChar_spec (d : Z) :
  0 ≤ d < 2 ^ 5 →
  indexOf (sampleChar d) CHARSET 0 = Some d ∧
  lowerAscii (sampleChar d) = sampleChar d ∧
  sampleChar d ≠ ":"%char.
Proof.
  intros Hd. change (2 ^ 5) with 32 in Hd.
  rewrite <- (Z2Nat.id d) by lia.
  assert (Z.to_nat d < 32)%nat as Hn by lia.
  generalize dependent (Z.to_nat d). clear. intros n Hn.
  do 32 (destruct n as [|n]; [by vm_compute|]). lia.
Qed.

Lemma sampleDecode_encode (payload : list Z) :
  digits 5 payload → sampleDecode (sampleEncode payload) = Returns payload.
Proof.
  intros Hd. induction Hd as [|d payload Hd _ IH];
    cbn [sampleEncode sampleDecode]; [done|].
  destruct (sampleChar_spec d Hd) as (-> & _). by rewrite IH.
Qed.

Lemma sampleEncode_lower (payload : list Z) :
  digits 5 payload → toLowerCase (sampleEncode payload) = sampleEncode payload.
Proof.
  intros Hd. induction Hd as [|d payload Hd _ IH];
    cbn [sampleEncode toLowerCase mapString]; [done|].
  unfold toLowerCase. cbn [mapString].
  destruct (sampleChar_spec d Hd) as (_ & -> & _).
  f_equal. apply IH.
Qed.

Lemma sampleEncode_no_colon (payload : list Z) :
  digits 5 payload →
  split ":"%char (sampleEncode payload) = [sampleEncode payload].
Proof.
  intros Hd. induction Hd as [|d payload Hd _ IH];
    cbn [sampleEncode split]; [done|].
  destruct (sampleChar_spec d Hd) as (_ & _ & Hne).
  rewrite decide_False by done. by rewrite IH.
Qed.

Definition sampleHash : list Z :=
  [217; 134; 237; 1; 183; 162; 34; 37; 167; 14; 219; 242; 186; 124; 251; 99;
   161; 92; 179; 170].

Definition samplePayload : list Z :=
  [0; 3; 12; 24; 13; 27; 8; 1; 22; 30; 17; 2; 4; 9; 13; 7; 1; 27; 13; 31; 5;
   14; 19; 28; 31; 13; 17; 26; 2; 23; 5; 19; 21; 8; 27; 16; 7; 16; 15; 28;
   20; 5].

(** The first address of the repository's own test of [hashToCashAddress]. *)
Example hashToCashAddress_sample :
  hashToCashAddress sampleEncode 13 sampleHash pubkeyhash mainnet =
  Returns "bitcoincash:qrvcdmgpk73zyfd8pmdl9wnuld36zh9n4gms8s0u59".
Proof. by vm_compute. Qed.

Lemma sampleHash_bytes : digits 8 sampleHash.
Proof. repeat constructor; lia. Qed.

Lemma sampleHash_length : length sampleHash ∈ hashLengths.
Proof. apply list_elem_of_here. Qed.

Lemma cashAddress_round_trip_witness :
  ∃ address_,
    hashToCashAddress sampleEncode 13 sampleHash pubkeyhash mainnet
      = Returns address_ ∧
    cashAddressToHash sampleDecode 13 address_
      = Returns (mkScriptHash sampleHash pubkeyhash).
Proof.
  apply (cashAddress_round_trip sampleEncode sampleDecode
           sampleDecode_encode sampleEncode_lower sampleEncode_no_colon
           13 sampleHash pubkeyhash mainnet);
    [lia|apply sampleHash_bytes|apply sampleHash_length].
Defined.

Lemma cashAddress_round_trip_without_prefix_witness :
  ∃ encoded,
    hashToCashAddress sampleEncode 13 sampleHash scripthash testnet
      = Returns (prefixString testnet ++ ":" ++ encoded)%string ∧
    cashAddressToHash sampleDecode 13 encoded
      = Returns (mkScriptHash sampleHash scripthash).
Proof.
  apply (cashAddress_round_trip_without_prefix sampleEncode sampleDecode
           sampleDecode_encode sampleEncode_lower sampleEncode_no_colon
           13 sampleHash scripthash testnet);
    [lia|apply sampleHash_bytes|apply sampleHash_length].
Defined.

Lemma cashAddressToHash_refuses_wrong_symbol_witness :
  let wrong := <[2%nat := 13]> samplePayload in
  validChecksum (prefixString mainnet) (map Z.to_N samplePayload) = true ∧
  cashAddressToHash sampleDecode 13
    (prefixString mainnet ++ ":" ++ sampleEncode wrong)%string =
  Throws ("InvalidArgument: "
          ++ (prefixString mainnet ++ ":" ++ sampleEncode wrong)
          ++ " has invalid checksum")%string.
Proof.
  split; [by vm_compute|].
  apply (cashAddressToHash_refuses_wrong_symbol sampleEncode sampleDecode
           sampleDecode_encode sampleEncode_lower sampleEncode_no_colon
           13 mainnet [0; 3] (drop 3 samplePayload) 12 13);
    [repeat constructor; lia|lia|lia|by vm_compute].
Defined.

End CashAddressExamples.

Section CashAddressCase.
Import CashAddress.

(** *** Letter case

    Strings are taken to be ASCII, as addresses are. *)

Definition isUpper (c : ascii) : bool :=
  (65 <=? nat_of_ascii c) && (nat_of_ascii c <=? 90).

Definition isLower (c : ascii) : bool :=
  (97 <=? nat_of_ascii c) && (nat_of_ascii c <=? 122).

Lemma lowerAscii_upperAscii c : lowerAscii (upperAscii c) = lowerAscii c.
Proof. by destruct c as [[] [] [] [] [] [] [] []]. Qed.

Lemma lowerAscii_idem c : lowerAscii (lowerAscii c) = lowerAscii c.
Proof. by destruct c as [[] [] [] [] [] [] [] []]. Qed.

Lemma upperAscii_idem c : upperAscii (upperAscii c) = upperAscii c.
Proof. by destruct c as [[] [] [] [] [] [] [] []]. Qed.

Lemma lowerAscii_moves_upper c : isUpper c = true → lowerAscii c ≠ c.
Proof. by destruct c as [[] [] [] [] [] [] [] []]. Qed.

Lemma upperAscii_moves_lower c : isLower c = true → upperAscii c ≠ c.
Proof. by destruct c as [[] [] [] [] [] [] [] []]. Qed.

Lemma mapString_compose (f g h : ascii → ascii) (s : string) :
  (∀ c, f (g c) = h c) → mapString f (mapString g s) = mapString h s.
Proof. intros H. induction s as [|c s IH]; simpl; [done|]. by rewrite H, IH. Qed.

Lemma mapString_fixed (f : ascii → ascii) (s : string) (c : ascii) :
  s = mapString f s → c ∈ String.list_ascii_of_string s → f c = c.
Proof.
  induction s as [|c0 s IH]; simpl.
  { intros _ Hin. by apply elem_of_nil in Hin. }
  intros [= Hc Hs] [->|Hin]%elem_of_cons; [done|by apply IH].
Qed.

(** X10. An address written entirely in upper case is treated by
    [cashAddressToHash] exactly as the same address in lower case. *)
Theorem cashAddressToHash_ignores_case
    (decode : string → completion (list Z)) (fuel : nat) (address_ : string) :
  cashAddressToHash decode fuel (toUpperCase address_)
  = cashAddressToHash decode fuel (toLowerCase address_).
Proof.
  unfold cashAddressToHash, hasSingleCase.
  assert (toUpperCase (toUpperCase address_) = toUpperCase address_) as Hup
    by apply mapString_compose, upperAscii_idem.
  assert (toLowerCase (toLowerCase address_) = toLowerCase address_) as Hlow
    by apply mapString_compose, lowerAscii_idem.
  assert (toLowerCase (toUpperCase address_) = toLowerCase address_) as Hmix
    by apply mapString_compose, lowerAscii_upperAscii.
  rewrite Hup, Hlow, Hmix.
  rewrite (bool_decide_eq_true_2 (toUpperCase address_ = toUpperCase address_)) by done.
  rewrite (bool_decide_eq_true_2 (toLowerCase address_ = toLowerCase address_)) by done.
  by rewrite orb_true_r.
Qed.

(** X11. An address holding both an upper-case and a lower-case letter
    is refused by [cashAddressToHash] before anything is decoded. *)
Theorem cashAddressToHash_refuses_mixed_case
    (decode : string → completion (list Z)) (fuel : nat) (address_ : string)
    (c1 c2 : ascii) :
  c1 ∈ String.list_ascii_of_string address_ → isUpper c1 = true →
  c2 ∈ String.list_ascii_of_string address_ → isLower c2 = true →
  cashAddressToHash decode fuel address_
  = Throws ("InvalidArgument: " ++ address_ ++ " has Mixed case")%string.
Proof.
  intros Hin1 Hup Hin2 Hlow. unfold cashAddressToHash, hasSingleCase.
  rewrite bool_decide_eq_false_2, bool_decide_eq_false_2; [done| |].
  - intros Heq. apply (upperAscii_moves_lower c2 Hlow).
    by apply (mapString_fixed upperAscii address_).
  - intros Heq. apply (lowerAscii_moves_upper c1 Hup).
    by apply (mapString_fixed lowerAscii address_).
Qed.

Lemma cashAddressToHash_refuses_mixed_case_witness :
  cashAddressToHash sampleDecode 13 "bitcoincash:Qrvcdmgpk73zyfd8pmdl9wnuld36zh9n4gms8s0u59"
  = Throws "InvalidArgument: bitcoincash:Qrvcdmgpk73zyfd8pmdl9wnuld36zh9n4gms8s0u59 has Mixed case".
Proof.
  apply (cashAddressToHash_refuses_mixed_case sampleDecode 13
           "bitcoincash:Qrvcdmgpk73zyfd8pmdl9wnuld36zh9n4gms8s0u59" "Q" "b").
  - vm_compute. do 12 apply list_elem_of_further. apply list_elem_of_here.
  - reflexivity.
  - apply list_elem_of_here.
  - reflexivity.
Defined.

End CashAddressCase.

(* ===================================================================== *)
(** * Part IV: the engine, continued                                       *)
(* ===================================================================== *)

(** ** What a computation leaves alone *)

(** Whatever way [m] ends, the world it leaves is [R]-related to the one
    it started in. *)
Definition keeps {A} (R : World → World → Prop) (m : M A) : Prop :=
  ∀ w w', finalWorld (m w) = Some w' → R w w'.

Section Keeps.

Context (R : World → World → Prop).
Hypothesis R_refl : ∀ w, R w w.
Hypothesis R_trans : ∀ w1 w2 w3, R w1 w2 → R w2 w3 → R w1 w3.
(** [R] looks at the store and at the watch list only. *)
Hypothesis R_same : ∀ w w',
  processor w' = processor w → addressesToWatch w' = addressesToWatch w → R w w'.

Lemma keeps_ret {A} (a : A) : keeps R (ret a).
Proof. intros w w' [= <-]. apply R_refl. Qed.

Lemma keeps_throw {A} e : keeps R (@throw A e).
Proof. intros w w' [= <-]. apply R_refl. Qed.

Lemma keeps_outOfFuel {A} : keeps R (@outOfFuel A).
Proof. by intros w w'. Qed.

Lemma keeps_bind {A B} (m : M A) (k : A → M B) :
  keeps R m → (∀ a, keeps R (k a)) → keeps R (bind m k).
Proof.
  intros Hm Hk w w'. unfold bind.
  destruct (m w) as [a w1|e w1|] eqn:E; simpl.
  - intros H. apply (R_trans _ w1); [apply Hm; by rewrite E|by apply (Hk a)].
  - intros [= <-]. apply Hm. by rewrite E.
  - done.
Qed.

Lemma keeps_forEach {A} (l : list A) (body : A → M unit) :
  (∀ x, keeps R (body x)) → keeps R (forEach l body).
Proof.
  intros H. induction l as [|x l IH]; simpl; [apply keeps_ret|].
  apply keeps_bind; [apply H|by intros _].
Qed.

Lemma keeps_awaitBlockBook {A} (r : option A) : keeps R (awaitBlockBook r).
Proof. destruct r; [apply keeps_ret|apply keeps_throw]. Qed.

Lemma keeps_modify f :
  (∀ w, processor (f w) = processor w) →
  (∀ w, addressesToWatch (f w) = addressesToWatch w) → keeps R (modify f).
Proof. intros H1 H2 w w' [= <-]. by apply R_same. Qed.

Lemma keeps_fetchAddressByScriptPubkey sp : keeps R (fetchAddressByScriptPubkey sp).
Proof. intros w w' [= <-]. by apply R_same. Qed.

Lemma keeps_fetchScriptPubkeyByPath pth : keeps R (fetchScriptPubkeyByPath pth).
Proof. intros w w' [= <-]. apply R_refl. Qed.

Lemma keeps_fetchAddressCount fmt ch :
  keeps R (fetchAddressCountFromPathPartition fmt ch).
Proof. intros w w' [= <-]. apply R_refl. Qed.

Lemma keeps_processor_fetchTransaction t : keeps R (processor_fetchTransaction t).
Proof. intros w w' [= <-]. apply R_refl. Qed.

Lemma keeps_fetchUtxosByScriptPubkey sp : keeps R (fetchUtxosByScriptPubkey sp).
Proof. intros w w' [= <-]. apply R_refl. Qed.

Lemma keeps_hasWatch addr : keeps R (hasWatch addr).
Proof. intros w w' [= <-]. apply R_refl. Qed.

Lemma keeps_emit e : keeps R (emit e).
Proof. by apply keeps_modify. Qed.

Lemma keeps_getFreshIndex fuel cfg fmt ch find :
  keeps R (getFreshIndex fuel cfg fmt ch find).
Proof.
  intros w w' H. apply getFreshIndex_reads in H as [k ->]. by apply R_same.
Qed.

Lemma keeps_getFreshAddress fuel cfg fmt ch find :
  keeps R (getFreshAddress fuel cfg fmt ch find).
Proof.
  unfold getFreshAddress. apply keeps_bind; [apply keeps_getFreshIndex|].
  intros idx. apply keeps_bind; [apply keeps_fetchScriptPubkeyByPath|].
  intros stored. case_decide; [apply keeps_throw|apply keeps_ret].
Qed.

Lemma keeps_saveNewOrUpdate cfg pth sp :
  (∀ a, keeps R (saveAddress a)) →
  keeps R (saveNewOrUpdateAddressPathIfNeeded cfg pth sp).
Proof.
  intros Hsave. unfold saveNewOrUpdateAddressPathIfNeeded.
  apply keeps_bind.
  { destruct sp as [s|]; [case_decide|]; destruct pth;
      first [apply keeps_ret | apply keeps_throw]. }
  intros s. apply keeps_bind; [apply keeps_fetchAddressByScriptPubkey|].
  intros [a|].
  - destruct (path a); [apply keeps_ret|].
    apply keeps_bind; [apply Hsave|intros; apply keeps_ret].
  - apply keeps_bind; [apply Hsave|intros; apply keeps_ret].
Qed.

(** *** The look-ahead generator, given what its one writer keeps *)

Section LookAhead.

Context (cfg : EngineConfig).
Hypothesis keeps_save : ∀ pth sp,
  keeps R (saveNewOrUpdateAddressPathIfNeeded cfg pth sp).

Lemma keeps_lookAheadLoop n fuel fmt branch pna : ∀ i freshIndex,
  keeps R (lookAheadLoop n fuel cfg fmt branch pna i freshIndex).
Proof.
  induction n as [|n IH]; intros i freshIndex; simpl; [apply keeps_outOfFuel|].
  destruct (_ <? _); [|apply keeps_ret].
  apply keeps_bind; [apply keeps_save|]. intros isNew.
  apply keeps_bind.
  { destruct (isNew && pna); [|apply keeps_ret].
    apply keeps_bind; [apply keeps_fetchScriptPubkeyByPath|].
    intros [s|]; [by apply keeps_modify|apply keeps_throw]. }
  intros _. apply keeps_bind; [apply keeps_getFreshIndex|].
  intros f. apply IH.
Qed.

Lemma keeps_setLookAhead fuel fmt pna : keeps R (setLookAhead fuel cfg fmt pna).
Proof.
  unfold setLookAhead. apply keeps_bind; [apply keeps_emit|].
  intros _. apply keeps_forEach. intros branch.
  apply keeps_bind; [apply keeps_getFreshIndex|]. intros f.
  apply keeps_bind; [apply keeps_fetchAddressCount|]. intros c.
  apply keeps_lookAheadLoop.
Qed.

End LookAhead.

(** *** The history and UTXO passes, given what their writers keep *)

Section Passes.

Context (cfg : EngineConfig).
Hypothesis keeps_saveTransaction : ∀ tx, keeps R (saveTransaction tx).
Hypothesis keeps_saveUtxo : ∀ u, keeps R (saveUtxo u).
Hypothesis keeps_removeUtxo : ∀ u, keeps R (removeUtxo u).

Lemma keeps_saveTransactions txs : ∀ m0, keeps R (saveTransactions cfg txs m0).
Proof.
  induction txs as [|tx txs IH]; intros m0; simpl; [apply keeps_ret|].
  apply keeps_bind; [apply keeps_saveTransaction|]. intros _. apply IH.
Qed.

Lemma keeps_processAddressTransactions fuel addr : ∀ page,
  keeps R (processAddressTransactions fuel cfg addr page).
Proof.
  induction fuel as [|fuel IH]; intros page; simpl; [apply keeps_outOfFuel|].
  apply keeps_bind; [apply keeps_fetchAddressByScriptPubkey|]. intros a.
  apply keeps_bind; [apply keeps_awaitBlockBook|]. intros resp.
  apply keeps_bind; [apply keeps_saveTransactions|]. intros m.
  apply keeps_bind.
  { destruct (negb _); [apply keeps_emit|apply keeps_ret]. }
  intros _. destruct (resp_totalPages resp) as [t|]; [|apply keeps_ret].
  destruct (page <? t); [apply IH|apply keeps_ret].
Qed.

Lemma keeps_fetchTransaction t : keeps R (fetchTransaction cfg t).
Proof.
  unfold fetchTransaction. apply keeps_bind; [apply keeps_processor_fetchTransaction|].
  intros [tx|]; [apply keeps_ret|].
  apply keeps_bind; [apply keeps_awaitBlockBook|]. intros raw. apply keeps_ret.
Qed.

Lemma keeps_reconcileUtxos pth sp utxos : ∀ old,
  keeps R (reconcileUtxos cfg pth sp utxos old).
Proof.
  induction utxos as [|u utxos IH]; intros old; simpl; [apply keeps_ret|].
  destruct (old !! _); [apply IH|].
  apply keeps_bind.
  { destruct (currencyFormatToPurposeType _);
      first [apply keeps_ret
            |apply keeps_bind; [apply keeps_fetchTransaction|intros; apply keeps_ret]]. }
  intros s. apply keeps_bind; [apply keeps_saveUtxo|]. intros _. apply IH.
Qed.

Lemma keeps_processAddressUtxos addr : keeps R (processAddressUtxos cfg addr).
Proof.
  unfold processAddressUtxos.
  apply keeps_bind; [apply keeps_fetchAddressByScriptPubkey|].
  intros [a|]; [|apply keeps_ret].
  destruct (path a) as [pth|]; [|apply keeps_ret].
  apply keeps_bind; [apply keeps_fetchUtxosByScriptPubkey|]. intros old.
  apply keeps_bind; [apply keeps_awaitBlockBook|]. intros utxos.
  apply keeps_bind; [apply keeps_reconcileUtxos|]. intros old'.
  apply keeps_forEach. apply keeps_removeUtxo.
Qed.

End Passes.

End Keeps.

(** ** Address records are only ever added to *)

(** Every record sits under its own [scriptPubkey]. *)
Definition keyed (p : Processor) : Prop :=
  map_Forall (λ sp a, scriptPubkey a = sp) (addressByScriptPubkey p).

(** [a'] is [a] but possibly for its path. *)
Definition sameData (a a' : IAddress) : Prop :=
  scriptPubkey a' = scriptPubkey a ∧ networkQueryVal a' = networkQueryVal a ∧
  lastQuery a' = lastQuery a ∧ lastTouched a' = lastTouched a ∧
  used a' = used a ∧ balance a' = balance a.

(** On a keyed store: the store stays keyed, no record is dropped, none
    has its data changed, and one with a path is not changed at all. *)
Definition recordsKept (w w' : World) : Prop :=
  keyed (processor w) →
  keyed (processor w') ∧
  ∀ sp a, addressByScriptPubkey (processor w) !! sp = Some a →
    ∃ a', addressByScriptPubkey (processor w') !! sp = Some a' ∧
          sameData a a' ∧ (is_Some (path a) → a' = a).

Lemma sameData_refl a : sameData a a.
Proof. by repeat split. Qed.

Lemma recordsKept_refl w : recordsKept w w.
Proof.
  intros Hk. split; [done|]. intros sp a Ha. exists a.
  split; [done|]. split; [apply sameData_refl|done].
Qed.

Lemma recordsKept_trans w1 w2 w3 :
  recordsKept w1 w2 → recordsKept w2 w3 → recordsKept w1 w3.
Proof.
  intros H12 H23 Hk1. destruct (H12 Hk1) as [Hk2 H2].
  destruct (H23 Hk2) as [Hk3 H3]. split; [done|].
  intros sp a Ha. destruct (H2 sp a Ha) as (a2 & Ha2 & Hs2 & Hp2).
  destruct (H3 sp a2 Ha2) as (a3 & Ha3 & Hs3 & Hp3).
  exists a3. split; [done|]. split.
  - unfold sameData in *. intuition congruence.
  - intros Hp. specialize (Hp2 Hp). subst a2. by apply Hp3.
Qed.

Lemma recordsKept_same w w' :
  processor w' = processor w → addressesToWatch w' = addressesToWatch w →
  recordsKept w w'.
Proof.
  intros Hp _ Hk. rewrite Hp. split; [done|]. intros sp a Ha. exists a.
  split; [done|]. split; [apply sameData_refl|done].
Qed.

Lemma keeps_records_save cfg pth sp :
  keeps recordsKept (saveNewOrUpdateAddressPathIfNeeded cfg pth sp).
Proof.
  intros w w' Hrun Hk.
  unfold saveNewOrUpdateAddressPathIfNeeded, bind in Hrun.
  set (derive := match pth with
                 | None => throw _
                 | Some p => ret _
                 end) in Hrun.
  set (first := match sp with
                | Some s => if decide (s = "") then derive else ret s
                | None => derive
                end) in Hrun.
  destruct (first w) as [s w1|e w1|] eqn:Hfirst; [| |done].
  2:{ simpl in Hrun. injection Hrun as <-.
      assert (w1 = w) as ->; [|by apply recordsKept_refl].
      unfold first, derive in Hfirst.
      destruct sp as [s|]; [case_decide|]; destruct pth; by inversion Hfirst. }
  assert (w1 = w) as ->.
  { unfold first, derive in Hfirst.
    destruct sp as [s0|]; [case_decide|]; destruct pth; by inversion Hfirst. }
  clear Hfirst first derive.
  unfold fetchAddressByScriptPubkey in Hrun. cbn in Hrun.
  destruct (addressByScriptPubkey (processor w) !! s) as [ad|] eqn:Hs.
  - destruct (path ad) as [q|] eqn:Hq.
    + simpl in Hrun. injection Hrun as <-. by apply (recordsKept_refl w).
    + simpl in Hrun. injection Hrun as <-. simpl.
      pose proof (Hk s ad Hs) as Hkey. simpl in Hkey. rewrite Hkey.
      split.
      * apply map_Forall_insert_2; [done|exact Hk].
      * intros sp0 a Ha. destruct (decide (sp0 = s)) as [->|Hne].
        -- rewrite lookup_insert_eq. eexists. split; [done|].
           assert (a = ad) as -> by congruence.
           split; [by repeat split|]. rewrite Hq. by intros [? ?].
        -- rewrite lookup_insert_ne by done. exists a.
           split; [done|]. split; [apply sameData_refl|done].
  - simpl in Hrun. injection Hrun as <-. simpl. split.
    + apply map_Forall_insert_2; [done|exact Hk].
    + intros sp0 a Ha. assert (sp0 ≠ s) by congruence.
      rewrite lookup_insert_ne by done. exists a.
      split; [done|]. split; [apply sameData_refl|done].
Qed.

(** X12. On a store where every record sits under its own
    [scriptPubkey], [setLookAhead], however it ends, drops no address
    record, changes the data ([used], [balance], query marks) of none, and
    leaves every record that has a path exactly as it was. *)
Theorem setLookAhead_keeps_records fuel cfg fmt pna w w' :
  keyed (processor w) →
  finalWorld (setLookAhead fuel cfg fmt pna w) = Some w' →
  keyed (processor w') ∧
  ∀ sp a, addressByScriptPubkey (processor w) !! sp = Some a →
    ∃ a', addressByScriptPubkey (processor w') !! sp = Some a' ∧
          sameData a a' ∧ (is_Some (path a) → a' = a).
Proof.
  intros Hk Hrun.
  apply (keeps_setLookAhead recordsKept recordsKept_refl recordsKept_trans
           recordsKept_same cfg (keeps_records_save cfg) fuel fmt pna w w' Hrun Hk).
Qed.

(** ** Saving twice *)

Lemma saveAddress_store_idem a p :
  saveAddress_store a (saveAddress_store a p) = saveAddress_store a p.
Proof.
  unfold saveAddress_store. simpl. destruct (path a); by rewrite !insert_insert_eq.
Qed.

(** X13. Once [saveNewOrUpdateAddressPathIfNeeded] has returned, the
    same call again returns [false] and leaves the store as it is. *)
Theorem saveNewOrUpdate_idempotent cfg pth sp w b w1 :
  saveNewOrUpdateAddressPathIfNeeded cfg pth sp w = Ok b w1 →
  ∃ w2, saveNewOrUpdateAddressPathIfNeeded cfg pth sp w1 = Ok false w2 ∧
        processor w2 = processor w1.
Proof.
  unfold saveNewOrUpdateAddressPathIfNeeded, bind.
  set (derive := match pth with
                 | None => throw _
                 | Some p => ret _
                 end).
  set (first := match sp with
                | Some s => if decide (s = "") then derive else ret s
                | None => derive
                end).
  assert (∀ v s v', first v = Ok s v' → v' = v ∧ ∀ u, first u = Ok s u) as Hfirst.
  { intros v s v'. unfold first, derive.
    destruct sp as [s0|]; [case_decide|]; destruct pth;
      intros [= <- <-]; by split. }
  destruct (first w) as [s w0|e w0|] eqn:Hf; [|done|done].
  destruct (Hfirst _ _ _ Hf) as [-> Hagain]. rewrite (Hagain w1).
  unfold fetchAddressByScriptPubkey. cbn.
  destruct (addressByScriptPubkey (processor w) !! s) as [ad|] eqn:Hs.
  - destruct (path ad) as [q|] eqn:Hq.
    + intros [= <- <-]. simpl. rewrite Hs, Hq. simpl. by eexists.
    + intros [= <- <-]. simpl.
      destruct (decide (scriptPubkey ad = s)) as [Heq|Hne].
      * rewrite Heq, lookup_insert_eq. simpl.
        destruct pth as [q|]; simpl; [by eexists|].
        eexists. split; [done|]. simpl.
        apply (saveAddress_store_idem
                 (mkAddress s None (networkQueryVal ad) (lastQuery ad)
                    (lastTouched ad) (used ad) (balance ad))).
      * rewrite lookup_insert_ne, Hs, Hq by done. simpl.
        eexists. split; [done|]. simpl.
        apply (saveAddress_store_idem
                 (mkAddress (scriptPubkey ad) pth (networkQueryVal ad) (lastQuery ad)
                    (lastTouched ad) (used ad) (balance ad))).
  - intros [= <- <-]. simpl. rewrite lookup_insert_eq. simpl.
    destruct pth as [q|]; simpl; [by eexists|].
    eexists. split; [done|]. simpl.
    apply (saveAddress_store_idem (mkAddress s None 0 0 0 false (Some "0"))).
Qed.

Lemma saveNewOrUpdate_idempotent_witness :
  ∃ w1, saveNewOrUpdateAddressPathIfNeeded (sampleConfig 2 Segwit quietBlockBook)
          (Some (mkPath bip84 0 0)) None emptyWorld = Ok true w1 ∧
  ∃ w2, saveNewOrUpdateAddressPathIfNeeded (sampleConfig 2 Segwit quietBlockBook)
          (Some (mkPath bip84 0 0)) None w1 = Ok false w2 ∧
        processor w2 = processor w1.
Proof.
  eexists. split; [reflexivity|].
  apply (saveNewOrUpdate_idempotent (sampleConfig 2 Segwit quietBlockBook)
           (Some (mkPath bip84 0 0)) None emptyWorld true).
  reflexivity.
Defined.

Lemma importedStore_keyed : keyed importedStore.
Proof. apply map_Forall_insert_2; [done|apply map_Forall_empty]. Qed.

Lemma setLookAhead_keeps_records_witness :
  keyed (processor (worldOf importedStore)) ∧
  ∃ w', finalWorld (setLookAhead 4 (sampleConfig 2 Segwit quietBlockBook) bip84 false
                      (worldOf importedStore)) = Some w' ∧
        keyed (processor w') ∧
        ∀ sp a, addressByScriptPubkey (processor (worldOf importedStore)) !! sp = Some a →
          ∃ a', addressByScriptPubkey (processor w') !! sp = Some a' ∧
                sameData a a' ∧ (is_Some (path a) → a' = a).
Proof.
  split; [apply importedStore_keyed|].
  assert (∃ w', finalWorld (setLookAhead 4 (sampleConfig 2 Segwit quietBlockBook)
                              bip84 false (worldOf importedStore)) = Some w')
    as [w' Hw] by (vm_compute; eauto).
  exists w'. split; [exact Hw|].
  apply (setLookAhead_keeps_records 4 (sampleConfig 2 Segwit quietBlockBook)
           bip84 false (worldOf importedStore) w' importedStore_keyed Hw).
Defined.

(** ** Imported addresses *)

(** The record [saveNewOrUpdateAddressPathIfNeeded] creates for a script
    it is given without a path. *)
Definition importedRecord (sp : string) : IAddress :=
  mkAddress sp None 0 0 0 false (Some "0").

Lemma save_imported cfg sp w b w1 :
  keyed (processor w) →
  saveNewOrUpdateAddressPathIfNeeded cfg None (Some sp) w = Ok b w1 →
  sp ≠ "" ∧
  processor w1 = match addressByScriptPubkey (processor w) !! sp with
                 | None => saveAddress_store (importedRecord sp) (processor w)
                 | Some _ => processor w
                 end.
Proof.
  intros Hk. unfold saveNewOrUpdateAddressPathIfNeeded, bind.
  case_decide as Hsp; [done|]. cbn.
  destruct (addressByScriptPubkey (processor w) !! sp) as [ad|] eqn:Hs.
  - destruct (path ad) as [q|] eqn:Hq.
    + by intros [= <- <-].
    + intros [= <- <-]. split; [done|]. simpl.
      pose proof (Hk sp ad Hs) as Hkey. simpl in Hkey.
      destruct ad as [k pa nq lq lt u bal]. simpl in *. subst k pa.
      unfold saveAddress_store. simpl. rewrite insert_id by done.
      by destruct (processor w).
  - by intros [= <- <-].
Qed.

Lemma addGapLimitAddresses_run cfg addresses : ∀ w w',
  keyed (processor w) →
  addGapLimitAddresses cfg addresses w = Ok tt w' →
  keyed (processor w') ∧
  scriptPubkeyByPath (processor w') = scriptPubkeyByPath (processor w) ∧
  (∀ sp a, addressByScriptPubkey (processor w) !! sp = Some a →
           addressByScriptPubkey (processor w') !! sp = Some a) ∧
  (∀ addr, addr ∈ addresses →
     let sp := addressToScriptPubkey (walletTools cfg) addr in
     sp ≠ "" ∧
     ∃ a, addressByScriptPubkey (processor w') !! sp = Some a ∧
          (addressByScriptPubkey (processor w) !! sp = None → a = importedRecord sp)).
Proof.
  unfold addGapLimitAddresses.
  induction addresses as [|addr addresses IH]; intros w w' Hk; simpl.
  { intros [= <-]. split; [done|]. split; [done|]. split; [done|].
    intros x Hin. by apply elem_of_nil in Hin. }
  intros Hrun. apply bind_inv_Ok in Hrun as ([] & w1 & Hstep & Hrest).
  apply bind_inv_Ok in Hstep as (b & w0 & Hsave & [= <-]).
  destruct (save_imported cfg _ w b w0 Hk Hsave) as [Hne Hp].
  set (sp := addressToScriptPubkey (walletTools cfg) addr) in *.
  assert (keyed (processor w0) ∧
          scriptPubkeyByPath (processor w0) = scriptPubkeyByPath (processor w) ∧
          (∀ sp0 a, addressByScriptPubkey (processor w) !! sp0 = Some a →
                    addressByScriptPubkey (processor w0) !! sp0 = Some a) ∧
          ∃ a, addressByScriptPubkey (processor w0) !! sp = Some a ∧
               (addressByScriptPubkey (processor w) !! sp = None → a = importedRecord sp) ∧
               ∀ sp0, addressByScriptPubkey (processor w) !! sp0 = None →
                      sp0 ≠ sp → addressByScriptPubkey (processor w0) !! sp0 = None)
    as (Hk0 & Hpath0 & Hkeep0 & a0 & Ha0 & Hfresh0 & Hnone0).
  { rewrite Hp. destruct (addressByScriptPubkey (processor w) !! sp) as [ad|] eqn:Hs.
    - repeat split; try done. exists ad. by repeat split.
    - simpl. split; [apply map_Forall_insert_2; [done|exact Hk]|].
      split; [done|]. split.
      + intros sp0 a Ha. assert (sp0 ≠ sp) by congruence.
        by rewrite lookup_insert_ne.
      + exists (importedRecord sp). rewrite lookup_insert_eq.
        repeat split; try done. intros sp0 H0 Hne0. by rewrite lookup_insert_ne. }
  destruct (IH w0 w' Hk0 Hrest) as (Hk' & Hpath' & Hkeep' & Hall').
  split; [done|]. split; [congruence|]. split; [by eauto|].
  intros x Hin. apply elem_of_cons in Hin as [->|Hin].
  - split; [done|]. exists a0. split; [by apply Hkeep'|done].
  - destruct (Hall' x Hin) as (Hx & a & Ha & Hfresh). split; [done|].
    exists a. split; [done|]. intros Hnone.
    destruct (decide (addressToScriptPubkey (walletTools cfg) x = sp)) as [Heq|Hneq].
    + rewrite Heq in *. specialize (Hfresh0 Hnone). subst a0.
      apply Hkeep' in Ha0. congruence.
    + apply Hfresh. by apply Hnone0.
Qed.

(** X14. When [addGapLimitAddresses] returns on a keyed store, every
    listed address has a record; a record that was there before is
    unchanged, a new one is the unused, path-less record with balance 0;
    and the path index is as before, so no branch grows. *)
Theorem addGapLimitAddresses_adds_records cfg addresses w w' :
  keyed (processor w) →
  addGapLimitAddresses cfg addresses w = Ok tt w' →
  keyed (processor w') ∧
  scriptPubkeyByPath (processor w') = scriptPubkeyByPath (processor w) ∧
  (∀ sp a, addressByScriptPubkey (processor w) !! sp = Some a →
           addressByScriptPubkey (processor w') !! sp = Some a) ∧
  (∀ addr, addr ∈ addresses →
     let sp := addressToScriptPubkey (walletTools cfg) addr in
     sp ≠ "" ∧
     ∃ a, addressByScriptPubkey (processor w') !! sp = Some a ∧
          (addressByScriptPubkey (processor w) !! sp = None → a = importedRecord sp)).
Proof. apply addGapLimitAddresses_run. Qed.

Lemma addGapLimitAddresses_adds_records_witness :
  let cfg := sampleConfig 2 Segwit quietBlockBook in
  let addresses := ["@x"; "@y"] in
  keyed (processor (worldOf importedStore)) ∧
  ∃ w', addGapLimitAddresses cfg addresses (worldOf importedStore) = Ok tt w' ∧
    keyed (processor w') ∧
    scriptPubkeyByPath (processor w') = scriptPubkeyByPath (processor (worldOf importedStore)) ∧
    (∀ sp a, addressByScriptPubkey (processor (worldOf importedStore)) !! sp = Some a →
             addressByScriptPubkey (processor w') !! sp = Some a) ∧
    (∀ addr, addr ∈ addresses →
       let sp := addressToScriptPubkey (walletTools cfg) addr in
       sp ≠ "" ∧
       ∃ a, addressByScriptPubkey (processor w') !! sp = Some a ∧
            (addressByScriptPubkey (processor (worldOf importedStore)) !! sp = None →
             a = importedRecord sp)).
Proof.
  intros cfg addresses. split; [apply importedStore_keyed|].
  assert (∃ w', addGapLimitAddresses cfg addresses (worldOf importedStore) = Ok tt w')
    as [w' Hw] by (vm_compute; eauto).
  exists w'. split; [exact Hw|].
  apply (addGapLimitAddresses_adds_records cfg addresses (worldOf importedStore) w'
           importedStore_keyed Hw).
Defined.

(** ** The fresh address of the facade *)

(** With [find = false] the helper [getFreshAddress] is a function of the
    path index. *)
Lemma getFreshAddress_no_find fuel cfg fmt ch w :
  getFreshAddress fuel cfg fmt ch false w =
  if decide (scriptPubkeyAt cfg (processor w)
               (mkPath fmt ch (anchorIndex cfg (processor w) fmt ch)) = "")
  then Throw "Unknown address path" w
  else Ok (anchorAddress cfg (processor w) fmt ch) w.
Proof.
  case_decide as Hsp; [|by apply getFreshAddress_anchor].
  unfold getFreshAddress.
  rewrite (bind_Ok _ _ _ _ _ (getFreshIndex_anchor fuel cfg fmt ch w)).
  unfold bind, fetchScriptPubkeyByPath, scriptPubkeyAt in *; simpl.
  destruct (scriptPubkeyByPath (processor w) !! _) as [sp|]; simpl in *;
    by case_decide.
Qed.

Lemma addressCount_path_index p1 p2 fmt ch :
  scriptPubkeyByPath p1 = scriptPubkeyByPath p2 →
  addressCount p1 fmt ch = addressCount p2 fmt ch.
Proof. unfold addressCount. by intros ->. Qed.

Lemma getFreshAddress_path_index fuel cfg fmt ch w1 w2 :
  scriptPubkeyByPath (processor w1) = scriptPubkeyByPath (processor w2) →
  outcome (getFreshAddress fuel cfg fmt ch false w1)
  = outcome (getFreshAddress fuel cfg fmt ch false w2).
Proof.
  intros H. rewrite !getFreshAddress_no_find.
  unfold anchorAddress, scriptPubkeyAt, anchorIndex.
  rewrite (addressCount_path_index _ _ fmt ch H), H.
  by case_decide.
Qed.

Lemma facade_path_index fuel cfg change w1 w2 :
  scriptPubkeyByPath (processor w1) = scriptPubkeyByPath (processor w2) →
  outcome (UtxoEngineState_getFreshAddress fuel cfg change w1)
  = outcome (UtxoEngineState_getFreshAddress fuel cfg change w2).
Proof.
  intros H. unfold UtxoEngineState_getFreshAddress.
  set (ch := if change && _ then 1 else 0).
  assert (∀ fmt, outcome (getFreshAddress fuel cfg fmt ch false w1)
                 = outcome (getFreshAddress fuel cfg fmt ch false w2)) as Hout
    by (intros; by apply getFreshAddress_path_index).
  assert (∀ fmt w, finalWorld (getFreshAddress fuel cfg fmt ch false w) = Some w)
    as Hsame.
  { intros fmt w. rewrite getFreshAddress_no_find. by case_decide. }
  case_decide.
  - unfold bind.
    pose proof (Hout (getCurrencyFormatFromPurposeType WrappedSegwit)) as Ha.
    pose proof (Hsame (getCurrencyFormatFromPurposeType WrappedSegwit) w1) as Hw1.
    pose proof (Hsame (getCurrencyFormatFromPurposeType WrappedSegwit) w2) as Hw2.
    destruct (getFreshAddress fuel cfg _ ch false w1) as [a1 v1|e1 v1|];
      destruct (getFreshAddress fuel cfg _ ch false w2) as [a2 v2|e2 v2|];
      simpl in *; try done; try congruence.
    injection Ha as ->. injection Hw1 as ->. injection Hw2 as ->.
    pose proof (Hout (getCurrencyFormatFromPurposeType Segwit)) as Hb.
    destruct (getFreshAddress fuel cfg _ ch false w1) as [b1 u1|f1 u1|];
      destruct (getFreshAddress fuel cfg _ ch false w2) as [b2 u2|f2 u2|];
      simpl in *; try done; congruence.
  - unfold bind.
    pose proof (Hout (getCurrencyFormatFromPurposeType
                        (getPurposeTypeFromKeys (walletInfo cfg)))) as Ha.
    destruct (getFreshAddress fuel cfg _ ch false w1) as [a1 v1|e1 v1|];
      destruct (getFreshAddress fuel cfg _ ch false w2) as [a2 v2|e2 v2|];
      simpl in *; try done; try congruence.
    by injection Ha as ->.
Qed.

(** X15. When [markAddressUsed] returns for an address that has a record,
    that record has [used = true] and is otherwise as it was, and
    [getFreshAddress] of the facade answers after the call as it did
    before, even for the address just marked: the facade asks for the index
    without a scan ([find = false]). *)
Theorem markAddressUsed_keeps_fresh_address fuel cfg addr change a w w' :
  addressByScriptPubkey (processor w)
    !! addressToScriptPubkey (walletTools cfg) addr = Some a →
  markAddressUsed cfg addr w = Ok tt w' →
  addressByScriptPubkey (processor w')
    !! addressToScriptPubkey (walletTools cfg) addr
  = Some (mkAddress (scriptPubkey a) (path a) (networkQueryVal a) (lastQuery a)
                    (lastTouched a) true (balance a)) ∧
  outcome (UtxoEngineState_getFreshAddress fuel cfg change w')
  = outcome (UtxoEngineState_getFreshAddress fuel cfg change w).
Proof.
  intros Ha Hrun. injection Hrun as <-. split.
  - simpl. by rewrite lookup_alter_eq, Ha.
  - by apply facade_path_index.
Qed.

Lemma markAddressUsed_keeps_fresh_address_witness :
  ∃ w',
    markAddressUsed (sampleConfig 2 Segwit quietBlockBook) "@d01"
      (worldOf (sampleStore bip84 0 sampleFlags)) = Ok tt w' ∧
    addressByScriptPubkey (processor w') !! "d01"
    = Some (mkAddress "d01" (Some (mkPath bip84 0 1)) 0 0 0 true (Some "0")) ∧
    outcome (UtxoEngineState_getFreshAddress 0 (sampleConfig 2 Segwit quietBlockBook)
               false w')
    = outcome (UtxoEngineState_getFreshAddress 0 (sampleConfig 2 Segwit quietBlockBook)
                 false (worldOf (sampleStore bip84 0 sampleFlags))).
Proof.
  eexists. split; [reflexivity|].
  apply (markAddressUsed_keeps_fresh_address 0 (sampleConfig 2 Segwit quietBlockBook)
           "@d01" false
           (mkAddress "d01" (Some (mkPath bip84 0 1)) 0 0 0 false (Some "0"))
           (worldOf (sampleStore bip84 0 sampleFlags))).
  - vm_compute. reflexivity.
  - reflexivity.
Defined.

(** X16. For a wallet whose purpose type is not native Segwit,
    [getFreshAddress] returns as [publicAddress] the address of the
    wallet's own format at the anchor index [max(0, addressCount -
    gapLimit)] of the requested branch (always the receive branch for an
    Airbitz wallet), no [segwitAddress], and a [legacyAddress] only when it
    differs from the public one; the store is not changed. *)
Theorem getFreshAddress_not_segwit fuel cfg (change : bool) w :
  let purpose := getPurposeTypeFromKeys (walletInfo cfg) in
  let fmt := getCurrencyFormatFromPurposeType purpose in
  let ch := if change && bool_decide (purpose ≠ Airbitz) then 1 else 0 in
  let fresh := anchorAddress cfg (processor w) fmt ch in
  purpose ≠ Segwit →
  scriptPubkeyAt cfg (processor w)
    (mkPath fmt ch (anchorIndex cfg (processor w) fmt ch)) ≠ "" →
  UtxoEngineState_getFreshAddress fuel cfg change w
  = Ok (mkFreshAddress (address fresh) None
          (if decide (legacyAddress fresh ≠ address fresh)
           then Some (legacyAddress fresh) else None)) w.
Proof.
  intros purpose fmt ch fresh Hp Hsp.
  unfold UtxoEngineState_getFreshAddress. fold purpose. fold ch.
  destruct (decide (purpose = Segwit)); [done|]. fold fmt.
  by rewrite (bind_Ok _ _ _ _ _ (getFreshAddress_anchor fuel cfg fmt ch w Hsp)).
Qed.

Lemma getFreshAddress_not_segwit_witness :
  UtxoEngineState_getFreshAddress 0 (sampleConfig 2 Airbitz quietBlockBook) true
    (worldOf (sampleStore bip44 0 sampleFlags))
  = Ok (mkFreshAddress "@b011" None (Some "#b011"))
       (worldOf (sampleStore bip44 0 sampleFlags)).
Proof.
  apply (getFreshAddress_not_segwit 0 (sampleConfig 2 Airbitz quietBlockBook) true
           (worldOf (sampleStore bip44 0 sampleFlags))).
  - done.
  - by vm_compute.
Defined.

(** ** The watch list *)

Definition watchKept (w w' : World) : Prop :=
  addressesToWatch w' = addressesToWatch w.

Lemma watchKept_refl w : watchKept w w.
Proof. done. Qed.

Lemma watchKept_trans w1 w2 w3 : watchKept w1 w2 → watchKept w2 w3 → watchKept w1 w3.
Proof. unfold watchKept. congruence. Qed.

Lemma watchKept_same w w' :
  processor w' = processor w → addressesToWatch w' = addressesToWatch w →
  watchKept w w'.
Proof. by intros _ H. Qed.

Lemma watchKept_modify f :
  (∀ w, addressesToWatch (f w) = addressesToWatch w) → keeps watchKept (modify f).
Proof. intros H w w' [= <-]. apply H. Qed.

Lemma watchKept_setLookAhead fuel cfg fmt pna :
  keeps watchKept (setLookAhead fuel cfg fmt pna).
Proof.
  apply (keeps_setLookAhead _ watchKept_refl watchKept_trans watchKept_same).
  intros pth sp.
  apply (keeps_saveNewOrUpdate _ watchKept_refl watchKept_trans watchKept_same).
  intros a. by apply watchKept_modify.
Qed.

Lemma watchKept_processAddressTransactions fuel cfg addr page :
  keeps watchKept (processAddressTransactions fuel cfg addr page).
Proof.
  apply (keeps_processAddressTransactions _ watchKept_refl watchKept_trans
           watchKept_same).
  intros tx. by apply watchKept_modify.
Qed.

Lemma watchKept_processAddressUtxos cfg addr :
  keeps watchKept (processAddressUtxos cfg addr).
Proof.
  apply (keeps_processAddressUtxos _ watchKept_refl watchKept_trans watchKept_same);
    intros u; by apply watchKept_modify.
Qed.

Lemma Ok_finalWorld {A} (m : M A) w a w' :
  m w = Ok a w' → finalWorld (m w) = Some w'.
Proof. by intros ->. Qed.

(** X17. A run of [processAddress] for an address that has a record,
    and that hands no address to [mutex.runExclusive] (no look-ahead pass
    in it creates an address, so no further [processAddress] is started),
    adds the address to the watch list when it is not on it and does
    nothing else to the list, however the run ends; a list without
    repetitions stays one. *)
Theorem processAddress_watches_once fuel cfg addr a w w' :
  addressByScriptPubkey (processor w)
    !! addressToScriptPubkey (walletTools cfg) addr = Some a →
  finalWorld (processAddress fuel cfg addr w) = Some w' →
  mutexQueue w' = mutexQueue w →
  addressesToWatch w' =
    (if bool_decide (addr ∈ addressesToWatch w)
     then addressesToWatch w else addressesToWatch w ++ [addr]) ∧
  (NoDup (addressesToWatch w) → NoDup (addressesToWatch w')).
Proof.
  intros Ha. unfold processAddress.
  rewrite (bind_Ok _ _ w (Some a) (tick 1 w))
    by (unfold fetchAddressByScriptPubkey; by rewrite Ha).
  cbv beta iota.
  rewrite (bind_Ok _ _ (tick 1 w) (bool_decide (addr ∈ addressesToWatch w)) (tick 1 w))
    by done.
  set (w2 := if bool_decide (addr ∈ addressesToWatch w) then tick 1 w
             else mkWorld (processor w) (addressesToWatch w ++ [addr])
                    (Call_watchAddresses (addressesToWatch w ++ [addr]) :: events w)
                    (1 + probes w) (mutexQueue w)).
  rewrite (bind_Ok _ _ (tick 1 w) tt w2)
    by (unfold w2; by destruct (bool_decide _)).
  intros Hrun _.
  match type of Hrun with
  | finalWorld (?m w2) = _ => assert (keeps watchKept m) as Hkeep
  end.
  { apply (keeps_bind _ watchKept_trans);
      [apply (keeps_awaitBlockBook _ watchKept_refl)|]. intros d.
    apply (keeps_bind _ watchKept_trans).
    { destruct (decide _); [by apply watchKept_modify|apply (keeps_ret _ watchKept_refl)]. }
    intros _. apply (keeps_bind _ watchKept_trans);
      [apply watchKept_processAddressTransactions|]. intros _.
    apply (keeps_bind _ watchKept_trans);
      [apply watchKept_processAddressUtxos|]. intros _.
    apply (keeps_bind _ watchKept_trans); [by apply watchKept_modify|]. intros _.
    apply (keeps_bind _ watchKept_trans).
    { destruct (_ && onAddressChecked cfg);
        [by apply watchKept_modify|apply (keeps_ret _ watchKept_refl)]. }
    intros _. destruct (path a) as [pth|]; [|apply (keeps_ret _ watchKept_refl)].
    destruct (negb (used a) && _);
      [apply watchKept_setLookAhead|apply (keeps_ret _ watchKept_refl)]. }
  apply Hkeep in Hrun. unfold watchKept in Hrun. rewrite Hrun. unfold w2.
  destruct (bool_decide (addr ∈ addressesToWatch w)) eqn:Hin; simpl.
  - done.
  - split; [done|]. intros Hnd. apply NoDup_app. split; [done|].
    apply bool_decide_eq_false in Hin. split.
    + intros x Hx ->%list_elem_of_singleton. done.
    + apply NoDup_singleton.
Qed.

Lemma processAddress_watches_once_witness :
  let cfg := sampleConfig 2 Segwit quietBlockBook in
  let w := mkWorld (sampleStore bip84 0 sampleFlags) ["@d0"] [] 0 [] in
  ∃ a w',
    addressByScriptPubkey (processor w)
      !! addressToScriptPubkey (walletTools cfg) "@d01" = Some a ∧
    finalWorld (processAddress 6 cfg "@d01" w) = Some w' ∧
    mutexQueue w' = mutexQueue w ∧
    addressesToWatch w' =
      (if bool_decide ("@d01" ∈ addressesToWatch w)
       then addressesToWatch w else addressesToWatch w ++ ["@d01"]) ∧
    (NoDup (addressesToWatch w) → NoDup (addressesToWatch w')).
Proof.
  intros cfg w.
  assert (∃ a, addressByScriptPubkey (processor w)
                 !! addressToScriptPubkey (walletTools cfg) "@d01" = Some a)
    as [a Ha] by (vm_compute; eauto).
  assert (∃ w', finalWorld (processAddress 6 cfg "@d01" w) = Some w'
                ∧ mutexQueue w' = mutexQueue w)
    as (w' & Hw & Hq) by (vm_compute; eauto).
  exists a, w'. split; [exact Ha|]. split; [exact Hw|]. split; [exact Hq|].
  apply (processAddress_watches_once 6 cfg "@d01" a w w' Ha Hw Hq).
Defined.

(** ** What [processAddress] writes down *)

Definition addressesSame (w w' : World) : Prop :=
  addressByScriptPubkey (processor w') = addressByScriptPubkey (processor w).

Lemma addressesSame_refl w : addressesSame w w.
Proof. done. Qed.

Lemma addressesSame_trans w1 w2 w3 :
  addressesSame w1 w2 → addressesSame w2 w3 → addressesSame w1 w3.
Proof. unfold addressesSame. congruence. Qed.

Lemma addressesSame_same w w' :
  processor w' = processor w → addressesToWatch w' = addressesToWatch w →
  addressesSame w w'.
Proof. unfold addressesSame. by intros -> _. Qed.

Lemma addressesSame_modify f :
  (∀ w, addressByScriptPubkey (processor (f w)) = addressByScriptPubkey (processor w)) →
  keeps addressesSame (modify f).
Proof. intros H w w' [= <-]. apply H. Qed.

Lemma addressesSame_processAddressTransactions fuel cfg addr page :
  keeps addressesSame (processAddressTransactions fuel cfg addr page).
Proof.
  apply (keeps_processAddressTransactions _ addressesSame_refl addressesSame_trans
           addressesSame_same).
  intros tx. by apply addressesSame_modify.
Qed.

Lemma addressesSame_processAddressUtxos cfg addr :
  keeps addressesSame (processAddressUtxos cfg addr).
Proof.
  apply (keeps_processAddressUtxos _ addressesSame_refl addressesSame_trans
           addressesSame_same);
    intros u; by apply addressesSame_modify.
Qed.

Lemma keyed_alter (f : IAddress → IAddress) sp p abs' :
  (∀ a, scriptPubkey (f a) = scriptPubkey a) →
  keyed p → addressByScriptPubkey abs' = alter f sp (addressByScriptPubkey p) →
  keyed abs'.
Proof.
  intros Hf Hk Habs k x. rewrite Habs. intros Hx.
  destruct (decide (k = sp)) as [->|Hne].
  - rewrite lookup_alter_eq in Hx.
    destruct (addressByScriptPubkey p !! sp) as [a|] eqn:Ha; [|done].
    injection Hx as <-. simpl. rewrite Hf. by apply (Hk sp a).
  - rewrite lookup_alter_ne in Hx by done. by apply (Hk k x).
Qed.

Lemma recordsKept_setLookAhead fuel cfg fmt pna :
  keeps recordsKept (setLookAhead fuel cfg fmt pna).
Proof.
  apply (keeps_setLookAhead recordsKept recordsKept_refl recordsKept_trans
           recordsKept_same cfg (keeps_records_save cfg)).
Qed.

(** X18. When [processAddress] returns on a keyed store, the record of
    the address carries the balance the indexer reported (confirmed plus
    unconfirmed) and is marked used exactly if the indexer knows of a
    transaction; it keeps its [scriptPubkey] and, if it had one, its path,
    also when a look-ahead pass ran at the end. *)
Theorem processAddress_records_indexer fuel cfg addr a d w w' :
  let sp := addressToScriptPubkey (walletTools cfg) addr in
  keyed (processor w) →
  addressByScriptPubkey (processor w) !! sp = Some a →
  bb_fetchAddress (blockBook cfg) addr None = Some d →
  processAddress fuel cfg addr w = Ok tt w' →
  ∃ a', addressByScriptPubkey (processor w') !! sp = Some a' ∧
        balance a' = Some (bs_add cfg (resp_balance d) (resp_unconfirmedBalance d)) ∧
        used a' = nowUsed d ∧
        scriptPubkey a' = sp ∧
        (is_Some (path a) → path a' = path a).
Proof.
  intros sp Hk Ha Hd. unfold processAddress. fold sp.
  rewrite (bind_Ok _ _ w (Some a) (tick 1 w))
    by (unfold fetchAddressByScriptPubkey; by rewrite Ha).
  cbv beta iota.
  rewrite (bind_Ok _ _ (tick 1 w) (bool_decide (addr ∈ addressesToWatch w)) (tick 1 w))
    by done.
  set (w2 := if bool_decide (addr ∈ addressesToWatch w) then tick 1 w
             else mkWorld (processor w) (addressesToWatch w ++ [addr])
                    (Call_watchAddresses (addressesToWatch w ++ [addr]) :: events w)
                    (1 + probes w) (mutexQueue w)).
  rewrite (bind_Ok _ _ (tick 1 w) tt w2)
    by (unfold w2; by destruct (bool_decide _)).
  assert (processor w2 = processor w) as Hp2
    by (unfold w2; by destruct (bool_decide _)).
  rewrite Hd. rewrite (bind_Ok _ _ w2 d w2) by done. cbv beta.
  intros Hrun.
  apply bind_inv_Ok in Hrun as ([] & w3 & H3 & Hrun).
  apply bind_inv_Ok in Hrun as ([] & w4 & H4 & Hrun).
  apply bind_inv_Ok in Hrun as ([] & w5 & H5 & Hrun).
  apply bind_inv_Ok in Hrun as ([] & w6 & H6 & Hrun).
  apply bind_inv_Ok in Hrun as ([] & w7 & H7 & Hrun).
  assert (processor w3 = processor w2) as Hp3.
  { destruct (decide _); by injection H3 as <-. }
  apply Ok_finalWorld, addressesSame_processAddressTransactions in H4.
  apply Ok_finalWorld, addressesSame_processAddressUtxos in H5.
  unfold addressesSame in H4, H5.
  injection H6 as <-.
  assert (processor w7
          = mkProcessor
              (alter (applyPatch
                        (mkPatch (Some (bs_add cfg (resp_balance d)
                                          (resp_unconfirmedBalance d)))
                                 (Some (nowUsed d))))
                     sp (addressByScriptPubkey (processor w)))
              (scriptPubkeyByPath (processor w5)) (txById (processor w5))
              (utxoById (processor w5))) as Hp7.
  { destruct (_ && onAddressChecked cfg); injection H7 as <-; simpl;
      by rewrite H5, H4, Hp3, Hp2. }
  assert (keyed (processor w7)) as Hk7.
  { eapply (keyed_alter _ sp (processor w)); [|exact Hk|by rewrite Hp7].
    by intros x. }
  assert (recordsKept w7 w') as Hkept.
  { destruct (path a) as [pth|].
    - destruct (negb (used a) && _).
      + apply Ok_finalWorld in Hrun.
        by apply (recordsKept_setLookAhead fuel cfg (format pth) true w7 w').
      + injection Hrun as <-. apply recordsKept_refl.
    - injection Hrun as <-. apply recordsKept_refl. }
  destruct (Hkept Hk7) as [_ Hrec].
  destruct (Hrec sp (applyPatch
                       (mkPatch (Some (bs_add cfg (resp_balance d)
                                         (resp_unconfirmedBalance d)))
                                (Some (nowUsed d))) a))
    as (a' & Ha' & (Hsp & _ & _ & _ & Hused & Hbal) & Hpath).
  { rewrite Hp7. simpl. by rewrite lookup_alter_eq, Ha. }
  exists a'. split; [done|]. simpl in *.
  split; [done|]. split; [done|]. split.
  - rewrite Hsp. by apply (Hk sp a).
  - intros Hsome. by rewrite (Hpath Hsome).
Qed.

Lemma saveAddress_store_keyed a p : keyed p → keyed (saveAddress_store a p).
Proof. intros Hk. by apply map_Forall_insert_2. Qed.

Lemma sampleStore_keyed fmt ch flags : keyed (sampleStore fmt ch flags).
Proof.
  unfold sampleStore.
  assert (keyed emptyProcessor) as H0 by apply map_Forall_empty.
  revert H0. generalize emptyProcessor. generalize (imap pair flags).
  induction l as [|iu l IH]; intros p Hp; simpl; [done|].
  apply IH. by apply saveAddress_store_keyed.
Qed.

Lemma processAddress_records_indexer_witness :
  let cfg := sampleConfig 2 Segwit utxoBlockBook in
  let w := worldOf (sampleStore bip84 0 [false; false]) in
  keyed (processor w) ∧
  ∃ a d w',
    addressByScriptPubkey (processor w)
      !! addressToScriptPubkey (walletTools cfg) "@d0" = Some a ∧
    bb_fetchAddress (blockBook cfg) "@d0" None = Some d ∧
    processAddress 6 cfg "@d0" w = Ok tt w' ∧
    ∃ a', addressByScriptPubkey (processor w')
            !! addressToScriptPubkey (walletTools cfg) "@d0" = Some a' ∧
          balance a' = Some (bs_add cfg (resp_balance d) (resp_unconfirmedBalance d)) ∧
          used a' = nowUsed d ∧
          scriptPubkey a' = addressToScriptPubkey (walletTools cfg) "@d0" ∧
          (is_Some (path a) → path a' = path a).
Proof.
  intros cfg w.
  assert (keyed (processor w)) as Hk.
  { apply sampleStore_keyed. }
  split; [exact Hk|].
  assert (∃ a, addressByScriptPubkey (processor w)
                 !! addressToScriptPubkey (walletTools cfg) "@d0" = Some a)
    as [a Ha] by (vm_compute; eauto).
  assert (∃ w', processAddress 6 cfg "@d0" w = Ok tt w')
    as [w' Hw] by (vm_compute; eauto).
  exists a, (mkAddressResponse "500" "0" 1 0 None None), w'.
  split; [exact Ha|]. split; [reflexivity|]. split; [exact Hw|].
  apply (processAddress_records_indexer 6 cfg "@d0" a
           (mkAddressResponse "500" "0" 1 0 None None) w w' Hk Ha eq_refl Hw).
Defined.

(** ** Walking the pages of the history *)

(** What a pass over the transactions [listed] leaves under [t] in the
    store [txs'], which held [txs] before: nothing new if none of them
    has this id, else the normal form of one of them. *)
Definition storedFrom (cfg : EngineConfig) (listed : ITransaction → Prop)
    (txs txs' : gmap string ProcessorTransaction) (t : string) : Prop :=
  ((∀ tx, listed tx → raw_txid tx ≠ t) ∧ txs' !! t = txs !! t)
  ∨ (∃ tx, listed tx ∧ raw_txid tx = t ∧ txs' !! t = Some (processRawTx cfg tx)).

Lemma saveTransactions_store cfg txs : ∀ m0 w,
  ∃ w1, saveTransactions cfg txs m0 w = Ok (txidMapOf txs m0) w1 ∧
        addressByScriptPubkey (processor w1) = addressByScriptPubkey (processor w) ∧
        ∀ t, storedFrom cfg (λ tx, tx ∈ txs)
               (txById (processor w)) (txById (processor w1)) t.
Proof.
  induction txs as [|tx txs IH]; intros m0 w; simpl.
  { exists w. split; [done|]. split; [done|]. intros t. left. split; [|done].
    intros tx Hin. by apply elem_of_nil in Hin. }
  unfold bind, saveTransaction, modify; simpl.
  edestruct IH as (w1 & -> & Habs & Hst). exists w1.
  split; [done|]. split; [by rewrite Habs|].
  intros t. destruct (Hst t) as [[Hnone Hsame]|(y & Hy & Hid & Hlook)].
  - simpl in Hsame. destruct (decide (raw_txid tx = t)) as [Heq|Hne].
    + right. exists tx. split; [apply list_elem_of_here|]. split; [done|].
      by rewrite Hsame, <- Heq, lookup_insert_eq.
    + left. split.
      * intros y [->|Hy]%elem_of_cons; [done|by apply Hnone].
      * by rewrite Hsame, lookup_insert_ne.
  - right. exists y. split; [by apply list_elem_of_further|done].
Qed.

Section Pages.

Context (cfg : EngineConfig) (addr : string).
(** The pages the indexer serves for the address, and the page count it
    reports with each of them. *)
Context (respAt : nat → AddressResponse) (totalPages : nat).

Definition txsAt (q : nat) : list ITransaction :=
  default [] (resp_transactions (respAt q)).

(** [tx] is listed on one of the pages [p .. max p totalPages]. *)
Definition listedFrom (p : nat) (tx : ITransaction) : Prop :=
  ∃ q, p ≤ q ≤ Nat.max p totalPages ∧ tx ∈ txsAt q.

Lemma processAddressTransactions_walk fuel : ∀ p w,
  (∀ q, bb_fetchAddress (blockBook cfg) addr
          (Some (txPageOpts (addressByScriptPubkey (processor w)
                               !! addressToScriptPubkey (walletTools cfg) addr) q))
        = Some (respAt q)) →
  (∀ q, resp_totalPages (respAt q) = Some totalPages) →
  totalPages - p < fuel →
  ∃ w', processAddressTransactions fuel cfg addr p w = Ok tt w' ∧
    addressByScriptPubkey (processor w') = addressByScriptPubkey (processor w) ∧
    ∀ t, storedFrom cfg (listedFrom p) (txById (processor w)) (txById (processor w')) t.
Proof.
  induction fuel as [|fuel IH]; intros p w Hresp Htotal Hfuel; [lia|].
  cbn [processAddressTransactions].
  unfold bind at 1. unfold fetchAddressByScriptPubkey at 1. cbn -[Nat.ltb].
  rewrite Hresp. unfold bind at 1. cbn -[Nat.ltb]. fold (txsAt p).
  destruct (saveTransactions_store cfg (txsAt p) ∅ (tick 1 w))
    as (w1 & Hsave & Habs1 & Hst1).
  unfold bind at 1. rewrite Hsave.
  set (w2 := if negb (length (txsAt p) =? 0)
             then logEvent (Emit_TXIDS_CHANGED (txidMapOf (txsAt p) ∅)) w1 else w1).
  assert (processor w2 = processor w1) as Hp2 by (unfold w2; by destruct (negb _)).
  assert (∀ k : unit → M unit, bind (if negb (length (txsAt p) =? 0)
                     then emit (Emit_TXIDS_CHANGED (txidMapOf (txsAt p) ∅))
                     else ret tt) k w1 = k tt w2) as Hemit.
  { intros k. unfold w2, bind. by destruct (negb _). }
  rewrite Hemit, Htotal.
  destruct (p <? totalPages) eqn:Hlt.
  - apply Nat.ltb_lt in Hlt.
    destruct (IH (S p) w2) as (w' & Hrun & Habs' & Hst'); [|done|lia|].
    { intros q. rewrite Hp2, Habs1. apply Hresp. }
    assert (∀ tx, listedFrom p tx ↔ tx ∈ txsAt p ∨ listedFrom (S p) tx) as Hsplit.
    { intros tx. unfold listedFrom. split.
      - intros (q & Hq & Hin). destruct (decide (q = p)) as [->|Hne]; [by left|].
        right. exists q. split; [lia|done].
      - intros [Hin|(q & Hq & Hin)]; [exists p; split; [lia|done]|].
        exists q. split; [lia|done]. }
    exists w'. split; [done|]. split; [by rewrite Habs', Hp2, Habs1|].
    intros t. destruct (Hst' t) as [[Hnone' Hsame']|(y & Hy & Hid & Hlook)].
    + rewrite Hp2 in Hsame'.
      destruct (Hst1 t) as [[Hnone1 Hsame1]|(y & Hy & Hid & Hlook)].
      * left. split; [|by rewrite Hsame', Hsame1].
        intros tx [Htx|Htx]%Hsplit; [by apply Hnone1|by apply Hnone'].
      * right. exists y. split; [apply Hsplit; by left|]. split; [done|].
        by rewrite Hsame'.
    + right. exists y. split; [apply Hsplit; by right|done].
  - apply Nat.ltb_ge in Hlt.
    assert (∀ tx, listedFrom p tx ↔ tx ∈ txsAt p) as Hsplit.
    { intros tx. unfold listedFrom. split.
      - intros (q & Hq & Hin). by replace p with q by lia.
      - intros Hin. exists p. split; [lia|done]. }
    exists w2. split; [done|]. split; [by rewrite Hp2, Habs1|].
    intros t. rewrite Hp2.
    destruct (Hst1 t) as [[Hnone1 Hsame1]|(y & Hy & Hid & Hlook)].
    + left. split; [|done]. intros tx Htx%Hsplit. by apply Hnone1.
    + right. exists y. split; [by apply Hsplit|done].
Qed.

(** X19. If the indexer serves every page of an address and reports the
    same page count [totalPages] with each, [processAddressTransactions]
    started at page [p] returns after the pages [p .. max p totalPages]
    (fuel for that many calls is enough); it leaves the address records
    alone; every transaction listed on one of these pages is then in the
    store, in the normal form of a listed transaction of that txid; and
    what the store holds under any other txid is unchanged. *)
Theorem processAddressTransactions_walks_pages fuel p w :
  (∀ q, bb_fetchAddress (blockBook cfg) addr
          (Some (txPageOpts (addressByScriptPubkey (processor w)
                               !! addressToScriptPubkey (walletTools cfg) addr) q))
        = Some (respAt q)) →
  (∀ q, resp_totalPages (respAt q) = Some totalPages) →
  totalPages - p < fuel →
  ∃ w', processAddressTransactions fuel cfg addr p w = Ok tt w' ∧
    addressByScriptPubkey (processor w') = addressByScriptPubkey (processor w) ∧
    (∀ tx, listedFrom p tx →
       ∃ tx', listedFrom p tx' ∧ raw_txid tx' = raw_txid tx ∧
              txById (processor w') !! raw_txid tx = Some (processRawTx cfg tx')) ∧
    (∀ t, (∀ tx, listedFrom p tx → raw_txid tx ≠ t) →
          txById (processor w') !! t = txById (processor w) !! t).
Proof.
  intros Hresp Htotal Hfuel.
  destruct (processAddressTransactions_walk fuel p w Hresp Htotal Hfuel)
    as (w' & Hrun & Habs & Hst).
  exists w'. split; [done|]. split; [done|]. split.
  - intros tx Htx. destruct (Hst (raw_txid tx)) as [[Hnone _]|(y & Hy & Hid & Hlook)].
    + by destruct (Hnone tx Htx).
    + by exists y.
  - intros t Ht. destruct (Hst t) as [[_ Hsame]|(y & Hy & Hid & _)]; [done|].
    by destruct (Ht y Hy).
Qed.

End Pages.

(** An indexer that serves two pages of one transaction each. *)
Definition twoPageBlockBook : BlockBook :=
  mkBlockBook (λ _ opts,
                 Some (mkAddressResponse "0" "0" 2 0
                         (Some [sampleTx (if decide ((opts ≫= opt_page) = Some 2)
                                          then "bb" else "aa") 11])
                         (Some 2)))
              (λ _, Some [])
              (λ _, None).

Lemma processAddressTransactions_walks_pages_witness :
  let cfg := sampleConfig 2 Segwit twoPageBlockBook in
  let respAt := λ q : nat, mkAddressResponse "0" "0" 2 0
                             (Some [sampleTx (if decide (Some q = Some 2)
                                              then "bb" else "aa") 11])
                             (Some 2) in
  ∃ w', processAddressTransactions 2 cfg "@d0" 1 emptyWorld = Ok tt w' ∧
    addressByScriptPubkey (processor w') = addressByScriptPubkey (processor emptyWorld) ∧
    (∀ tx, listedFrom respAt 2 1 tx →
       ∃ tx', listedFrom respAt 2 1 tx' ∧ raw_txid tx' = raw_txid tx ∧
              txById (processor w') !! raw_txid tx = Some (processRawTx cfg tx')) ∧
    (∀ t, (∀ tx, listedFrom respAt 2 1 tx → raw_txid tx ≠ t) →
          txById (processor w') !! t = txById (processor emptyWorld) !! t).
Proof.
  intros cfg respAt.
  apply (processAddressTransactions_walks_pages cfg "@d0" respAt 2 2 1 emptyWorld);
    [done|done|lia].
Defined.

(** ** Unspent outputs that are already known *)

Lemma reconcileUtxos_known cfg pth sp : ∀ us old w old' w',
  reconcileUtxos cfg pth sp us old w = Ok old' w' →
  (∀ k, k ∉ utxoId <$> us →
        utxoById (processor w') !! k = utxoById (processor w) !! k)
  ∧ (∀ k u, old' !! k = Some u → old !! k = Some u ∧ k ∉ utxoId <$> us)
  ∧ (NoDup (utxoId <$> us) →
     ∀ k u, old !! k = Some u → utxoById (processor w) !! k = Some u →
            utxoById (processor w') !! k = Some u).
Proof.
  induction us as [|utxo rest IH]; intros old w old' w' Hrun; simpl in Hrun.
  { injection Hrun as <- <-. split; [done|]. split; [|done].
    intros k u Hu. split; [done|]. apply not_elem_of_nil. }
  destruct (old !! utxoId utxo) as [x|] eqn:Hold.
  - apply IH in Hrun as (F1 & F2 & F3). split; [|split].
    + intros k Hk. apply F1. intros Hin. apply Hk. by apply list_elem_of_further.
    + intros k u Hu. apply F2 in Hu as [Hu Hk].
      apply lookup_delete_Some in Hu as [Hne Hu]. split; [done|].
      intros [Heq|Hin]%elem_of_cons; [by subst|done].
    + intros Hnd k u Hu Hst. apply NoDup_cons in Hnd as [Hfresh Hnd].
      destruct (decide (k = utxoId utxo)) as [->|Hne].
      * by rewrite F1.
      * apply (F3 Hnd); [|done]. by rewrite lookup_delete_ne.
  - apply bind_inv_Ok in Hrun as (s & w0 & Hscripts & Hrun).
    assert (w0 = w) as ->.
    { destruct (currencyFormatToPurposeType (format pth));
        try (by injection Hscripts as _ <-);
        apply bind_inv_Ok in Hscripts as (tx & w1 & Htx & [= _ <-]);
        by apply fetchTransaction_Ok in Htx. }
    apply bind_inv_Ok in Hrun as ([] & w1 & [= <-] & Hrun).
    apply IH in Hrun as (F1 & F2 & F3). simpl in F1, F3. split; [|split].
    + intros k Hk. rewrite F1.
      * rewrite lookup_insert_ne; [done|]. intros <-. apply Hk, list_elem_of_here.
      * intros Hin. apply Hk. by apply list_elem_of_further.
    + intros k u Hu. apply F2 in Hu as [Hu Hk]. split; [done|].
      intros [Heq|Hin]%elem_of_cons; [|done]. subst k. congruence.
    + intros Hnd k u Hu Hst. apply NoDup_cons in Hnd as [_ Hnd].
      apply (F3 Hnd); [done|].
      rewrite lookup_insert_ne; [done|]. intros <-. congruence.
Qed.

(** X20. An unspent output already stored for the address and reported
    again by the indexer (once) is left in the store as it was by
    [processAddressUtxos]: neither its value nor its block height is
    refreshed from the report. *)
Theorem processAddressUtxos_keeps_known cfg addr w a pth us w' :
  let sp := addressToScriptPubkey (walletTools cfg) addr in
  utxosKeyed (processor w) →
  addressByScriptPubkey (processor w) !! sp = Some a →
  path a = Some pth →
  bb_fetchAddressUtxos (blockBook cfg) addr = Some us →
  NoDup (utxoId <$> us) →
  processAddressUtxos cfg addr w = Ok tt w' →
  ∀ k u, utxoById (processor w) !! k = Some u → utxo_scriptPubkey u = sp →
         k ∈ utxoId <$> us →
         utxoById (processor w') !! k = Some u.
Proof.
  intros sp Hkey Ha Hpath Hus Hnd. unfold processAddressUtxos. fold sp.
  unfold bind at 1. unfold fetchAddressByScriptPubkey at 1. simpl.
  rewrite Ha, Hpath. unfold bind at 1. unfold fetchUtxosByScriptPubkey at 1. simpl.
  set (stored := filter (λ u, utxo_scriptPubkey u = sp)
                        (map_to_list (utxoById (processor w))).*2).
  fold (indexById stored ∅). set (old0 := indexById stored ∅).
  rewrite Hus. unfold bind at 1. simpl. unfold bind at 1.
  destruct (reconcileUtxos cfg pth sp us old0 (tick 1 w)) as [old' w1|e w1|] eqn:Hrec;
    [|done|done].
  apply reconcileUtxos_known in Hrec as (F1 & F2 & F3). simpl in F3.
  destruct (removeUtxos_run (map_to_list old').*2 w1) as (w2 & Hrm & Hw2).
  rewrite Hrm. intros [= <-] k u Hu Hsp Hin.
  assert (u ∈ stored) as Hstored.
  { unfold stored. apply list_elem_of_filter. split; [done|].
    apply list_elem_of_fmap. exists (k, u). split; [done|].
    by apply elem_of_map_to_list. }
  assert (old0 !! k = Some u) as Hold0.
  { destruct (indexById_keys stored ∅ k) as [u' Hu'].
    { right. exists u. split; [done|]. by apply (Hkey k u). }
    pose proof Hu' as Hu''.
    apply indexById_lookup in Hu'' as [Hu''|[Hin' Hid']];
      [by rewrite lookup_empty in Hu''|].
    apply list_elem_of_filter in Hin' as [_ Hin'].
    apply list_elem_of_fmap in Hin' as ([k' v] & -> & Hkv).
    apply elem_of_map_to_list in Hkv. simpl in *.
    pose proof (Hkey _ _ Hkv) as Hk'. simpl in Hk'.
    assert (k' = k) as -> by congruence.
    unfold old0. rewrite Hu'. congruence. }
  rewrite Hw2. rewrite decide_False; [by apply (F3 Hnd)|].
  intros Hrem. apply list_elem_of_fmap in Hrem as (u2 & Hid2 & Hu2).
  apply list_elem_of_fmap in Hu2 as ([k2 v2] & -> & Hkv2).
  apply elem_of_map_to_list in Hkv2. simpl in *.
  apply F2 in Hkv2 as [Hold2 Hnin].
  apply indexById_lookup in Hold2 as [Hold2|[_ Hid]];
    [by rewrite lookup_empty in Hold2|].
  apply Hnin. by rewrite <- Hid, <- Hid2.
Qed.

(** A store whose first native-segwit receive address owns the output
    [t1:0], recorded with the value 400 at height 3. *)
Definition knownUtxoStore : Processor :=
  setUtxos {[ "t1_0" := mkUtxo "t1_0" "t1" 0 "400" "d0" "d0" None p2wpkh 3 ]}
           (sampleStore bip84 0 [false; false]).

Lemma processAddressUtxos_keeps_known_witness :
  let cfg := sampleConfig 2 Segwit utxoBlockBook in
  let u := mkUtxo "t1_0" "t1" 0 "400" "d0" "d0" None p2wpkh 3 in
  ∃ w', processAddressUtxos cfg "@d0" (worldOf knownUtxoStore) = Ok tt w' ∧
        utxoById (processor (worldOf knownUtxoStore)) !! "t1_0" = Some u ∧
        utxoById (processor w') !! "t1_0" = Some u.
Proof.
  intros cfg u.
  assert (∃ w', processAddressUtxos cfg "@d0" (worldOf knownUtxoStore) = Ok tt w')
    as [w' Hrun] by (vm_compute; eauto).
  exists w'. split; [exact Hrun|]. split; [reflexivity|].
  apply (processAddressUtxos_keeps_known cfg "@d0" (worldOf knownUtxoStore)
           (sampleAddress (mkPath bip84 0 0) false) (mkPath bip84 0 0)
           [mkAccountUtxo "t1" 0 "500" (Some 7)] w').
  - intros k x Hx. unfold knownUtxoStore, worldOf, setUtxos in Hx. simpl in Hx.
    apply lookup_singleton_Some in Hx as [<- <-]. reflexivity.
  - vm_compute. reflexivity.
  - reflexivity.
  - reflexivity.
  - apply NoDup_singleton.
  - exact Hrun.
  - reflexivity.
  - reflexivity.
  - vm_compute. apply list_elem_of_here.
Defined.

(** ** A second look-ahead pass *)

Lemma lookAhead_settled fuel cfg fmt pna : ∀ branches w,
  fuel ≠ 0 →
  (∀ branch, branch ∈ branches → gapSatisfied fuel cfg fmt branch w) →
  ∃ w', forEach branches (λ branch,
          freshIndex <- getFreshIndex fuel cfg fmt branch true ;;
          addressCount <- fetchAddressCountFromPathPartition fmt branch ;;
          lookAheadLoop fuel fuel cfg fmt branch pna addressCount freshIndex) w
        = Ok tt w' ∧
        processor w' = processor w ∧ mutexQueue w' = mutexQueue w
        ∧ addressesToWatch w' = addressesToWatch w ∧ events w' = events w.
Proof.
  intros branches w Hfuel. revert w.
  induction branches as [|b rest IH]; intros w Hgap; simpl.
  { by exists w. }
  destruct (Hgap b (list_elem_of_here _ _)) as (r & Hr & Hle).
  destruct (getFreshIndex fuel cfg fmt b true w) as [r' w1|e w1|] eqn:Hrun;
    simpl in Hr; [|done|done].
  injection Hr as ->.
  destruct (getFreshIndex_reads fuel cfg fmt b true w w1) as [k ->];
    [by rewrite Hrun|].
  destruct (IH (tick k w)) as (w' & Hrest & Hp & Hq & Hw & He).
  { intros branch Hin.
    apply (gapSatisfied_agree fuel cfg fmt branch w); [apply agreeOn_refl|].
    apply Hgap. by apply list_elem_of_further. }
  exists w'. split; [|done].
  unfold bind at 1. unfold bind at 1. rewrite Hrun.
  unfold bind at 1, fetchAddressCountFromPathPartition. cbn [processor tick].
  destruct fuel as [|fuel']; [done|]. cbn [lookAheadLoop].
  destruct (Nat.ltb_spec (addressCount (processor w) fmt b)
              (r + gapLimit (currencyInfo cfg))) as [Hlt|_]; [lia|].
  exact Hrest.
Qed.

(** X21. On a consistent store and with an injective key derivation, a
    look-ahead pass that follows one that returned finds the gap in place
    on every branch: it returns, creates no address, and hands no address
    to [processAddress]. *)
Theorem setLookAhead_again fuel cfg fmt pna pna' w w1 :
  derivationInjective cfg → storeInv cfg (processor w) →
  setLookAhead fuel cfg fmt pna w = Ok tt w1 →
  ∃ w2, setLookAhead fuel cfg fmt pna' w1 = Ok tt w2 ∧
        processor w2 = processor w1 ∧ mutexQueue w2 = mutexQueue w1.
Proof.
  intros Hinj Hinv Hrun. unfold setLookAhead in Hrun.
  apply bind_inv_Ok in Hrun as ([] & w0 & Hemit & Hrun).
  injection Hemit as <-.
  assert (fuel ≠ 0) as Hfuel.
  { intros ->. destruct (getFormatSupportedBranches fmt) as [|b rest] eqn:Hb.
    { by destruct fmt. }
    simpl in Hrun. apply bind_inv_Ok in Hrun as ([] & w2 & Hbody & _).
    apply bind_inv_Ok in Hbody as (r & w3 & _ & Hbody).
    by apply bind_inv_Ok in Hbody as (c & w4 & _ & Hloop). }
  apply (setLookAhead_branches_post cfg fmt pna fuel Hinj) in Hrun
    as (_ & Hgap & _); [|done].
  destruct (lookAhead_settled fuel cfg fmt pna' (getFormatSupportedBranches fmt)
              (logEvent (Call_setLookAhead fmt pna') w1) Hfuel)
    as (w2 & Hrun2 & Hp & Hq & _).
  { intros branch Hin.
    apply (gapSatisfied_agree fuel cfg fmt branch w1); [apply agreeOn_refl|].
    by apply Hgap. }
  exists w2. split; [|done].
  unfold setLookAhead. by rewrite (bind_Ok _ _ w1 tt (logEvent (Call_setLookAhead fmt pna') w1)).
Qed.

Lemma setLookAhead_again_witness :
  ∃ w1, setLookAhead 10 (sampleConfig 2 Segwit quietBlockBook) bip84 false emptyWorld
        = Ok tt w1 ∧
  ∃ w2, setLookAhead 10 (sampleConfig 2 Segwit quietBlockBook) bip84 true w1
        = Ok tt w2 ∧
        processor w2 = processor w1 ∧ mutexQueue w2 = mutexQueue w1.
Proof.
  assert (∃ w1, setLookAhead 10 (sampleConfig 2 Segwit quietBlockBook) bip84 false
                  emptyWorld = Ok tt w1) as [w1 Hrun] by (vm_compute; eauto).
  exists w1. split; [exact Hrun|].
  apply (setLookAhead_again 10 (sampleConfig 2 Segwit quietBlockBook) bip84 false true
           emptyWorld w1).
  - apply sampleConfig_injective.
  - apply storeInv_empty.
  - exact Hrun.
Defined.

(** X22. On a consistent store without imported (path-less) records,
    whose supported branches of the format each hold the records of the
    indices below some [N <= Nmax], and with an injective key derivation,
    [setLookAhead] returns: fuel [max(Nmax, 1) + gapLimit + 2] is enough
    for every loop and scan in it. *)
Theorem setLookAhead_terminates fuel cfg fmt pna w Nmax :
  derivationInjective cfg → storeInv cfg (processor w) → noImported (processor w) →
  (∀ branch, branch ∈ getFormatSupportedBranches fmt →
     ∃ N, N ≤ Nmax ∧ branchHolds (processor w) fmt branch N) →
  Nat.max Nmax 1 + gapLimit (currencyInfo cfg) + 2 ≤ fuel →
  ∃ w', setLookAhead fuel cfg fmt pna w = Ok tt w'.
Proof. apply setLookAhead_returns. Qed.

Lemma setLookAhead_terminates_witness :
  ∃ w', setLookAhead 5 (sampleConfig 2 Segwit quietBlockBook) bip84 false emptyWorld
        = Ok tt w'.
Proof.
  apply (setLookAhead_terminates 5 (sampleConfig 2 Segwit quietBlockBook) bip84 false
           emptyWorld 0).
  - apply sampleConfig_injective.
  - apply storeInv_empty.
  - apply noImported_empty.
  - intros branch _. exists 0. split; [done|].
    split; [done|]. intros i Hi. lia.
  - simpl. lia.
Defined.

(** ** Counting the addresses of a format *)

(** The addresses stored on the given branches of a format. *)
Definition storedOn (p : Processor) (fmt : CurrencyFormat) (branches : list nat) : nat :=
  foldr (λ branch n, addressCount p fmt branch + n) 0 branches.

Lemma formatAddressCountLoop_settled cfg fmt : ∀ branches count w,
  (∀ branch, branch ∈ branches →
     gapLimit (currencyInfo cfg) ≤ addressCount (processor w) fmt branch) →
  formatAddressCountLoop cfg fmt branches count w
  = Ok (count + storedOn (processor w) fmt branches) w.
Proof.
  induction branches as [|b rest IH]; intros count w Hgap; simpl.
  { unfold ret. f_equal. lia. }
  unfold bind, fetchAddressCountFromPathPartition.
  destruct (Nat.ltb_spec (addressCount (processor w) fmt b) (gapLimit (currencyInfo cfg)))
    as [Hlt|_].
  { specialize (Hgap b (list_elem_of_here _ _)). lia. }
  rewrite IH.
  - f_equal. lia.
  - intros branch Hin. apply Hgap. by apply list_elem_of_further.
Qed.

(** X23. After a look-ahead pass that returned (consistent store,
    injective key derivation), [getFormatAddressCount] returns the number of
    addresses stored on the branches of the format: every branch holds at
    least [gapLimit] addresses, so none is counted as [gapLimit] instead. *)
Theorem getFormatAddressCount_after_lookAhead fuel cfg fmt pna w w' :
  derivationInjective cfg → storeInv cfg (processor w) →
  setLookAhead fuel cfg fmt pna w = Ok tt w' →
  getFormatAddressCount cfg fmt w'
  = Ok (storedOn (processor w') fmt (getFormatSupportedBranches fmt)) w'.
Proof.
  intros Hinj Hinv Hrun. unfold setLookAhead in Hrun.
  apply bind_inv_Ok in Hrun as ([] & w0 & Hemit & Hrun).
  injection Hemit as <-.
  apply (setLookAhead_branches_post cfg fmt pna fuel Hinj) in Hrun
    as (_ & Hgap & _); [|done].
  unfold getFormatAddressCount. rewrite formatAddressCountLoop_settled; [done|].
  intros branch Hin. destruct (Hgap branch Hin) as (r & _ & Hle). lia.
Qed.

Lemma getFormatAddressCount_after_lookAhead_witness :
  ∃ w', setLookAhead 10 (sampleConfig 2 Segwit quietBlockBook) bip84 false emptyWorld
        = Ok tt w' ∧
        getFormatAddressCount (sampleConfig 2 Segwit quietBlockBook) bip84 w'
        = Ok (storedOn (processor w') bip84 (getFormatSupportedBranches bip84)) w'.
Proof.
  assert (∃ w', setLookAhead 10 (sampleConfig 2 Segwit quietBlockBook) bip84 false
                  emptyWorld = Ok tt w') as [w' Hrun] by (vm_compute; eauto).
  exists w'. split; [exact Hrun|].
  apply (getFormatAddressCount_after_lookAhead 10 (sampleConfig 2 Segwit quietBlockBook)
           bip84 false emptyWorld w').
  - apply sampleConfig_injective.
  - apply storeInv_empty.
  - exact Hrun.
Defined.

(* ===================================================================== *)
(** * Part V: the server pool, continued                                   *)
(* ===================================================================== *)

Section ServerPool.
Import ServerStates.

Lemma assoc_get_value {V} (l : list (string * V)) k v :
  assoc_get l k = Some v → v ∈ l.*2.
Proof.
  induction l as [|[k' v'] l IH]; simpl; [done|].
  case_decide.
  - intros [= ->]. apply list_elem_of_here.
  - intros H'. apply list_elem_of_further. by apply IH.
Qed.

Lemma noStateHas_spec has states :
  noStateHas has states = true ↔ ∀ state, state ∈ states → has state = false.
Proof.
  induction states as [|s states IH]; simpl.
  { split; [|done]. intros _ s Hin. by apply elem_of_nil in Hin. }
  destruct (has s) eqn:Hs.
  - split; [done|]. intros H. specialize (H s (list_elem_of_here _ _)). congruence.
  - rewrite IH. split.
    + intros H x [->|Hx]%elem_of_cons; [done|by apply H].
    + intros H x Hx. apply H. by apply list_elem_of_further.
Qed.

Lemma serverCan_spec (has : ServerState → bool) (serverStates : JsMap ServerState) uri :
  let can := match Map_get serverStates uri with
             | None => false
             | Some serverState =>
                 if has serverState then true
                 else noStateHas has (Map_values serverStates)
             end in
  (can = true → is_Some (Map_get serverStates uri)) ∧
  ((∃ uri' state, Map_get serverStates uri' = Some state ∧ has state = true) →
   (can = true ↔ ∃ state, Map_get serverStates uri = Some state ∧ has state = true)) ∧
  ((∀ state, state ∈ Map_values serverStates → has state = false) →
   (can = true ↔ is_Some (Map_get serverStates uri))).
Proof.
  intros can. unfold can.
  destruct (Map_get serverStates uri) as [st|] eqn:Hget.
  - split; [by eauto|]. split.
    + intros (uri' & st' & Hget' & Hhas'). destruct (has st) eqn:Hhas.
      * split; [by eauto|done].
      * split.
        -- intros Hnone. apply noStateHas_spec with (state := st') in Hnone;
             [congruence|]. by apply (assoc_get_value _ uri').
        -- intros (st0 & [= <-] & Hst0). congruence.
    + intros Hnone. split; [by eauto|]. intros _.
      destruct (has st); [done|]. by apply noStateHas_spec.
  - split; [done|]. split.
    + intros _. split; [done|]. by intros (st & ? & _).
    + intros _. split; [done|]. by intros [? ?].
Qed.

(** X24. [serverCanGetTx] is false for a server without state; when some
    server is known to hold the transaction it is true exactly for the
    servers known to hold it; and when none is, it is true for every
    server that has a state.  [serverCanGetAddress] does the same with
    addresses. *)
Theorem serverCanGet_prefers_holders (serverStates : JsMap ServerState) (uri x : string) :
  (serverCanGetTx serverStates uri x = true → is_Some (Map_get serverStates uri)) ∧
  ((∃ uri' state, Map_get serverStates uri' = Some state ∧ x ∈ txids state) →
   (serverCanGetTx serverStates uri x = true ↔
    ∃ state, Map_get serverStates uri = Some state ∧ x ∈ txids state)) ∧
  ((∀ state, state ∈ Map_values serverStates → x ∉ txids state) →
   (serverCanGetTx serverStates uri x = true ↔ is_Some (Map_get serverStates uri))) ∧
  (serverCanGetAddress serverStates uri x = true → is_Some (Map_get serverStates uri)) ∧
  ((∃ uri' state, Map_get serverStates uri' = Some state ∧ x ∈ addresses state) →
   (serverCanGetAddress serverStates uri x = true ↔
    ∃ state, Map_get serverStates uri = Some state ∧ x ∈ addresses state)) ∧
  ((∀ state, state ∈ Map_values serverStates → x ∉ addresses state) →
   (serverCanGetAddress serverStates uri x = true ↔ is_Some (Map_get serverStates uri))).
Proof.
  destruct (serverCan_spec (λ state, bool_decide (x ∈ txids state)) serverStates uri)
    as (T1 & T2 & T3).
  destruct (serverCan_spec (λ state, bool_decide (x ∈ addresses state)) serverStates uri)
    as (A1 & A2 & A3).
  split; [exact T1|]. split; [|split; [|split; [exact A1|split]]].
  - intros (uri' & st & Hget & Hin). unfold serverCanGetTx.
    etrans; [apply T2; exists uri', st; split; [done|by apply bool_decide_eq_true_2]|].
    split; intros (s & Hs & Hx); exists s; (split; [done|]);
      [by apply bool_decide_eq_true in Hx|by apply bool_decide_eq_true_2].
  - intros Hnone. apply T3. intros st Hst. by apply bool_decide_eq_false_2, Hnone.
  - intros (uri' & st & Hget & Hin). unfold serverCanGetAddress.
    etrans; [apply A2; exists uri', st; split; [done|by apply bool_decide_eq_true_2]|].
    split; intros (s & Hs & Hx); exists s; (split; [done|]);
      [by apply bool_decide_eq_true in Hx|by apply bool_decide_eq_true_2].
  - intros Hnone. apply A3. intros st Hst. by apply bool_decide_eq_false_2, Hnone.
Qed.

(** *** The delay before reconnecting *)

Lemma reconnect_counter n s :
  reconnectCounter s ≤ 5 →
  reconnectCounter (Nat.iter n (reconnect true) s) = Nat.min (reconnectCounter s + n) 5.
Proof.
  intros Hs. induction n as [|n IH]; simpl; [lia|].
  rewrite IH. destruct (Nat.ltb_spec (Nat.min (reconnectCounter s + n) 5) 5); lia.
Qed.

(** X25. While the engine is started, the [n]-th call of [reconnect] in
    a row (no connection opening in between) after the counter was reset
    sets a timer of [min(n, 5)] seconds: the delay grows by a second per
    attempt and stops at five.  When the engine is not started
    [reconnect] does nothing. *)
Theorem reconnect_backs_off (n : nat) (s : Reconnecting) :
  let s' := Nat.iter (S n) (reconnect true) (onConnectionOpen s) in
  reconnectCounter s' = Nat.min (S n) 5 ∧
  head (timers s') = Some (Nat.min (S n) 5 * 1000) ∧
  reconnect false s = s.
Proof.
  intros s'. split; [|split; [|done]].
  - unfold s'. by rewrite reconnect_counter by (simpl; lia).
  - unfold s'.
    change (Nat.iter (S n) (reconnect true) (onConnectionOpen s))
      with (reconnect true (Nat.iter n (reconnect true) (onConnectionOpen s))).
    unfold reconnect at 1. cbv zeta. cbn [timers head].
    rewrite reconnect_counter by (simpl; lia). cbn [onConnectionOpen reconnectCounter].
    destruct (Nat.ltb_spec (Nat.min (0 + n) 5) 5); f_equal; lia.
Qed.

End ServerPool.
